(** * The conjecture engine of conjecture.py: expressions, enumerator,
      statements and the per-graph selection

    The development follows the source file class by class:
    [GraphExpression] (postfix programs over function objects, [evaluate],
    [all_expressions]), [GraphStatement] ([evaluate] with its
    try/except) and [GraphBrain.conjecture].  Numbers, graphs and the
    numeric callables are kept abstract in the class [Arithmetic]; the
    theorems hold for every such interpretation.  A small integer
    interpretation, [ZArith_model], is used to run the code on concrete
    graphs. *)

From Stdlib Require Import List ZArith Lia Bool Arith.
From Stdlib Require String.
Import ListNotations.
Local Open Scope Z_scope.

(** ** Exceptions and outcomes *)

(** The exception classes that a numeric callable (an invariant, an operator
    of the registry) can raise.  [max] and [min] of an empty sequence raise
    [ValueError] as well. *)
Inductive numeric_error : Type :=
| ValueError
| ZeroDivisionError
| OverflowError.

(** What a numeric callable gives back. *)
Inductive computed (A : Type) : Type :=
| Value (a : A)
| Fails (e : numeric_error).
Arguments Value {A} a.
Arguments Fails {A} e.

(** All the exceptions of the engine: those of the callables, [IndexError]
    of [list.pop] on an empty list, and [TypeError] (a call with the wrong
    number of arguments, iteration over an object that is not iterable). *)
Inductive exn : Type :=
| Err (e : numeric_error)
| IndexError
| TypeError.

Inductive outcome (A : Type) : Type :=
| Return (a : A)
| Raise (e : exn).
Arguments Return {A} a.
Arguments Raise {A} e.

Definition bind {A B : Type} (m : outcome A) (k : A -> outcome B) : outcome B :=
  match m with
  | Return a => k a
  | Raise e => Raise e
  end.

Notation "x <- m ;; k" := (bind m (fun x => k))
  (at level 61, m at next level, right associativity).
Notation "' p <- m ;; k" := (bind m (fun x => match x with p => k end))
  (at level 61, p pattern, m at next level, right associativity).

Definition call {A : Type} (r : computed A) : outcome A :=
  match r with
  | Value a => Return a
  | Fails e => Raise (Err e)
  end.

(** [try: body except (ValueError, ZeroDivisionError): return handler] *)
Definition try_except_value_zerodiv {A : Type} (body : outcome A) (handler : A) : outcome A :=
  match body with
  | Raise (Err ValueError) => Return handler
  | Raise (Err ZeroDivisionError) => Return handler
  | other => other
  end.

Fixpoint filterM {A : Type} (p : A -> outcome bool) (l : list A) : outcome (list A) :=
  match l with
  | [] => Return []
  | x :: rest =>
      b <- p x ;;
      kept <- filterM p rest ;;
      Return (if b then x :: kept else kept)
  end.

Fixpoint mapM {A B : Type} (f : A -> outcome B) (l : list A) : outcome (list B) :=
  match l with
  | [] => Return []
  | x :: rest =>
      y <- f x ;;
      ys <- mapM f rest ;;
      Return (y :: ys)
  end.

(** [range(lo, hi)] on Python integers. *)
Definition py_range (lo hi : Z) : list Z :=
  map (fun i => lo + Z.of_nat i) (seq 0 (Z.to_nat (hi - lo))).

(** [enumerate(l)] *)
Definition enumerate {A : Type} (l : list A) : list (nat * A) :=
  combine (seq 0 (length l)) l.

(** [ceil(float(c)/2)] *)
Definition ceil_half (c : Z) : Z := (c + 1) / 2.

(** ** Function objects *)

(** The function objects that occur in expression stacks: the members of the
    four registries of [GraphExpression], and any other callable (another
    method of [INPGraph], [decrement], [reciprocal], ...), named. *)
Inductive func : Type :=
| INPGraph_alpha
| INPGraph_min_degree
| math_sqrt
| increment
| operator_add
| operator_mul
| operator_sub
| operator_truediv
| operator_pow
| other_function (name : String.string).

Definition func_eq_dec (f g : func) : {f = g} + {f <> g}.
Proof. decide equality. apply String.string_dec. Defined.

(** [f == g] on function objects. *)
Definition func_eqb (f g : func) : bool :=
  if func_eq_dec f g then true else false.

(** [op in registry] *)
Definition py_in (op : func) (registry : list func) : bool :=
  existsb (func_eqb op) registry.

(** [a == b] on lists of function objects. *)
Fixpoint stack_eqb (a b : list func) : bool :=
  match a, b with
  | [], [] => true
  | x :: a', y :: b' => func_eqb x y && stack_eqb a' b'
  | _, _ => false
  end.

Definition _graph_invariants : list func := [INPGraph_alpha; INPGraph_min_degree].
Definition _unary_operators : list func := [math_sqrt; increment].
Definition _binary_commutative_operators : list func := [operator_add; operator_mul].
Definition _binary_noncommutative_operators : list func :=
  [operator_sub; operator_truediv; operator_pow].

(** ** Numbers and graphs *)

(** The interpretation of the callables: Python numbers, graphs, what each
    function of the registries computes, and the comparisons of numbers. *)
Class Arithmetic : Type := {
  num : Type;
  graph : Type;
  alpha_of : graph -> computed num;
  min_degree_of : graph -> computed num;
  sqrt_of : num -> computed num;
  increment_of : num -> computed num;
  add_of : num -> num -> computed num;
  mul_of : num -> num -> computed num;
  sub_of : num -> num -> computed num;
  truediv_of : num -> num -> computed num;
  pow_of : num -> num -> computed num;
  num_lt : num -> num -> bool;
  num_le : num -> num -> bool;
  num_eq : num -> num -> bool
}.

(** ** GraphExpression *)

Record GraphExpression : Type := mkGraphExpression { _stack : list func }.

Definition append (self : GraphExpression) (x : func) : GraphExpression :=
  mkGraphExpression (_stack self ++ [x]).

Definition extend (self : GraphExpression) (li : list func) : GraphExpression :=
  mkGraphExpression (_stack self ++ li).

Section Evaluate.
Context {A : Arithmetic}.

(** [op(g)], [op(x)] and [op(x, y)] for a function object [op]. *)
Definition call_on_graph (op : func) (g : graph) : outcome num :=
  match op with
  | INPGraph_alpha => call (alpha_of g)
  | INPGraph_min_degree => call (min_degree_of g)
  | _ => Raise TypeError
  end.

Definition call_unary (op : func) (x : num) : outcome num :=
  match op with
  | math_sqrt => call (sqrt_of x)
  | increment => call (increment_of x)
  | _ => Raise TypeError
  end.

Definition call_binary (op : func) (x y : num) : outcome num :=
  match op with
  | operator_add => call (add_of x y)
  | operator_mul => call (mul_of x y)
  | operator_sub => call (sub_of x y)
  | operator_truediv => call (truediv_of x y)
  | operator_pow => call (pow_of x y)
  | _ => Raise TypeError
  end.

(** [stack.pop()]: the evaluation stack is a list whose head is the top. *)
Definition pop (stack : list num) : outcome (num * list num) :=
  match stack with
  | [] => Raise IndexError
  | v :: rest => Return (v, rest)
  end.

(** One turn of the loop of [GraphExpression.evaluate].  In
    [op(stack.pop(), stack.pop())] the arguments are evaluated from left to
    right: the first pop is the first argument. *)
Definition evaluate_step (g : graph) (stack : list num) (op : func) : outcome (list num) :=
  if py_in op _graph_invariants then
    v <- call_on_graph op g ;;
    Return (v :: stack)
  else if py_in op _unary_operators then
    '(x, stack1) <- pop stack ;;
    v <- call_unary op x ;;
    Return (v :: stack1)
  else if py_in op _binary_commutative_operators
          || py_in op _binary_noncommutative_operators then
    '(x, stack1) <- pop stack ;;
    '(y, stack2) <- pop stack1 ;;
    v <- call_binary op x y ;;
    Return (v :: stack2)
  else Return stack.

Fixpoint evaluate_loop (g : graph) (ops : list func) (stack : list num) : outcome (list num) :=
  match ops with
  | [] => Return stack
  | op :: rest =>
      stack' <- evaluate_step g stack op ;;
      evaluate_loop g rest stack'
  end.

Definition evaluate (self : GraphExpression) (g : graph) : outcome num :=
  stack <- evaluate_loop g (_stack self) [] ;;
  '(v, _) <- pop stack ;;
  Return v.

End Evaluate.

(** ** The enumerator: GraphExpression.all_expressions *)

(** What [all_expressions] returns: a list of expressions when the complexity
    is at least 1, and the [GraphExpression([])] object (not a list) below. *)
Inductive enumeration : Type :=
| Expressions (l : list GraphExpression)
| EmptyExpression (e : GraphExpression).

(** The expressions a [for] loop over the result goes through.  A
    [GraphExpression] is not iterable; the recursion never meets one
    ([combine_ext] below: only complexities from 1 on are asked for). *)
Definition elements (r : enumeration) : list GraphExpression :=
  match r with
  | Expressions l => l
  | EmptyExpression _ => []
  end.

(** Every expression in what [all_expressions] returns: the elements of the
    list, or the one expression that is returned below complexity 1. *)
Definition produced (r : enumeration) : list GraphExpression :=
  match r with
  | Expressions l => l
  | EmptyExpression e => [e]
  end.

(** The innermost loops: every operator of a registry on the pair (a, b). *)
Definition apply_noncommutative (a b : GraphExpression) : list GraphExpression :=
  flat_map (fun op =>
    if stack_eqb (_stack a) (_stack b)
       && py_in op [operator_sub; operator_truediv]
    then []
    else [append (extend a (_stack b)) op])
    _binary_noncommutative_operators.

Definition apply_commutative (a b : GraphExpression) : list GraphExpression :=
  flat_map (fun op => [append (extend a (_stack b)) op])
    _binary_commutative_operators.

Section Combine.
(** [cls.all_expressions(c, without)] of the recursive calls, as the list
    that is iterated. *)
Variable all_expressions_rec : Z -> list GraphExpression.
Variable complexity : Z.

(** The first loop: a unary operator on the strings of complexity - 1. *)
Definition unary_extensions : list GraphExpression :=
  flat_map (fun s =>
    flat_map (fun op => [append s op]) _unary_operators)
    (all_expressions_rec (complexity - 1)).

(** The second loop: binary noncommutative operators.  Its body, for one
    [i]: *)
Definition noncommutative_split (i : Z) : list GraphExpression :=
  let strings_a := all_expressions_rec i in
  let strings_b := all_expressions_rec (complexity - 1 - i) in
  flat_map (fun a => flat_map (fun b => apply_noncommutative a b) strings_b) strings_a.

Definition noncommutative_combinations : list GraphExpression :=
  flat_map noncommutative_split (py_range 1 (complexity - 1)).

(** The third loop: binary commutative operators.  Its body, for one
    [k]: *)
Definition commutative_split (k : Z) : list GraphExpression :=
  let strings_a := all_expressions_rec k in
  if k =? complexity - 1 - k then
    flat_map (fun ia =>
      flat_map (fun b => apply_commutative (snd ia) b) (skipn (fst ia) strings_a))
      (enumerate strings_a)
  else
    let strings_b := all_expressions_rec (complexity - 1 - k) in
    flat_map (fun a => flat_map (fun b => apply_commutative a b) strings_b) strings_a.

Definition commutative_combinations : list GraphExpression :=
  flat_map commutative_split (py_range 1 (ceil_half complexity)).

Definition combine_expressions : list GraphExpression :=
  unary_extensions ++ noncommutative_combinations ++ commutative_combinations.
End Combine.

(** [[GraphExpression([f]) for f in cls._graph_invariants if not f == without]] *)
Definition leaf_expressions (without : option func) : list GraphExpression :=
  map (fun f => mkGraphExpression [f])
    (filter (fun f => negb (match without with
                            | Some w => func_eqb f w
                            | None => false
                            end)) _graph_invariants).

(** The recursion of [all_expressions]; every recursive call has a smaller
    complexity, and [fuel] counts the nesting of the calls. *)
Fixpoint all_expressions_fuel (fuel : nat) (complexity : Z) (without : option func)
  : enumeration :=
  if complexity <? 1 then EmptyExpression (mkGraphExpression [])
  else if complexity =? 1 then Expressions (leaf_expressions without)
  else
    match fuel with
    | O => Expressions []
    | S fuel' =>
        Expressions
          (combine_expressions
             (fun c => elements (all_expressions_fuel fuel' c without))
             complexity)
    end.

Definition all_expressions (complexity : Z) (without : option func) : enumeration :=
  all_expressions_fuel (Z.to_nat complexity) complexity without.

(** ** GraphStatement and GraphBrain *)

Section Statements.
Context {A : Arithmetic}.

(** The comparator of a statement: one of the six functions of the
    [operator] module, or any other callable on two numbers. *)
Inductive Comparator : Type :=
| operator_lt
| operator_le
| operator_eq
| operator_ne
| operator_ge
| operator_gt
| other_comparator (f : num -> num -> bool).

(** [comparator(x, y)] *)
Definition compare (c : Comparator) (x y : num) : bool :=
  match c with
  | operator_lt => num_lt x y
  | operator_le => num_le x y
  | operator_eq => num_eq x y
  | operator_ne => negb (num_eq x y)
  | operator_ge => num_le y x
  | operator_gt => num_lt y x
  | other_comparator f => f x y
  end.

(** [comparator == operator.lt or comparator == operator.le] *)
Definition is_lt_or_le (c : Comparator) : bool :=
  match c with
  | operator_lt | operator_le => true
  | _ => false
  end.

(** [comparator == operator.gt or comparator == operator.ge] *)
Definition is_gt_or_ge (c : Comparator) : bool :=
  match c with
  | operator_gt | operator_ge => true
  | _ => false
  end.

(** A [GraphStatement] object.  The class defines no [__eq__] and no
    [__hash__]: two statement objects are compared by identity, which
    [oid] stands for. *)
Record GraphStatement : Type := mkGraphStatement {
  oid : nat;
  lhs : GraphExpression;
  comparator : Comparator;
  rhs : GraphExpression
}.

(** [GraphStatement.__init__]: a side that is not a [GraphExpression] is
    wrapped into one. *)
Definition as_expression (x : GraphExpression + func) : GraphExpression :=
  match x with
  | inl e => e
  | inr f => mkGraphExpression [f]
  end.

Definition new_GraphStatement (address : nat) (l : GraphExpression + func)
           (c : Comparator) (r : GraphExpression + func) : GraphStatement :=
  mkGraphStatement address (as_expression l) c (as_expression r).

(** [GraphStatement.evaluate] *)
Definition statement_evaluate (self : GraphStatement) (g : graph) : outcome bool :=
  try_except_value_zerodiv
    (x <- evaluate (lhs self) g ;;
     y <- evaluate (rhs self) g ;;
     Return (compare (comparator self) x y))
    false.

(** [s == t] on statement objects. *)
Definition statement_eqb (s t : GraphStatement) : bool := Nat.eqb (oid s) (oid t).

(** The two kinds of objects that [conjecture] puts into its result. *)
Inductive pyobject : Type :=
| Statement_object (s : GraphStatement)
| Tuple_object (v : num) (s : GraphStatement).

Definition pyobject_eqb (a b : pyobject) : bool :=
  match a, b with
  | Statement_object s, Statement_object t => statement_eqb s t
  | Tuple_object v s, Tuple_object w t => num_eq v w && statement_eqb s t
  | _, _ => false
  end.

(** [list(set(l))]: an element enters the set unless an equal one is already
    there.  The order in which a Python set is listed is not specified; the
    order of first occurrence is kept here, and the theorems below speak of
    membership only. *)
Definition py_set (l : list pyobject) : list pyobject :=
  fold_left (fun seen x => if existsb (pyobject_eqb x) seen then seen else seen ++ [x]) l [].

(** [max(evaluated, key=operator.itemgetter(0))] and [min]: the first
    element with the greatest (least) key; [ValueError] on an empty list. *)
Fixpoint max_from (best : num * GraphStatement) (rest : list (num * GraphStatement))
  : num * GraphStatement :=
  match rest with
  | [] => best
  | item :: rest' =>
      if num_lt (fst best) (fst item) then max_from item rest' else max_from best rest'
  end.

Fixpoint min_from (best : num * GraphStatement) (rest : list (num * GraphStatement))
  : num * GraphStatement :=
  match rest with
  | [] => best
  | item :: rest' =>
      if num_lt (fst item) (fst best) then min_from item rest' else min_from best rest'
  end.

Definition py_max (l : list (num * GraphStatement)) : outcome (num * GraphStatement) :=
  match l with
  | [] => Raise (Err ValueError)
  | item :: rest => Return (max_from item rest)
  end.

Definition py_min (l : list (num * GraphStatement)) : outcome (num * GraphStatement) :=
  match l with
  | [] => Raise (Err ValueError)
  | item :: rest => Return (min_from item rest)
  end.

(** The body of [for g in cls._graph_db]: what one graph adds to
    [conjectures]. *)
Definition select_for_graph (cmp : Comparator) (statements : list GraphStatement)
           (g : graph) : outcome (list pyobject) :=
  true_statements <- filterM (fun s => statement_evaluate s g) statements ;;
  if is_lt_or_le cmp then
    evaluated <- mapM (fun s => v <- evaluate (lhs s) g ;; Return (v, s)) true_statements ;;
    m <- py_max evaluated ;;
    let best := fst m in
    Return (map (fun p => Statement_object (snd p))
                (filter (fun p => num_eq (fst p) best) evaluated))
  else if is_gt_or_ge cmp then
    evaluated <- mapM (fun s => v <- evaluate (lhs s) g ;; Return (v, s)) true_statements ;;
    m <- py_min evaluated ;;
    let best := fst m in
    Return (map (fun p => Tuple_object (fst p) (snd p))
                (filter (fun p => num_eq (fst p) best) evaluated))
  else
    Return (map Statement_object true_statements).

Fixpoint select_loop (cmp : Comparator) (statements : list GraphStatement)
         (graphs : list graph) (conjectures : list pyobject) : outcome (list pyobject) :=
  match graphs with
  | [] => Return conjectures
  | g :: rest =>
      selected <- select_for_graph cmp statements g ;;
      select_loop cmp statements rest (conjectures ++ selected)
  end.

(** [expressions += GraphExpression.all_expressions(c, without=invariant)]:
    only a list can be added to a list. *)
Definition iterate (r : enumeration) : outcome (list GraphExpression) :=
  match r with
  | Expressions l => Return l
  | EmptyExpression _ => Raise TypeError
  end.

Fixpoint gather_expressions (complexities : list Z) (invariant : func)
         (expressions : list GraphExpression) : outcome (list GraphExpression) :=
  match complexities with
  | [] => Return expressions
  | c :: rest =>
      l <- iterate (all_expressions c (Some invariant)) ;;
      gather_expressions rest invariant (expressions ++ l)
  end.

(** Each statement of [statements] is a new object: its position in the
    list is its identity.  All of them share the one [rhs] object. *)
Definition make_statements (cmp : Comparator) (rhs0 : GraphExpression)
           (expressions : list GraphExpression) : list GraphStatement :=
  map (fun ix => new_GraphStatement (fst ix) (inl (snd ix)) cmp (inl rhs0))
      (enumerate expressions).

(** [GraphBrain.conjecture]; the class attributes [_complexity_limit] and
    [_graph_db] that it reads are its first two arguments. *)
Definition conjecture (_complexity_limit : Z) (_graph_db : list graph)
           (cmp : Comparator) (invariant : func) : outcome (list pyobject) :=
  let rhs0 := mkGraphExpression [invariant] in
  expressions <- gather_expressions (py_range 1 (_complexity_limit + 1)) invariant [] ;;
  let statements := make_statements cmp rhs0 expressions in
  conjectures <- select_loop cmp statements _graph_db [] ;;
  Return (py_set conjectures).

End Statements.

(** ** An integer interpretation, to run the code *)

(** A graph of the corpus, as the invariant oracles see it. *)
Record corpus_graph : Type := mkCorpusGraph {
  independence_number : Z;
  minimum_degree : Z
}.

(** Python [int] arithmetic.  [+], [-], [*] and the comparisons are exact.
    [math.sqrt], [operator.truediv] and a negative power give a float in
    Python; they are kept here by their integer part, and raise where Python
    raises.  The runs below execute none of the three, except a division by
    zero and the square roots of 1 and of 4, which are exact. *)
#[local] Instance ZArith_model : Arithmetic := {|
  num := Z;
  graph := corpus_graph;
  alpha_of g := Value (independence_number g);
  min_degree_of g := Value (minimum_degree g);
  sqrt_of x := if x <? 0 then Fails ValueError else Value (Z.sqrt x);
  increment_of x := Value (x + 1);
  add_of x y := Value (x + y);
  mul_of x y := Value (x * y);
  sub_of x y := Value (x - y);
  truediv_of x y := if y =? 0 then Fails ZeroDivisionError else Value (x / y);
  pow_of x y :=
    if y <? 0 then (if x =? 0 then Fails ZeroDivisionError else Value (1 / x ^ (- y)))
    else Value (x ^ y);
  num_lt := Z.ltb;
  num_le := Z.leb;
  num_eq := Z.eqb
|}.

(** The graphs of [GraphBrain._graph_db] with their independence number and
    minimum degree: the triangle, the claw, the graph with graph6 code EXCO,
    the 5-cycle and the Petersen graph. *)
Definition CompleteGraph3 : corpus_graph := mkCorpusGraph 1 2.
Definition ClawGraph : corpus_graph := mkCorpusGraph 3 1.
Definition KillerGraph : corpus_graph := mkCorpusGraph 4 1.
Definition CycleGraph5 : corpus_graph := mkCorpusGraph 2 2.
Definition PetersenGraph : corpus_graph := mkCorpusGraph 4 3.

Definition default_graph_db : list corpus_graph :=
  [CompleteGraph3; ClawGraph; KillerGraph; CycleGraph5; PetersenGraph].

(** Two graphs outside the default corpus: the path on three vertices and
    the complete graph on five vertices. *)
Definition PathGraph3 : corpus_graph := mkCorpusGraph 2 1.
Definition CompleteGraph5 : corpus_graph := mkCorpusGraph 1 4.

(** ** The height of the evaluation stack *)

(** [evaluate_step] with the values forgotten: the number of values on the
    evaluation stack after [op], or [None] when [op] pops from an empty
    stack. *)
Definition height_step (h : nat) (op : func) : option nat :=
  if py_in op _graph_invariants then Some (S h)
  else if py_in op _unary_operators then
    match h with
    | O => None
    | S _ => Some h
    end
  else if py_in op _binary_commutative_operators
          || py_in op _binary_noncommutative_operators then
    match h with
    | S (S h') => Some (S h')
    | _ => None
    end
  else Some h.

Fixpoint height_after (ops : list func) (h : nat) : option nat :=
  match ops with
  | [] => Some h
  | op :: rest =>
      match height_step h op with
      | Some h' => height_after rest h'
      | None => None
      end
  end.

(** A well-formed postfix program: no pop finds the stack empty, and one
    value is left at the end. *)
Definition well_formed (ops : list func) : Prop := height_after ops 0 = Some 1%nat.

(** The function objects of the four registries. *)
Definition registered (op : func) : Prop :=
  py_in op (_graph_invariants ++ _unary_operators ++ _binary_commutative_operators
              ++ _binary_noncommutative_operators) = true.

(** A postfix program over the registries. *)
Definition postfix_program (ops : list func) : Prop :=
  Forall registered ops /\ well_formed ops.

(** The expressions of complexity [c], as a list. *)
Definition generated (c : Z) (without : option func) : list GraphExpression :=
  elements (all_expressions c without).


(** The statement inside an object of the result, and whether the object is
    a (value, statement) tuple. *)
Definition statement_of {A : Arithmetic} (x : pyobject) : GraphStatement :=
  match x with
  | Statement_object s => s
  | Tuple_object _ s => s
  end.

Definition is_tuple {A : Arithmetic} (x : pyobject) : bool :=
  match x with
  | Statement_object _ => false
  | Tuple_object _ _ => true
  end.

(** The candidate pool of [conjecture]. *)
Definition candidate_pool (limit : Z) (invariant : func) : list GraphExpression :=
  flat_map (fun c => generated c (Some invariant)) (py_range 1 (limit + 1)).

(** The lambdas that [GraphExpression] defines beside [increment] and puts
    into no registry. *)
Module lambda_names.
Import String.
Local Open Scope string_scope.
Definition decrement : string := "decrement".
Definition add_constant : string := "add_constant".
Definition sub_constant : string := "sub_constant".
Definition reciprocal : string := "reciprocal".
End lambda_names.

Definition decrement : func := other_function lambda_names.decrement.
Definition add_constant : func := other_function lambda_names.add_constant.
Definition sub_constant : func := other_function lambda_names.sub_constant.
Definition reciprocal : func := other_function lambda_names.reciprocal.

(** ** Text: [_repr_] and [_latex_] *)

Module Text.
Import String.
Local Open Scope string_scope.

(** What a rendering stack holds: [_repr_] and [_latex_] start from
    [list(self._stack)], a list of function objects, and push strings. *)
Inductive item : Type :=
| Function_object (f : func)
| Str (s : string).

(** The values of [_repr_dict] and [_latex_dict]: lambdas of one or of two
    arguments. *)
Inductive lambda : Type :=
| Lambda1 (f : string -> string)
| Lambda2 (f : string -> string -> string).

Inductive text_exn : Type :=
| KeyError
| Text_IndexError
| Text_TypeError.

Inductive rendered (X : Type) : Type :=
| Ok (x : X)
| Raised (e : text_exn).
Arguments Ok {X} x.
Arguments Raised {X} e.

Definition and_then {X Y : Type} (m : rendered X) (k : X -> rendered Y) : rendered Y :=
  match m with
  | Ok x => k x
  | Raised e => Raised e
  end.

(** [d[key]] on a dictionary given by its items. *)
Fixpoint getitem (d : list (func * lambda)) (key : func) : rendered lambda :=
  match d with
  | nil => Raised KeyError
  | (k, v) :: rest => if func_eqb key k then Ok v else getitem rest key
  end.

Definition call1 (l : lambda) (a : string) : rendered string :=
  match l with
  | Lambda1 f => Ok (f a)
  | Lambda2 _ => Raised Text_TypeError
  end.

Definition call2 (l : lambda) (a b : string) : rendered string :=
  match l with
  | Lambda2 f => Ok (f a b)
  | Lambda1 _ => Raised Text_TypeError
  end.

(** [stack.pop()]; the head of the list is the top. *)
Definition pop_item (stack : list item) : rendered (item * list item) :=
  match stack with
  | nil => Raised Text_IndexError
  | x :: rest => Ok (x, rest)
  end.

Definition _repr_dict : list (func * lambda) :=
  [ (operator_add, Lambda2 (fun a b => a ++ " + " ++ b));
    (operator_sub, Lambda2 (fun a b => a ++ " - " ++ b));
    (operator_mul, Lambda2 (fun a b => a ++ " * " ++ b));
    (operator_truediv, Lambda2 (fun a b => "(" ++ a ++ ")/(" ++ b ++ ")"));
    (operator_pow, Lambda2 (fun a b => "(" ++ a ++ ")^(" ++ b ++ ")"));
    (math_sqrt, Lambda1 (fun a => "sqrt(" ++ a ++ ")"));
    (INPGraph_min_degree, Lambda1 (fun a => "delta(" ++ a ++ ")"));
    (INPGraph_alpha, Lambda1 (fun a => "alpha(" ++ a ++ ")"));
    (increment, Lambda1 (fun a => a ++ " + 1"));
    (decrement, Lambda1 (fun a => a ++ " - 1"));
    (add_constant, Lambda2 (fun a c => a ++ " + " ++ c));
    (sub_constant, Lambda2 (fun a c => a ++ " - " ++ c));
    (reciprocal, Lambda1 (fun a => "1/(" ++ a ++ ")")) ].

Definition _latex_dict : list (func * lambda) :=
  [ (operator_add, Lambda2 (fun a b => a ++ " + " ++ b));
    (operator_sub, Lambda2 (fun a b => a ++ " - " ++ b));
    (operator_mul, Lambda2 (fun a b => a ++ " * " ++ b));
    (operator_truediv, Lambda2 (fun a b => "\frac{" ++ a ++ "}{" ++ b ++ "}"));
    (operator_pow, Lambda2 (fun a b => a ++ "^{" ++ b ++ "}"));
    (math_sqrt, Lambda1 (fun a => "\sqrt{" ++ a ++ "}"));
    (INPGraph_min_degree, Lambda1 (fun a => "\delta(" ++ a ++ ")"));
    (INPGraph_alpha, Lambda1 (fun a => "\alpha(" ++ a ++ ")"));
    (increment, Lambda1 (fun a => a ++ " + 1"));
    (decrement, Lambda1 (fun a => a ++ " - 1"));
    (add_constant, Lambda2 (fun a c => a ++ " + " ++ c));
    (sub_constant, Lambda2 (fun a c => a ++ " - " ++ c));
    (reciprocal, Lambda1 (fun a => "\frac{1}{" ++ a ++ "}")) ].

Section Loop.
(** [str(f)] of a function object, as [format] prints it. *)
Variable str_of_function : func -> string.
(** The dictionary, and the parentheses put around a binary combination that
    is not the last element of the stack. *)
Variable dict : list (func * lambda).
Variable opening closing : string.

(** ["{0}".format(x)] *)
Definition format_item (x : item) : string :=
  match x with
  | Function_object f => str_of_function f
  | Str s => s
  end.

(** One turn of [for i, op in enumerate(self._stack)]; [len] is
    [len(self._stack)].  The callee [dict[op]] is evaluated before its
    arguments, and the arguments from left to right. *)
Definition render_step (len i : nat) (stack : list item) (op : func)
  : rendered (list item) :=
  if py_in op _graph_invariants then
    and_then (getitem dict op) (fun f =>
    and_then (call1 f "G") (fun s =>
    Ok (Str s :: stack)))
  else if py_in op _unary_operators then
    and_then (getitem dict op) (fun f =>
    and_then (pop_item stack) (fun xs =>
    and_then (call1 f (format_item (fst xs))) (fun s =>
    Ok (Str s :: snd xs))))
  else if py_in op _binary_commutative_operators
          || py_in op _binary_noncommutative_operators then
    and_then (getitem dict op) (fun f =>
    and_then (pop_item stack) (fun xs =>
    and_then (pop_item (snd xs)) (fun ys =>
    and_then (call2 f (format_item (fst xs)) (format_item (fst ys))) (fun s =>
    if Nat.eqb (S i) len
    then Ok (Str s :: snd ys)
    else Ok (Str (opening ++ s ++ closing) :: snd ys)))))
  else Ok stack.

Fixpoint render_loop (len i : nat) (ops : list func) (stack : list item)
  : rendered (list item) :=
  match ops with
  | nil => Ok stack
  | op :: rest =>
      and_then (render_step len i stack op) (fun stack' =>
      render_loop len (S i) rest stack')
  end.

(** The loop of the two methods, from [stack = list(self._stack)] to the
    final [stack.pop()]. *)
Definition render (self : GraphExpression) : rendered item :=
  and_then (render_loop (List.length (_stack self)) 0 (_stack self)
                        (rev (map Function_object (_stack self)))) (fun stack =>
  and_then (pop_item stack) (fun xs => Ok (fst xs))).
End Loop.

Section Methods.
Variable str_of_function : func -> string.

(** [GraphExpression._repr_]: [return "{0}".format(stack.pop())] *)
Definition _repr_ (self : GraphExpression) : rendered string :=
  and_then (render str_of_function _repr_dict "(" ")" self) (fun x =>
  Ok (format_item str_of_function x)).

(** [GraphExpression._latex_]: [return stack.pop()] *)
Definition _latex_ (self : GraphExpression) : rendered item :=
  render str_of_function _latex_dict "\left(" "\right)" self.
End Methods.

(** The parentheses that a combination gets when it is an operand. *)
Definition as_operand (opening closing : string) (e : GraphExpression) (text : string)
  : string :=
  match rev (_stack e) with
  | op :: _ =>
      if py_in op _binary_commutative_operators
         || py_in op _binary_noncommutative_operators
      then opening ++ text ++ closing
      else text
  | nil => text
  end.

(** The argument of an invariant's lambda, and the operand forms of the two
    methods. *)
Definition graph_name : string := "G".
Definition repr_opening : string := "(".
Definition repr_closing : string := ")".
Definition latex_opening : string := "\left(".
Definition latex_closing : string := "\right)".
Definition repr_operand : GraphExpression -> string -> string :=
  as_operand repr_opening repr_closing.
Definition latex_operand : GraphExpression -> string -> string :=
  as_operand latex_opening latex_closing.

Section StatementText.
Context {A : Arithmetic}.
Variable str_of_function : func -> string.

(** [GraphStatement._repr_dict[comparator]]: the keys are the six functions
    of the [operator] module. *)
Definition statement_repr_dict (c : Comparator) : rendered string :=
  match c with
  | operator_lt => Ok "<"
  | operator_le => Ok "<="
  | operator_eq => Ok "="
  | operator_ne => Ok "!="
  | operator_ge => Ok ">="
  | operator_gt => Ok ">"
  | other_comparator _ => Raised KeyError
  end.

(** [GraphStatement._repr_]: the arguments of [format] are evaluated first,
    the lookup in [_repr_dict] among them; [format] then prints the left
    side, the symbol and the right side. *)
Definition statement_repr (self : GraphStatement) : rendered string :=
  and_then (statement_repr_dict (comparator self)) (fun symbol =>
  and_then (_repr_ str_of_function (lhs self)) (fun l =>
  and_then (_repr_ str_of_function (rhs self)) (fun r =>
  Ok ("Graph statement: " ++ l ++ " " ++ symbol ++ " " ++ r)))).

(** The layout of the text that [statement_repr] returns. *)
Definition statement_text (l symbol r : string) : string :=
  "Graph statement: " ++ l ++ " " ++ symbol ++ " " ++ r.
End StatementText.

(** A dictionary with a lambda of the right number of arguments for every
    function of the registries. *)
Definition covers_registries (dict : list (func * lambda)) : Prop :=
  (forall op, In op (_graph_invariants ++ _unary_operators) ->
              exists f, getitem dict op = Ok (Lambda1 f)) /\
  (forall op, In op (_binary_commutative_operators ++ _binary_noncommutative_operators) ->
              exists f, getitem dict op = Ok (Lambda2 f)).
End Text.

(** [op] is in one of the four registries, as a boolean. *)
Definition is_registered (op : func) : bool :=
  py_in op (_graph_invariants ++ _unary_operators ++ _binary_commutative_operators
              ++ _binary_noncommutative_operators).

(** * Properties *)

(** ** Evaluation of expressions *)

Section EvaluateFacts.
Context {A : Arithmetic}.

Lemma evaluate_loop_app (g : graph) (a b : list func) (stack : list num) :
  evaluate_loop g (a ++ b) stack =
  (stack' <- evaluate_loop g a stack ;; evaluate_loop g b stack').
Proof.
  revert stack. induction a as [|op a IH]; intros stack; simpl.
  - reflexivity.
  - destruct (evaluate_step g stack op) as [stack'|e]; simpl; auto.
Qed.

(** What lies below the values an instruction uses is left alone. *)
Lemma evaluate_step_frame (g : graph) (op : func) (stack stack' below : list num) :
  evaluate_step g stack op = Return stack' ->
  evaluate_step g (stack ++ below) op = Return (stack' ++ below).
Proof.
  unfold evaluate_step.
  destruct (py_in op _graph_invariants).
  - destruct (call_on_graph op g); simpl; intros H; inversion H; reflexivity.
  - destruct (py_in op _unary_operators).
    + destruct stack as [|x stack1]; simpl; [discriminate|].
      destruct (call_unary op x); simpl; intros H; inversion H; reflexivity.
    + destruct (py_in op _binary_commutative_operators
                || py_in op _binary_noncommutative_operators).
      * destruct stack as [|x [|y stack2]]; simpl; try discriminate.
        destruct (call_binary op x y); simpl; intros H; inversion H; reflexivity.
      * intros H; inversion H; reflexivity.
Qed.

Lemma evaluate_loop_frame (g : graph) (ops : list func) :
  forall stack stack' below,
    evaluate_loop g ops stack = Return stack' ->
    evaluate_loop g ops (stack ++ below) = Return (stack' ++ below).
Proof.
  induction ops as [|op ops IH]; intros stack stack' below; simpl.
  - intros H; inversion H; reflexivity.
  - destruct (evaluate_step g stack op) as [s1|e] eqn:E; simpl; [|discriminate].
    intros H. rewrite (evaluate_step_frame _ _ _ _ below E). simpl. auto.
Qed.

Lemma evaluate_step_binary (g : graph) (op : func) (x y : num) (stack : list num) :
  py_in op (_binary_commutative_operators ++ _binary_noncommutative_operators) = true ->
  evaluate_step g (x :: y :: stack) op =
  (v <- call_binary op x y ;; Return (v :: stack)).
Proof.
  intros H. unfold py_in in H. rewrite existsb_app in H.
  unfold evaluate_step.
  destruct op; simpl in H; try discriminate; reflexivity.
Qed.

(** The operands of a binary operator, helper of the theorem on operand
    order. *)
Lemma evaluate_binary_root (g : graph) (a b : GraphExpression) (op : func) (va vb : num) :
  py_in op (_binary_commutative_operators ++ _binary_noncommutative_operators) = true ->
  evaluate_loop g (_stack a) [] = Return [va] ->
  evaluate_loop g (_stack b) [] = Return [vb] ->
  evaluate (append (extend a (_stack b)) op) g = call_binary op vb va.
Proof.
  intros Hop Ha Hb. unfold evaluate, append, extend. simpl.
  rewrite !evaluate_loop_app, Ha. simpl.
  pose proof (evaluate_loop_frame g (_stack b) [] [vb] [va] Hb) as Hframe.
  simpl in Hframe. rewrite Hframe. simpl.
  rewrite (evaluate_step_binary g op vb va [] Hop).
  destruct (call_binary op vb va); reflexivity.
Qed.

End EvaluateFacts.

(** C1 (as the code has it): for every graph and every two well-formed
    operand stacks [a] (value [va]) and [b] (value [vb]), evaluating the
    stack of [a], then the stack of [b], then a binary operator [op] pops
    [vb] first and [va] second and returns [op(vb, va)]: the first value
    popped, that of the later operand, is the first argument.  With
    [operator.sub] the result is [vb - va]. *)
Theorem evaluate_binary_operand_order
  {A : Arithmetic} (g : graph) (a b : GraphExpression) (op : func) (va vb : num) :
  py_in op (_binary_commutative_operators ++ _binary_noncommutative_operators) = true ->
  evaluate_loop g (_stack a) [] = Return [va] ->
  evaluate_loop g (_stack b) [] = Return [vb] ->
  evaluate_step g [vb; va] op = (v <- call_binary op vb va ;; Return [v]) /\
  evaluate (append (extend a (_stack b)) op) g = call_binary op vb va /\
  (op = operator_sub ->
   evaluate (append (extend a (_stack b)) op) g = call (sub_of vb va)).
Proof.
  intros Hop Ha Hb. split; [|split].
  - apply evaluate_step_binary; exact Hop.
  - apply evaluate_binary_root; assumption.
  - intros ->. apply (evaluate_binary_root g a b operator_sub va vb Hop Ha Hb).
Qed.

Lemma evaluate_binary_operand_order_witness :
  evaluate (append (extend (mkGraphExpression [INPGraph_alpha])
                           [INPGraph_min_degree; increment]) operator_sub)
           PetersenGraph
  = Return (4 - 4).
Proof.
  apply (evaluate_binary_operand_order (A := ZArith_model) PetersenGraph
           (mkGraphExpression [INPGraph_alpha])
           (mkGraphExpression [INPGraph_min_degree; increment])
           operator_sub 4 4); reflexivity.
Defined.

(** C1, as stated, fails: on the Petersen graph (independence number 4,
    minimum degree 3) the stack [alpha, min_degree, sub] evaluates to
    3 - 4 = -1 and not to 4 - 3. *)
Lemma evaluate_sub_is_not_a_minus_b :
  evaluate (mkGraphExpression [INPGraph_alpha]) PetersenGraph = Return 4 /\
  evaluate (mkGraphExpression [INPGraph_min_degree]) PetersenGraph = Return 3 /\
  evaluate (append (extend (mkGraphExpression [INPGraph_alpha]) [INPGraph_min_degree])
                   operator_sub) PetersenGraph = Return (-1) /\
  evaluate (append (extend (mkGraphExpression [INPGraph_alpha]) [INPGraph_min_degree])
                   operator_sub) PetersenGraph <> Return (4 - 3).
Proof.
  repeat split; try reflexivity. discriminate.
Qed.

(** ** Evaluation of statements *)

(** C5: [GraphStatement.evaluate] returns
    [comparator(lhs.evaluate(g), rhs.evaluate(g))]; when the evaluation of a
    side raises [ValueError] or [ZeroDivisionError] it returns [False]; an
    exception of another class raised by a side goes to the caller.  (The
    left side is evaluated first; the right side only when the left one
    returned.) *)
Theorem statement_evaluate_try_except
  {A : Arithmetic} (s : GraphStatement) (g : graph) :
  (forall x y,
      evaluate (lhs s) g = Return x ->
      evaluate (rhs s) g = Return y ->
      statement_evaluate s g = Return (compare (comparator s) x y)) /\
  (forall e,
      e = ValueError \/ e = ZeroDivisionError ->
      evaluate (lhs s) g = Raise (Err e) \/
      (exists x, evaluate (lhs s) g = Return x /\ evaluate (rhs s) g = Raise (Err e)) ->
      statement_evaluate s g = Return false) /\
  (forall e,
      e <> Err ValueError -> e <> Err ZeroDivisionError ->
      evaluate (lhs s) g = Raise e \/
      (exists x, evaluate (lhs s) g = Return x /\ evaluate (rhs s) g = Raise e) ->
      statement_evaluate s g = Raise e).
Proof.
  unfold statement_evaluate. repeat split.
  - intros x y Hl Hr. rewrite Hl, Hr. reflexivity.
  - intros e He [Hl | [x [Hl Hr]]].
    + rewrite Hl. destruct He; subst e; reflexivity.
    + rewrite Hl, Hr. destruct He; subst e; reflexivity.
  - intros e H1 H2 [Hl | [x [Hl Hr]]].
    + rewrite Hl. simpl. destruct e as [[| |]| |]; try reflexivity; congruence.
    + rewrite Hl, Hr. simpl. destruct e as [[| |]| |]; try reflexivity; congruence.
Qed.

(** ** The enumerator *)

Section ListFacts.
Context {X Y : Type}.

Lemma flat_map_ext_in (f g : X -> list Y) (l : list X) :
  (forall x, In x l -> f x = g x) -> flat_map f l = flat_map g l.
Proof.
  induction l as [|x l IH]; intros H; simpl.
  - reflexivity.
  - rewrite (H x (or_introl eq_refl)), IH; auto.
    intros y Hy. apply H. right. exact Hy.
Qed.

Lemma in_singletons (f : X -> Y) (l : list X) (y : Y) :
  In y (flat_map (fun x => [f x]) l) <-> exists x, In x l /\ y = f x.
Proof.
  rewrite in_flat_map. split.
  - intros [x [Hx [H | []]]]. exists x. auto.
  - intros [x [Hx H]]. exists x. split; [exact Hx | left; auto].
Qed.

Lemma in_combine_seq (l : list X) :
  forall (start i : nat) (a : X),
    In (i, a) (combine (seq start (length l)) l) <->
    (start <= i)%nat /\ nth_error l (i - start) = Some a.
Proof.
  induction l as [|x l IH]; intros start i a; simpl.
  - split; [intros [] | intros [_ H]]. destruct (i - start)%nat; discriminate.
  - rewrite IH. split.
    + intros [H | [Hle Hn]].
      * inversion H; subst. rewrite Nat.sub_diag. split; [lia | reflexivity].
      * split; [lia|]. replace (i - start)%nat with (S (i - S start)) by lia. exact Hn.
    + intros [Hle Hn]. destruct (i - start)%nat as [|n] eqn:E.
      * left. inversion Hn; subst. f_equal. lia.
      * right. split; [lia|]. replace (i - S start)%nat with n by lia. exact Hn.
Qed.

Lemma in_enumerate (l : list X) (i : nat) (a : X) :
  In (i, a) (enumerate l) <-> nth_error l i = Some a.
Proof.
  unfold enumerate. rewrite in_combine_seq, Nat.sub_0_r. split.
  - intros [_ H]; exact H.
  - intros H; split; [lia | exact H].
Qed.

Lemma in_skipn (l : list X) (i : nat) (b : X) :
  In b (skipn i l) <-> exists j, (i <= j)%nat /\ nth_error l j = Some b.
Proof.
  split.
  - intros H. apply In_nth_error in H as [n Hn].
    rewrite nth_error_skipn in Hn. exists (i + n)%nat. split; [lia | exact Hn].
  - intros [j [Hle Hj]]. apply (nth_error_In _ (j - i)).
    rewrite nth_error_skipn. replace (i + (j - i))%nat with j by lia. exact Hj.
Qed.
End ListFacts.

Lemma in_py_range (lo hi i : Z) : In i (py_range lo hi) <-> lo <= i < hi.
Proof.
  unfold py_range. rewrite in_map_iff. split.
  - intros [n [<- Hn]]. apply in_seq in Hn. lia.
  - intros H. exists (Z.to_nat (i - lo)). split; [lia | apply in_seq; lia].
Qed.

Lemma ceil_half_lt (c k : Z) : k < ceil_half c <-> 2 * k < c.
Proof. unfold ceil_half. Z.div_mod_to_equations. lia. Qed.

Section EnumeratorFacts.
Variable without : option func.

(** Only the complexities from 1 to [c - 1] are asked for by the three
    loops. *)
Lemma combine_ext (r1 r2 : Z -> list GraphExpression) (c : Z) :
  1 < c ->
  (forall c', 1 <= c' < c -> r1 c' = r2 c') ->
  combine_expressions r1 c = combine_expressions r2 c.
Proof.
  intros Hc H.
  unfold combine_expressions, unary_extensions, noncommutative_combinations,
    commutative_combinations.
  f_equal; [|f_equal].
  - rewrite (H (c - 1)) by lia. reflexivity.
  - apply flat_map_ext_in. intros i Hi. apply in_py_range in Hi.
    unfold noncommutative_split.
    rewrite (H i), (H (c - 1 - i)) by lia. reflexivity.
  - apply flat_map_ext_in. intros k Hk. apply in_py_range in Hk.
    unfold commutative_split.
    assert (2 * k < c) by (apply ceil_half_lt; lia).
    rewrite (H k), (H (c - 1 - k)) by lia. reflexivity.
Qed.

Lemma all_expressions_fuel_step (n : nat) (c : Z) :
  all_expressions_fuel (S n) c without =
  if c <? 1 then EmptyExpression (mkGraphExpression [])
  else if c =? 1 then Expressions (leaf_expressions without)
  else Expressions
         (combine_expressions (fun c' => elements (all_expressions_fuel n c' without)) c).
Proof. reflexivity. Qed.

(** The result does not depend on the fuel, once there is enough of it. *)
Lemma all_expressions_fuel_enough (n : nat) :
  forall (m : nat) (c : Z),
    c <= Z.of_nat n + 1 -> c <= Z.of_nat m + 1 ->
    all_expressions_fuel n c without = all_expressions_fuel m c without.
Proof.
  induction n as [|n IH]; intros m c Hn Hm.
  - destruct m; simpl; destruct (c <? 1) eqn:E1; try reflexivity;
      destruct (c =? 1) eqn:E2; try reflexivity; lia.
  - destruct m as [|m].
    + simpl; destruct (c <? 1) eqn:E1; try reflexivity;
        destruct (c =? 1) eqn:E2; try reflexivity; lia.
    + rewrite !all_expressions_fuel_step.
      destruct (c <? 1) eqn:E1; try reflexivity.
      destruct (c =? 1) eqn:E2; try reflexivity.
      f_equal. apply combine_ext; [lia|].
      intros c' Hc'. f_equal. apply IH; lia.
Qed.

Lemma generated_below_1 (c : Z) : c < 1 -> generated c without = [].
Proof.
  intros H. unfold generated, all_expressions.
  destruct (Z.to_nat c); simpl; destruct (c <? 1) eqn:E; try reflexivity; lia.
Qed.

Lemma generated_1 : generated 1 without = leaf_expressions without.
Proof. reflexivity. Qed.

(** The recursive equation of [all_expressions], as the source writes it. *)
Lemma generated_unfold (c : Z) :
  1 < c ->
  generated c without = combine_expressions (fun c' => generated c' without) c.
Proof.
  intros Hc. unfold generated at 1. unfold all_expressions.
  destruct (Z.to_nat c) as [|n] eqn:En; [lia|].
  rewrite all_expressions_fuel_step.
  destruct (c <? 1) eqn:E1; [lia|]. destruct (c =? 1) eqn:E2; [lia|].
  simpl elements. apply combine_ext; [exact Hc|].
  intros c' Hc'. unfold generated, all_expressions. f_equal.
  apply all_expressions_fuel_enough; lia.
Qed.

Lemma all_expressions_is_list (c : Z) :
  1 <= c -> all_expressions c without = Expressions (generated c without).
Proof.
  intros Hc. unfold generated, all_expressions.
  destruct (Z.to_nat c) as [|n] eqn:En; [lia|].
  rewrite all_expressions_fuel_step.
  destruct (c <? 1) eqn:E1; [lia|]. destruct (c =? 1); reflexivity.
Qed.

Lemma in_leaf_expressions (e : GraphExpression) :
  In e (leaf_expressions without) <->
  exists f, In f _graph_invariants /\ Some f <> without /\ e = mkGraphExpression [f].
Proof.
  unfold leaf_expressions. rewrite in_map_iff. split.
  - intros [f [<- Hf]]. apply filter_In in Hf as [Hf Hw]. exists f. repeat split; auto.
    intros E. rewrite <- E in Hw. unfold func_eqb in Hw.
    destruct (func_eq_dec f f); [discriminate | congruence].
  - intros [f [Hf [Hw ->]]]. exists f. split; [reflexivity|].
    apply filter_In. split; [exact Hf|].
    destruct without as [w|]; [|reflexivity].
    unfold func_eqb. destruct (func_eq_dec f w); [congruence | reflexivity].
Qed.

Lemma in_unary_extensions (r : Z -> list GraphExpression) (c : Z) (e : GraphExpression) :
  In e (unary_extensions r c) <->
  exists s op, In s (r (c - 1)) /\ In op _unary_operators /\ e = append s op.
Proof.
  unfold unary_extensions. rewrite in_flat_map. split.
  - intros [s [Hs H]]. apply in_singletons in H as [op [Hop ->]]. eauto.
  - intros [s [op [Hs [Hop ->]]]]. exists s. split; [exact Hs|].
    apply in_singletons. eauto.
Qed.

Lemma in_apply_noncommutative (a b e : GraphExpression) :
  In e (apply_noncommutative a b) <->
  exists op,
    In op _binary_noncommutative_operators /\
    stack_eqb (_stack a) (_stack b) && py_in op [operator_sub; operator_truediv] = false /\
    e = append (extend a (_stack b)) op.
Proof.
  unfold apply_noncommutative. rewrite in_flat_map. split.
  - intros [op [Hop H]]. exists op.
    destruct (stack_eqb (_stack a) (_stack b) && py_in op [operator_sub; operator_truediv]).
    + destruct H.
    + destruct H as [<- | []]. auto.
  - intros [op [Hop [Hskip ->]]]. exists op. split; [exact Hop|].
    rewrite Hskip. left. reflexivity.
Qed.

Lemma in_apply_commutative (a b e : GraphExpression) :
  In e (apply_commutative a b) <->
  exists op, In op _binary_commutative_operators /\ e = append (extend a (_stack b)) op.
Proof. apply in_singletons. Qed.

Lemma in_noncommutative_split
      (r : Z -> list GraphExpression) (c i : Z) (e : GraphExpression) :
  In e (noncommutative_split r c i) <->
  exists a b op,
    In a (r i) /\ In b (r (c - 1 - i)) /\
    In op _binary_noncommutative_operators /\
    stack_eqb (_stack a) (_stack b) && py_in op [operator_sub; operator_truediv] = false /\
    e = append (extend a (_stack b)) op.
Proof.
  unfold noncommutative_split. cbv zeta. rewrite in_flat_map. split.
  - intros [a [Ha H]]. apply in_flat_map in H as [b [Hb H]].
    apply in_apply_noncommutative in H as [op [Hop [Hskip ->]]].
    exists a, b, op. auto.
  - intros [a [b [op [Ha [Hb [Hop [Hskip ->]]]]]]].
    exists a. split; [exact Ha|].
    apply in_flat_map. exists b. split; [exact Hb|].
    apply in_apply_noncommutative. eauto.
Qed.

Lemma in_noncommutative_combinations
      (r : Z -> list GraphExpression) (c : Z) (e : GraphExpression) :
  In e (noncommutative_combinations r c) <->
  exists i a b op,
    1 <= i < c - 1 /\ In a (r i) /\ In b (r (c - 1 - i)) /\
    In op _binary_noncommutative_operators /\
    stack_eqb (_stack a) (_stack b) && py_in op [operator_sub; operator_truediv] = false /\
    e = append (extend a (_stack b)) op.
Proof.
  unfold noncommutative_combinations. rewrite in_flat_map. split.
  - intros [i [Hi H]]. apply in_py_range in Hi.
    apply in_noncommutative_split in H as [a [b [op H]]].
    exists i, a, b, op. split; [lia | exact H].
  - intros [i [a [b [op [Hi H]]]]].
    exists i. split; [apply in_py_range; lia|].
    apply in_noncommutative_split. eauto.
Qed.

Lemma in_commutative_split
      (r : Z -> list GraphExpression) (c k : Z) (e : GraphExpression) :
  In e (commutative_split r c k) <->
  exists a b op,
    In op _binary_commutative_operators /\
    e = append (extend a (_stack b)) op /\
    ((k = c - 1 - k /\
      exists i j, (i <= j)%nat /\ nth_error (r k) i = Some a /\ nth_error (r k) j = Some b)
     \/ (k <> c - 1 - k /\ In a (r k) /\ In b (r (c - 1 - k)))).
Proof.
  unfold commutative_split. cbv zeta. split.
  - intros H. destruct (k =? c - 1 - k) eqn:E.
    + apply in_flat_map in H as [[i a] [Ha H]]. cbn [fst snd] in H.
      apply in_flat_map in H as [b [Hb H]].
      apply in_apply_commutative in H as [op [Hop ->]].
      apply in_enumerate in Ha. apply in_skipn in Hb as [j [Hij Hj]].
      exists a, b, op. repeat split; auto.
      left. split; [lia|]. exists i, j. auto.
    + apply in_flat_map in H as [a [Ha H]].
      apply in_flat_map in H as [b [Hb H]].
      apply in_apply_commutative in H as [op [Hop ->]].
      exists a, b, op. repeat split; auto.
      right. repeat split; auto. lia.
  - intros [a [b [op [Hop [-> Hcase]]]]].
    destruct Hcase as [[Heq [i [j [Hij [Hi Hj]]]]] | [Hne [Ha Hb]]].
    + replace (k =? c - 1 - k) with true by (symmetry; apply Z.eqb_eq; exact Heq).
      apply in_flat_map. exists (i, a). split; [apply in_enumerate; exact Hi|].
      cbn [fst snd].
      apply in_flat_map. exists b. split; [apply in_skipn; eauto|].
      apply in_apply_commutative. eauto.
    + replace (k =? c - 1 - k) with false by (symmetry; apply Z.eqb_neq; exact Hne).
      apply in_flat_map. exists a. split; [exact Ha|].
      apply in_flat_map. exists b. split; [exact Hb|].
      apply in_apply_commutative. eauto.
Qed.

Lemma in_commutative_combinations
      (r : Z -> list GraphExpression) (c : Z) (e : GraphExpression) :
  In e (commutative_combinations r c) <->
  exists k a b op,
    1 <= k /\ 2 * k < c /\
    In op _binary_commutative_operators /\
    e = append (extend a (_stack b)) op /\
    ((k = c - 1 - k /\
      exists i j, (i <= j)%nat /\ nth_error (r k) i = Some a /\ nth_error (r k) j = Some b)
     \/ (k <> c - 1 - k /\ In a (r k) /\ In b (r (c - 1 - k)))).
Proof.
  unfold commutative_combinations. rewrite in_flat_map. split.
  - intros [k [Hk H]]. apply in_py_range in Hk.
    assert (2 * k < c) by (apply ceil_half_lt; lia).
    apply in_commutative_split in H as [a [b [op H]]].
    exists k, a, b, op. split; [lia|]. split; [lia | exact H].
  - intros [k [a [b [op [Hk1 [Hk2 H]]]]]].
    exists k. split; [apply in_py_range; split; [lia | apply ceil_half_lt; lia]|].
    apply in_commutative_split. eauto.
Qed.

End EnumeratorFacts.

(** *** Induction on the way an expression was generated *)

Lemma in_binary_operators (op : func) :
  In op _binary_commutative_operators \/ In op _binary_noncommutative_operators <->
  py_in op (_binary_commutative_operators ++ _binary_noncommutative_operators) = true.
Proof.
  unfold py_in. rewrite existsb_exists. split.
  - intros H. exists op. split; [apply in_or_app; exact H|].
    unfold func_eqb. destruct (func_eq_dec op op); congruence.
  - intros [f [Hf E]]. unfold func_eqb in E.
    destruct (func_eq_dec op f); [subst f | discriminate].
    apply in_app_or. exact Hf.
Qed.

(** An expression of complexity [c] is a leaf ([c = 1]), or a unary operator
    on an expression of complexity [c - 1], or a binary operator on two
    expressions whose complexities add up to [c - 1]. *)
Lemma generated_cases (without : option func) (c : Z) (e : GraphExpression) :
  In e (generated c without) ->
  (c = 1 /\
   exists f, In f _graph_invariants /\ Some f <> without /\ e = mkGraphExpression [f]) \/
  (1 < c /\
   exists s op, In s (generated (c - 1) without) /\ In op _unary_operators /\
                e = append s op) \/
  (1 < c /\
   exists i a b op,
     1 <= i < c - 1 /\ In a (generated i without) /\ In b (generated (c - 1 - i) without) /\
     (In op _binary_commutative_operators \/ In op _binary_noncommutative_operators) /\
     e = append (extend a (_stack b)) op).
Proof.
  intros H. destruct (Z.lt_trichotomy c 1) as [Hc | [Hc | Hc]].
  - rewrite generated_below_1 in H by exact Hc. destruct H.
  - subst c. left. split; [reflexivity|].
    rewrite generated_1 in H. apply in_leaf_expressions. exact H.
  - right. rewrite generated_unfold in H by exact Hc.
    unfold combine_expressions in H.
    apply in_app_or in H as [H | H]; [|apply in_app_or in H as [H | H]].
    + left. split; [exact Hc|]. apply in_unary_extensions in H. exact H.
    + right. split; [exact Hc|].
      apply in_noncommutative_combinations in H
        as [i [a [b [op [Hi [Ha [Hb [Hop [_ ->]]]]]]]]].
      exists i, a, b, op. repeat split; auto; lia.
    + right. split; [exact Hc|].
      apply in_commutative_combinations in H
        as [k [a [b [op [Hk1 [Hk2 [Hop [-> Hcase]]]]]]]].
      exists k, a, b, op. split; [lia|].
      destruct Hcase as [[Heq [i [j [_ [Hi Hj]]]]] | [_ [Ha Hb]]].
      * apply nth_error_In in Hi. apply nth_error_In in Hj.
        rewrite <- Heq. repeat split; auto.
      * repeat split; auto.
Qed.

Lemma generated_ind (without : option func) (P : Z -> GraphExpression -> Prop) :
  (forall f, In f _graph_invariants -> Some f <> without -> P 1 (mkGraphExpression [f])) ->
  (forall c s op,
      1 < c -> In s (generated (c - 1) without) -> P (c - 1) s ->
      In op _unary_operators -> P c (append s op)) ->
  (forall c i a b op,
      1 <= i < c - 1 ->
      In a (generated i without) -> P i a ->
      In b (generated (c - 1 - i) without) -> P (c - 1 - i) b ->
      In op _binary_commutative_operators \/ In op _binary_noncommutative_operators ->
      P c (append (extend a (_stack b)) op)) ->
  forall c e, In e (generated c without) -> P c e.
Proof.
  intros Hleaf Hun Hbin c.
  induction c as [c IH] using (well_founded_induction (Z.lt_wf 1)).
  intros e He.
  apply generated_cases in He
    as [[-> [f [Hf [Hw ->]]]]
       | [[Hc [s [op [Hs [Hop ->]]]]]
         | [Hc [i [a [b [op [Hi [Ha [Hb [Hop ->]]]]]]]]]]].
  - apply Hleaf; assumption.
  - apply Hun; auto. apply IH; [lia | exact Hs].
  - apply (Hbin c i a b op); auto; apply IH; auto; lia.
Qed.

(** *** Complexity accounting *)

Lemma generated_length (without : option func) (c : Z) (e : GraphExpression) :
  In e (generated c without) -> Z.of_nat (length (_stack e)) = c.
Proof.
  revert c e. apply generated_ind.
  - intros f _ _. reflexivity.
  - intros c s op _ _ IH _. unfold append. simpl.
    rewrite length_app. simpl. lia.
  - intros c i a b op _ _ IHa _ IHb _. unfold append, extend. simpl.
    rewrite !length_app. simpl. lia.
Qed.

(** C6: for every complexity [c >= 1] and every exclusion argument,
    [all_expressions(c, without)] returns a list, and the stack of every
    expression of that list has exactly [c] elements. *)
Theorem all_expressions_complexity (c : Z) (without : option func) :
  1 <= c ->
  exists l,
    all_expressions c without = Expressions l /\
    forall e, In e l -> Z.of_nat (length (_stack e)) = c.
Proof.
  intros Hc. exists (generated c without). split.
  - apply all_expressions_is_list. exact Hc.
  - intros e He. apply (generated_length without). exact He.
Qed.

Lemma all_expressions_complexity_witness :
  exists l,
    all_expressions 3 (Some INPGraph_alpha) = Expressions l /\
    forall e, In e l -> Z.of_nat (length (_stack e)) = 3.
Proof.
  apply (all_expressions_complexity 3 (Some INPGraph_alpha)). lia.
Defined.

(** *** Well-formedness *)

Lemma height_after_app (a b : list func) (h : nat) :
  height_after (a ++ b) h =
  match height_after a h with
  | Some h' => height_after b h'
  | None => None
  end.
Proof.
  revert h. induction a as [|op a IH]; intros h; simpl.
  - reflexivity.
  - destruct (height_step h op); auto.
Qed.

Lemma height_step_shift (op : func) (h h' d : nat) :
  height_step h op = Some h' -> height_step (h + d) op = Some (h' + d)%nat.
Proof.
  unfold height_step.
  destruct (py_in op _graph_invariants).
  - intros H; inversion H; reflexivity.
  - destruct (py_in op _unary_operators).
    + destruct h; [discriminate|]. intros H; inversion H; reflexivity.
    + destruct (py_in op _binary_commutative_operators
                || py_in op _binary_noncommutative_operators).
      * destruct h as [|[|h]]; try discriminate. intros H; inversion H; reflexivity.
      * intros H; inversion H; reflexivity.
Qed.

Lemma height_after_shift (ops : list func) :
  forall h h' d,
    height_after ops h = Some h' -> height_after ops (h + d) = Some (h' + d)%nat.
Proof.
  induction ops as [|op ops IH]; intros h h' d; simpl.
  - intros H; inversion H; reflexivity.
  - destruct (height_step h op) as [h1|] eqn:E; [|discriminate].
    rewrite (height_step_shift _ _ _ d E). apply IH.
Qed.

(** After an operator of a registry the stack is not empty. *)
Lemma height_step_positive (op : func) (h h' : nat) :
  registered op -> height_step h op = Some h' -> (1 <= h')%nat.
Proof.
  unfold registered. intros Hreg.
  destruct op; simpl in Hreg; try discriminate; unfold height_step; simpl;
    intros H; try (inversion H; lia);
    try (destruct h; [discriminate | inversion H; lia]);
    destruct h as [|[|h]]; try discriminate; inversion H; lia.
Qed.

Lemma height_after_positive (ops : list func) (h' : nat) :
  Forall registered ops -> ops <> [] ->
  height_after ops 0 = Some h' -> (1 <= h')%nat.
Proof.
  intros Hreg Hne. destruct (exists_last Hne) as [front [op ->]].
  rewrite height_after_app.
  destruct (height_after front 0) as [h|]; [|discriminate]. simpl.
  destruct (height_step h op) as [h1|] eqn:E; [|discriminate].
  intros H; inversion H; subst h1.
  apply (height_step_positive op h); [|exact E].
  apply Forall_app in Hreg as [_ Hop]. inversion Hop; assumption.
Qed.

Lemma registered_invariant (f : func) : In f _graph_invariants -> registered f.
Proof. intros [<- | [<- | []]]; reflexivity. Qed.

Lemma registered_unary (op : func) : In op _unary_operators -> registered op.
Proof. intros [<- | [<- | []]]; reflexivity. Qed.

Lemma registered_binary (op : func) :
  In op _binary_commutative_operators \/ In op _binary_noncommutative_operators ->
  registered op.
Proof. intros [[<- | [<- | []]] | [<- | [<- | [<- | []]]]]; reflexivity. Qed.

Lemma height_step_invariant (f : func) (h : nat) :
  In f _graph_invariants -> height_step h f = Some (S h).
Proof. intros [<- | [<- | []]]; reflexivity. Qed.

Lemma height_step_unary (op : func) (h : nat) :
  In op _unary_operators -> height_step (S h) op = Some (S h).
Proof. intros [<- | [<- | []]]; reflexivity. Qed.

Lemma height_step_binary (op : func) (h : nat) :
  In op _binary_commutative_operators \/ In op _binary_noncommutative_operators ->
  height_step (S (S h)) op = Some (S h).
Proof. intros [[<- | [<- | []]] | [<- | [<- | [<- | []]]]]; reflexivity. Qed.

(** Every generated expression is a postfix program over the registries. *)
Lemma generated_postfix_program (without : option func) (c : Z) (e : GraphExpression) :
  In e (generated c without) -> postfix_program (_stack e).
Proof.
  revert c e. apply generated_ind; unfold postfix_program, well_formed.
  - intros f Hf _. split.
    + constructor; [apply registered_invariant; exact Hf | constructor].
    + simpl. rewrite (height_step_invariant f 0 Hf). reflexivity.
  - intros c s op _ _ [Hreg Hwf] Hop. unfold append. simpl. split.
    + apply Forall_app. split; [exact Hreg|].
      constructor; [apply registered_unary; exact Hop | constructor].
    + rewrite height_after_app, Hwf. simpl.
      rewrite (height_step_unary op 0 Hop). reflexivity.
  - intros c i a b op _ _ [Hra Hwa] _ [Hrb Hwb] Hop. unfold append, extend. simpl. split.
    + apply Forall_app. split; [apply Forall_app; split; assumption|].
      constructor; [apply registered_binary; exact Hop | constructor].
    + pose proof (height_after_shift _ 0 1 1 Hwb) as Hshift. simpl in Hshift.
      rewrite !height_after_app, Hwa, Hshift. simpl.
      rewrite (height_step_binary op 0 Hop). reflexivity.
Qed.

(** What an operator finds on the stack, in a run that does not underflow. *)
Lemma height_before_operator (ops front rest : list func) (op : func) (h' : nat) :
  height_after ops 0 = Some h' ->
  ops = front ++ op :: rest ->
  exists h,
    height_after front 0 = Some h /\
    (In op _unary_operators -> (1 <= h)%nat) /\
    (In op _binary_commutative_operators \/ In op _binary_noncommutative_operators ->
     (2 <= h)%nat).
Proof.
  intros H ->. rewrite height_after_app in H.
  destruct (height_after front 0) as [h|]; [|discriminate].
  exists h. split; [reflexivity|]. simpl in H.
  destruct (height_step h op) as [h1|] eqn:E; [|discriminate]. split.
  - intros [<- | [<- | []]]; destruct h; try discriminate; lia.
  - intros [[<- | [<- | []]] | [<- | [<- | [<- | []]]]];
      destruct h as [|[|h]]; try discriminate; lia.
Qed.

Section EvaluateHeights.
Context {A : Arithmetic}.

(** When the height simulation goes through, the evaluation stops only on
    an error of a numeric callable. *)
Lemma evaluate_step_height (g : graph) (op : func) (stack : list num) (h' : nat) :
  height_step (length stack) op = Some h' ->
  (exists stack', evaluate_step g stack op = Return stack' /\ length stack' = h') \/
  (exists ne, evaluate_step g stack op = Raise (Err ne)).
Proof.
  destruct op; unfold height_step, evaluate_step; simpl.
  - intros H; inversion H. destruct (alpha_of g); simpl; eauto.
  - intros H; inversion H. destruct (min_degree_of g); simpl; eauto.
  - destruct stack as [|x stack]; simpl; [discriminate|].
    intros H; inversion H. destruct (sqrt_of x); simpl; eauto.
  - destruct stack as [|x stack]; simpl; [discriminate|].
    intros H; inversion H. destruct (increment_of x); simpl; eauto.
  - destruct stack as [|x [|y stack]]; simpl; try discriminate.
    intros H; inversion H. destruct (add_of x y); simpl; eauto.
  - destruct stack as [|x [|y stack]]; simpl; try discriminate.
    intros H; inversion H. destruct (mul_of x y); simpl; eauto.
  - destruct stack as [|x [|y stack]]; simpl; try discriminate.
    intros H; inversion H. destruct (sub_of x y); simpl; eauto.
  - destruct stack as [|x [|y stack]]; simpl; try discriminate.
    intros H; inversion H. destruct (truediv_of x y); simpl; eauto.
  - destruct stack as [|x [|y stack]]; simpl; try discriminate.
    intros H; inversion H. destruct (pow_of x y); simpl; eauto.
  - intros H; inversion H. eauto.
Qed.

Lemma evaluate_loop_height (g : graph) (ops : list func) :
  forall (stack : list num) (h' : nat),
    height_after ops (length stack) = Some h' ->
    (exists stack', evaluate_loop g ops stack = Return stack' /\ length stack' = h') \/
    (exists ne, evaluate_loop g ops stack = Raise (Err ne)).
Proof.
  induction ops as [|op ops IH]; intros stack h'; simpl.
  - intros H; inversion H. left. eauto.
  - destruct (height_step (length stack) op) as [h1|] eqn:E; [|discriminate].
    intros H.
    destruct (evaluate_step_height g op stack h1 E) as [[stack1 [E1 L1]] | [ne E1]];
      rewrite E1; simpl.
    + apply IH. rewrite L1. exact H.
    + right. eauto.
Qed.

Lemma evaluate_well_formed (g : graph) (e : GraphExpression) :
  well_formed (_stack e) ->
  (exists v, evaluate_loop g (_stack e) [] = Return [v] /\ evaluate e g = Return v) \/
  (exists ne, evaluate e g = Raise (Err ne)).
Proof.
  intros Hwf. unfold evaluate.
  destruct (evaluate_loop_height g (_stack e) [] 1 Hwf) as [[stack [E L]] | [ne E]];
    rewrite E; simpl.
  - destruct stack as [|v [|w stack]]; try discriminate. left. eauto.
  - right. eauto.
Qed.
End EvaluateHeights.

Lemma all_expressions_elements (c : Z) (without : option func) (l : list GraphExpression) :
  all_expressions c without = Expressions l -> l = generated c without.
Proof. intros H. unfold generated. rewrite H. reflexivity. Qed.

Lemma all_expressions_below_1 (c : Z) (without : option func) :
  c < 1 -> all_expressions c without = EmptyExpression (mkGraphExpression []).
Proof.
  intros H. unfold all_expressions.
  destruct (Z.to_nat c); simpl; destruct (c <? 1) eqn:E; try reflexivity; lia.
Qed.

Lemma produced_from_1 (c : Z) (without : option func) (e : GraphExpression) :
  1 <= c -> In e (produced (all_expressions c without)) -> In e (generated c without).
Proof.
  intros Hc H. rewrite (all_expressions_is_list without c Hc) in H. exact H.
Qed.

Lemma produced_below_1 (c : Z) (without : option func) (e : GraphExpression) :
  c < 1 -> In e (produced (all_expressions c without)) -> e = mkGraphExpression [].
Proof.
  intros Hc H. rewrite (all_expressions_below_1 c without Hc) in H.
  destruct H as [<- | []]. reflexivity.
Qed.

(** C7 (as the code has it): for every complexity [c >= 1],
    [all_expressions] returns a list, and every expression of the list is a
    well-formed postfix program.  In the run of [evaluate] every unary
    operator finds at least one value on the stack and every binary operator
    at least two, and one value is left at the end; so, on every graph,
    [evaluate] returns that value or stops on an error raised by an invariant
    or an operator, and never pops from an empty stack. *)
Theorem all_expressions_well_formed
  {A : Arithmetic} (c : Z) (without : option func) :
  1 <= c ->
  exists l,
    all_expressions c without = Expressions l /\
    forall e, In e l ->
      well_formed (_stack e) /\
      (forall front op rest,
          _stack e = front ++ op :: rest ->
          exists h,
            height_after front 0 = Some h /\
            (In op _unary_operators -> (1 <= h)%nat) /\
            (In op _binary_commutative_operators \/ In op _binary_noncommutative_operators ->
             (2 <= h)%nat)) /\
      (forall g : graph,
          ((exists v, evaluate_loop g (_stack e) [] = Return [v] /\ evaluate e g = Return v) \/
           (exists ne, evaluate e g = Raise (Err ne))) /\
          evaluate e g <> Raise IndexError).
Proof.
  intros Hc. exists (generated c without).
  split; [apply all_expressions_is_list; exact Hc|].
  intros e He.
  destruct (generated_postfix_program without c e He) as [_ Hwf].
  split; [exact Hwf|]. split.
  - intros front op rest E. apply (height_before_operator _ _ _ _ _ Hwf E).
  - intros g. pose proof (evaluate_well_formed g e Hwf) as H. split; [exact H|].
    destruct H as [[v [_ H]] | [ne H]]; rewrite H; discriminate.
Qed.

Lemma all_expressions_well_formed_witness :
  well_formed [INPGraph_min_degree; INPGraph_min_degree; increment; operator_mul] /\
  evaluate (mkGraphExpression
              [INPGraph_min_degree; INPGraph_min_degree; increment; operator_mul])
           PetersenGraph <> Raise IndexError.
Proof.
  destruct (all_expressions_well_formed (A := ZArith_model) 4 (Some INPGraph_alpha))
    as [l [Hl H]]; [lia|].
  apply all_expressions_elements in Hl. subst l.
  destruct (H (mkGraphExpression
                 [INPGraph_min_degree; INPGraph_min_degree; increment; operator_mul]))
    as [Hwf [_ Hev]].
  - vm_compute. tauto.
  - split; [exact Hwf | apply (Hev PetersenGraph)].
Defined.

(** C7, as stated, fails below complexity 1: there [all_expressions] returns
    the expression with the empty stack, which is no well-formed postfix
    program, and [evaluate] on it pops from an empty stack. *)
Lemma empty_expression_is_not_well_formed :
  produced (all_expressions 0 None) = [mkGraphExpression []] /\
  ~ well_formed (_stack (mkGraphExpression [])) /\
  evaluate (A := ZArith_model) (mkGraphExpression []) PetersenGraph = Raise IndexError.
Proof.
  split; [reflexivity|]. split; [|reflexivity].
  unfold well_formed. simpl. discriminate.
Qed.

(** *** Exclusion *)

Lemma generated_without (X : func) (c : Z) (e : GraphExpression) :
  In X _graph_invariants ->
  In e (generated c (Some X)) -> ~ In X (_stack e).
Proof.
  intros HX. revert c e. apply generated_ind.
  - intros f _ Hne [E | []]. apply Hne. congruence.
  - intros c s op _ _ IH Hop H. unfold append in H. simpl in H.
    apply in_app_or in H as [H | [H | []]]; [exact (IH H)|]. subst op.
    destruct HX as [<- | [<- | []]]; destruct Hop as [E | [E | []]]; discriminate.
  - intros c i a b op _ _ IHa _ IHb Hop H. unfold append, extend in H. simpl in H.
    apply in_app_or in H as [H | [H | []]].
    + apply in_app_or in H as [H | H]; [exact (IHa H) | exact (IHb H)].
    + subst op.
      destruct HX as [<- | [<- | []]];
        destruct Hop as [[E | [E | []]] | [E | [E | [E | []]]]]; discriminate.
Qed.

(** C10: for every leaf invariant [X] of the registry, no expression returned
    by [all_expressions(c, without=X)] has [X] anywhere in its stack; and
    [all_expressions(1, without=X)] returns exactly one expression, the leaf
    of the other invariant of the two in the registry. *)
Theorem all_expressions_exclusion (X : func) :
  In X _graph_invariants ->
  (forall c l e,
      all_expressions c (Some X) = Expressions l -> In e l -> ~ In X (_stack e)) /\
  (exists Y,
      In Y _graph_invariants /\ Y <> X /\
      all_expressions 1 (Some X) = Expressions [mkGraphExpression [Y]]).
Proof.
  intros HX. split.
  - intros c l e Hl He. apply all_expressions_elements in Hl. subst l.
    apply (generated_without X c e HX He).
  - destruct HX as [<- | [<- | []]].
    + exists INPGraph_min_degree. repeat split; [right; left; reflexivity | discriminate].
    + exists INPGraph_alpha. repeat split; [left; reflexivity | discriminate].
Qed.

Lemma all_expressions_exclusion_witness :
  (forall c l e,
      all_expressions c (Some INPGraph_alpha) = Expressions l -> In e l ->
      ~ In INPGraph_alpha (_stack e)) /\
  (exists Y,
      In Y _graph_invariants /\ Y <> INPGraph_alpha /\
      all_expressions 1 (Some INPGraph_alpha) = Expressions [mkGraphExpression [Y]]).
Proof.
  apply (all_expressions_exclusion INPGraph_alpha). left. reflexivity.
Defined.

(** *** Unique reading of a postfix program *)

Lemma app_eq_app_split {X : Type} (a : list X) :
  forall a' b b',
    a ++ b = a' ++ b' ->
    exists l, (a = a' ++ l /\ b' = l ++ b) \/ (a' = a ++ l /\ b = l ++ b').
Proof.
  induction a as [|x a IH]; intros a' b b' H.
  - exists a'. right. split; [reflexivity | exact H].
  - destruct a' as [|y a'].
    + exists (x :: a). left. split; [reflexivity | symmetry; exact H].
    + simpl in H. inversion H; subst y.
      destruct (IH a' b b' H2) as [l [[E1 E2] | [E1 E2]]]; exists l.
      * left. split; [simpl; f_equal; exact E1 | exact E2].
      * right. split; [simpl; f_equal; exact E1 | exact E2].
Qed.

(** A program that is well formed cannot be a program followed by the
    beginning of another one. *)
Lemma no_program_extension (a' l rest : list func) :
  well_formed a' -> well_formed (a' ++ l) ->
  Forall registered l -> well_formed (l ++ rest) ->
  l = [].
Proof.
  unfold well_formed. intros Ha' Ha Hreg Hb.
  destruct l as [|x l]; [reflexivity | exfalso].
  rewrite height_after_app in Hb.
  destruct (height_after (x :: l) 0) as [h|] eqn:E; [|discriminate].
  assert (1 <= h)%nat as Hpos
      by (apply (height_after_positive (x :: l)); [exact Hreg | discriminate | exact E]).
  rewrite height_after_app, Ha' in Ha.
  pose proof (height_after_shift _ 0 h 1 E) as Hshift. simpl in Hshift.
  simpl in Ha. rewrite Hshift in Ha. inversion Ha. lia.
Qed.

Lemma unique_parse (a b a' b' : list func) :
  postfix_program a -> postfix_program b ->
  postfix_program a' -> postfix_program b' ->
  a ++ b = a' ++ b' -> a = a' /\ b = b'.
Proof.
  intros [Hra Hwa] [Hrb Hwb] [Hra' Hwa'] [Hrb' Hwb'] H.
  destruct (app_eq_app_split a a' b b' H) as [l [[E1 E2] | [E1 E2]]].
  - assert (l = []) as ->.
    { apply (no_program_extension a' l b); auto.
      + rewrite <- E1. exact Hwa.
      + subst a. apply Forall_app in Hra as [_ Hl]. exact Hl.
      + rewrite <- E2. exact Hwb'. }
    rewrite app_nil_r in E1. simpl in E2. auto.
  - assert (l = []) as ->.
    { apply (no_program_extension a l b'); auto.
      + rewrite <- E1. exact Hwa'.
      + subst a'. apply Forall_app in Hra' as [_ Hl]. exact Hl.
      + rewrite <- E2. exact Hwb. }
    rewrite app_nil_r in E1. simpl in E2. auto.
Qed.

Lemma expression_eq (a b : GraphExpression) : _stack a = _stack b -> a = b.
Proof. destruct a, b. simpl. intros ->. reflexivity. Qed.

Lemma append_inj (s s' : GraphExpression) (op op' : func) :
  append s op = append s' op' -> s = s' /\ op = op'.
Proof.
  unfold append. intros H. inversion H as [E].
  apply app_inj_tail in E as [E ->]. split; [apply expression_eq; exact E | reflexivity].
Qed.

(** The two operands and the operator can be read off a combination. *)
Lemma combination_inj (a b a' b' : GraphExpression) (op op' : func) :
  postfix_program (_stack a) -> postfix_program (_stack b) ->
  postfix_program (_stack a') -> postfix_program (_stack b') ->
  append (extend a (_stack b)) op = append (extend a' (_stack b')) op' ->
  a = a' /\ b = b' /\ op = op'.
Proof.
  intros Ha Hb Ha' Hb' H. apply append_inj in H as [H ->].
  unfold extend in H. inversion H as [E].
  destruct (unique_parse _ _ _ _ Ha Hb Ha' Hb' E) as [E1 E2].
  repeat split; apply expression_eq; assumption.
Qed.

(** *** No expression is generated twice *)

Section NoDupLoops.
Context {X Y : Type}.

Lemma NoDup_flat_map_inj (f : X -> list Y) (l : list X) :
  NoDup l ->
  (forall x, In x l -> NoDup (f x)) ->
  (forall x x' y, In x l -> In x' l -> In y (f x) -> In y (f x') -> x = x') ->
  NoDup (flat_map f l).
Proof.
  intros Hl. induction Hl as [|x l Hx Hl IH]; intros Hf Hinj; simpl.
  - constructor.
  - apply NoDup_app.
    + apply Hf. left. reflexivity.
    + apply IH.
      * intros x' Hx'. apply Hf. right. exact Hx'.
      * intros x1 x2 y H1 H2. apply Hinj; right; assumption.
    + intros y Hy Hy'. apply in_flat_map in Hy' as [x' [Hx' Hy']].
      apply Hx. replace x with x'; [exact Hx'|].
      apply (Hinj x' x y); auto; [right; exact Hx' | left; reflexivity].
Qed.

Lemma NoDup_singletons (f : X -> Y) (l : list X) :
  NoDup l -> (forall x x', In x l -> In x' l -> f x = f x' -> x = x') ->
  NoDup (flat_map (fun x => [f x]) l).
Proof.
  intros Hl Hinj. apply NoDup_flat_map_inj; auto.
  - intros x _. constructor; [intros [] | constructor].
  - intros x x' y Hx Hx' [<- | []] [E | []]. apply Hinj; auto.
Qed.

Lemma NoDup_skipn (n : nat) (l : list X) : NoDup l -> NoDup (skipn n l).
Proof.
  intros H. rewrite <- (firstn_skipn n l) in H.
  apply NoDup_app_remove_l in H. exact H.
Qed.

Lemma NoDup_enumerate (l : list X) : NoDup (enumerate l).
Proof.
  unfold enumerate. generalize 0%nat.
  induction l as [|x l IH]; intros start; simpl.
  - constructor.
  - constructor; [|apply IH].
    intros H. apply in_combine_l in H. apply in_seq in H. lia.
Qed.
End NoDupLoops.

Section PairLoops.
Variable f : GraphExpression -> GraphExpression -> list GraphExpression.
Hypothesis f_NoDup : forall a b, NoDup (f a b).

Lemma NoDup_pair_loop (la lb : list GraphExpression) :
  NoDup la -> NoDup lb ->
  (forall a b a' b' y,
      In a la -> In b lb -> In a' la -> In b' lb ->
      In y (f a b) -> In y (f a' b') -> a = a' /\ b = b') ->
  NoDup (flat_map (fun a => flat_map (fun b => f a b) lb) la).
Proof.
  intros Hla Hlb Hinj. apply NoDup_flat_map_inj; auto.
  - intros a Ha. apply NoDup_flat_map_inj; auto.
    intros b b' y Hb Hb' Hy Hy'. apply (Hinj a b a b' y); auto.
  - intros a a' y Ha Ha' Hy Hy'.
    apply in_flat_map in Hy as [b [Hb Hy]].
    apply in_flat_map in Hy' as [b' [Hb' Hy']].
    apply (Hinj a b a' b' y); auto.
Qed.

Lemma NoDup_triangle_loop (l : list GraphExpression) :
  NoDup l ->
  (forall a b a' b' y,
      In a l -> In b l -> In a' l -> In b' l ->
      In y (f a b) -> In y (f a' b') -> a = a' /\ b = b') ->
  NoDup (flat_map (fun ia => flat_map (fun b => f (snd ia) b) (skipn (fst ia) l))
                  (enumerate l)).
Proof.
  intros Hl Hinj. apply NoDup_flat_map_inj.
  - apply NoDup_enumerate.
  - intros [i a] Hia. cbn [fst snd]. apply in_enumerate in Hia.
    apply NoDup_flat_map_inj; auto.
    + apply NoDup_skipn. exact Hl.
    + intros b b' y Hb Hb' Hy Hy'.
      apply in_skipn in Hb as [j [_ Hb]]. apply in_skipn in Hb' as [j' [_ Hb']].
      apply (Hinj a b a b' y); eauto using nth_error_In.
  - intros [i a] [i' a'] y Hia Hia' Hy Hy'. cbn [fst snd] in *.
    apply in_enumerate in Hia. apply in_enumerate in Hia'.
    apply in_flat_map in Hy as [b [Hb Hy]].
    apply in_flat_map in Hy' as [b' [Hb' Hy']].
    apply in_skipn in Hb as [j [_ Hb]]. apply in_skipn in Hb' as [j' [_ Hb']].
    destruct (Hinj a b a' b' y) as [E _]; eauto using nth_error_In.
    subst a'. f_equal.
    apply (proj1 (NoDup_nth_error l) Hl).
    + apply nth_error_Some. rewrite Hia. discriminate.
    + rewrite Hia, Hia'. reflexivity.
Qed.
End PairLoops.

Lemma NoDup_py_range (lo hi : Z) : NoDup (py_range lo hi).
Proof.
  unfold py_range. apply NoDup_map_NoDup_ForallPairs; [|apply seq_NoDup].
  intros i j _ _ H. lia.
Qed.

Lemma apply_commutative_NoDup (a b : GraphExpression) : NoDup (apply_commutative a b).
Proof.
  unfold apply_commutative. apply NoDup_singletons.
  - repeat constructor; simpl; intuition discriminate.
  - intros op op' _ _ H. apply append_inj in H. tauto.
Qed.

Lemma apply_noncommutative_NoDup (a b : GraphExpression) :
  NoDup (apply_noncommutative a b).
Proof.
  unfold apply_noncommutative. apply NoDup_flat_map_inj.
  - repeat constructor; simpl; intuition discriminate.
  - intros op _.
    destruct (stack_eqb (_stack a) (_stack b) && py_in op [operator_sub; operator_truediv]);
      repeat constructor. intros [].
  - intros op op' y _ _.
    destruct (stack_eqb (_stack a) (_stack b) && py_in op [operator_sub; operator_truediv]);
      [intros []|].
    destruct (stack_eqb (_stack a) (_stack b) && py_in op' [operator_sub; operator_truediv]);
      [intros _ []|].
    intros [<- | []] [E | []]. apply append_inj in E. symmetry. tauto.
Qed.

(** The last element of a generated expression tells which loop made it. *)
Lemma registries_disjoint (op : func) :
  (In op _unary_operators -> In op _binary_noncommutative_operators -> False) /\
  (In op _unary_operators -> In op _binary_commutative_operators -> False) /\
  (In op _binary_noncommutative_operators -> In op _binary_commutative_operators -> False).
Proof.
  repeat split; intros H1 H2; simpl in H1, H2;
    repeat (destruct H1 as [H1 | H1]; try contradiction);
    repeat (destruct H2 as [H2 | H2]; try contradiction);
    congruence.
Qed.

Section GeneratedNoDup.
Variable without : option func.

Lemma combination_of_generated_inj (i j i' j' : Z) (a b a' b' y : GraphExpression)
      (f f' : GraphExpression -> GraphExpression -> list GraphExpression) :
  (forall e, In e (f a b) -> exists op, e = append (extend a (_stack b)) op) ->
  (forall e, In e (f' a' b') -> exists op, e = append (extend a' (_stack b')) op) ->
  In a (generated i without) -> In b (generated j without) -> In a' (generated i' without) -> In b' (generated j' without) ->
  In y (f a b) -> In y (f' a' b') -> a = a' /\ b = b'.
Proof.
  intros Hf Hf' Ha Hb Ha' Hb' Hy Hy'.
  apply Hf in Hy as [op ->]. apply Hf' in Hy' as [op' E].
  apply combination_inj in E as [E1 [E2 _]]; auto;
    eapply generated_postfix_program; eassumption.
Qed.

Lemma apply_commutative_shape (a b e : GraphExpression) :
  In e (apply_commutative a b) -> exists op, e = append (extend a (_stack b)) op.
Proof. intros H. apply in_apply_commutative in H as [op [_ ->]]. eauto. Qed.

Lemma apply_noncommutative_shape (a b e : GraphExpression) :
  In e (apply_noncommutative a b) -> exists op, e = append (extend a (_stack b)) op.
Proof. intros H. apply in_apply_noncommutative in H as [op [_ [_ ->]]]. eauto. Qed.

Lemma generated_NoDup (c : Z) : NoDup (generated c without).
Proof.
  induction c as [c IH] using (well_founded_induction (Z.lt_wf 1)).
  destruct (Z.lt_trichotomy c 1) as [Hc | [Hc | Hc]].
  - rewrite generated_below_1 by exact Hc. constructor.
  - subst c. rewrite generated_1. unfold leaf_expressions.
    apply NoDup_map_NoDup_ForallPairs.
    + intros f g _ _ H. congruence.
    + apply NoDup_filter. repeat constructor; simpl; intuition discriminate.
  - rewrite generated_unfold by exact Hc.
    unfold combine_expressions. apply NoDup_app; [|apply NoDup_app|].
    + (* the unary loop *)
      unfold unary_extensions. apply NoDup_flat_map_inj.
      * apply IH. lia.
      * intros s _. apply NoDup_singletons.
        -- repeat constructor; simpl; intuition discriminate.
        -- intros op op' _ _ H. apply append_inj in H. tauto.
      * intros s s' y _ _ Hy Hy'.
        apply in_singletons in Hy as [op [_ ->]].
        apply in_singletons in Hy' as [op' [_ E]].
        apply append_inj in E. tauto.
    + (* the noncommutative loop *)
      unfold noncommutative_combinations. apply NoDup_flat_map_inj.
      * apply NoDup_py_range.
      * intros i Hi. apply in_py_range in Hi. unfold noncommutative_split. cbv zeta.
        apply NoDup_pair_loop; try (apply IH; lia).
        -- apply apply_noncommutative_NoDup.
        -- intros a b a' b' y Ha Hb Ha' Hb'.
           apply (combination_of_generated_inj i (c - 1 - i) i (c - 1 - i));
             auto using apply_noncommutative_shape.
      * intros i i' y Hi Hi' Hy Hy'.
        apply in_noncommutative_split in Hy as [a [b [op [Ha [Hb [_ [_ ->]]]]]]].
        apply in_noncommutative_split in Hy' as [a' [b' [op' [Ha' [Hb' [_ [_ E]]]]]]].
        apply combination_inj in E as [E _];
          try (eapply generated_postfix_program; eassumption).
        subst a'. apply generated_length in Ha. apply generated_length in Ha'. lia.
    + (* the commutative loop *)
      unfold commutative_combinations. apply NoDup_flat_map_inj.
      * apply NoDup_py_range.
      * intros k Hk. apply in_py_range in Hk.
        assert (2 * k < c) by (apply ceil_half_lt; lia).
        unfold commutative_split. cbv zeta.
        destruct (k =? c - 1 - k).
        -- apply NoDup_triangle_loop; try (apply IH; lia).
           ++ apply apply_commutative_NoDup.
           ++ intros a b a' b' y Ha Hb Ha' Hb'.
              apply (combination_of_generated_inj k k k k);
                auto using apply_commutative_shape.
        -- apply NoDup_pair_loop; try (apply IH; lia).
           ++ apply apply_commutative_NoDup.
           ++ intros a b a' b' y Ha Hb Ha' Hb'.
              apply (combination_of_generated_inj k (c - 1 - k) k (c - 1 - k));
                auto using apply_commutative_shape.
      * intros k k' y Hk Hk' Hy Hy'.
        apply in_commutative_split in Hy as [a [b [op [_ [-> Hcase]]]]].
        apply in_commutative_split in Hy' as [a' [b' [op' [_ [E Hcase']]]]].
        assert (In a (generated k without) /\ In b (generated (c - 1 - k) without)) as [Ha Hb].
        { destruct Hcase as [[Heq [i [j [_ [Hi Hj]]]]] | [_ [Ha Hb]]]; [|auto].
          rewrite <- Heq. eauto using nth_error_In. }
        assert (In a' (generated k' without) /\ In b' (generated (c - 1 - k') without)) as [Ha' Hb'].
        { destruct Hcase' as [[Heq [i [j [_ [Hi Hj]]]]] | [_ [Ha' Hb']]]; [|auto].
          rewrite <- Heq. eauto using nth_error_In. }
        apply combination_inj in E as [E _];
          try (eapply generated_postfix_program; eassumption).
        subst a'. apply generated_length in Ha. apply generated_length in Ha'. lia.
    + (* noncommutative against commutative *)
      intros y Hy Hy'.
      apply in_noncommutative_combinations in Hy
        as [i [a [b [op [_ [_ [_ [Hop [_ ->]]]]]]]]].
      apply in_commutative_combinations in Hy'
        as [k [a' [b' [op' [_ [_ [Hop' [E _]]]]]]]].
      apply append_inj in E as [_ ->].
      apply (proj2 (proj2 (registries_disjoint op')) Hop Hop').
    + (* unary against binary *)
      intros y Hy Hy'. apply in_unary_extensions in Hy as [s [op [_ [Hop ->]]]].
      apply in_app_or in Hy' as [Hy' | Hy'].
      * apply in_noncommutative_combinations in Hy'
          as [i [a [b [op' [_ [_ [_ [Hop' [_ E]]]]]]]]].
        apply append_inj in E as [_ ->].
        apply (proj1 (registries_disjoint op') Hop Hop').
      * apply in_commutative_combinations in Hy'
          as [k [a' [b' [op' [_ [_ [Hop' [E _]]]]]]]].
        apply append_inj in E as [_ ->].
        apply (proj1 (proj2 (registries_disjoint op')) Hop Hop').
Qed.
End GeneratedNoDup.

(** *** Commutative combinations are generated once *)

Lemma postfix_program_nonempty (ops : list func) : postfix_program ops -> ops <> [].
Proof. intros [_ H] ->. discriminate. Qed.

(** How a combination by a commutative operator got into the result: from the
    third loop, at the split [k] that is the complexity of its first
    operand. *)
Lemma in_generated_commutative
      (without : option func) (c : Z) (a b : GraphExpression) (op : func) :
  In op _binary_commutative_operators ->
  postfix_program (_stack a) -> postfix_program (_stack b) ->
  In (append (extend a (_stack b)) op) (generated c without) ->
  let k := Z.of_nat (length (_stack a)) in
  1 <= k /\ 2 * k < c /\
  ((k = c - 1 - k /\
    exists i j, (i <= j)%nat /\
                nth_error (generated k without) i = Some a /\
                nth_error (generated k without) j = Some b)
   \/ (k <> c - 1 - k /\ In a (generated k without) /\ In b (generated (c - 1 - k) without))).
Proof.
  intros Hop Ha Hb H k.
  destruct (Z.lt_trichotomy c 1) as [Hc | [Hc | Hc]].
  - rewrite generated_below_1 in H by exact Hc. destruct H.
  - subst c. rewrite generated_1 in H.
    apply in_leaf_expressions in H as [f [_ [_ E]]].
    unfold append, extend in E. inversion E as [E'].
    apply postfix_program_nonempty in Ha.
    destruct (_stack a) as [|x [|y sa]]; [congruence | |]; simpl in E';
      destruct (_stack b); discriminate.
  - rewrite generated_unfold in H by exact Hc. unfold combine_expressions in H.
    apply in_app_or in H as [H | H]; [|apply in_app_or in H as [H | H]].
    + exfalso. apply in_unary_extensions in H as [s [op' [_ [Hop' E]]]].
      apply append_inj in E as [_ ->].
      apply (proj1 (proj2 (registries_disjoint op')) Hop' Hop).
    + exfalso.
      apply in_noncommutative_combinations in H
        as [i [a' [b' [op' [_ [_ [_ [Hop' [_ E]]]]]]]]].
      apply append_inj in E as [_ ->].
      apply (proj2 (proj2 (registries_disjoint op')) Hop' Hop).
    + apply in_commutative_combinations in H
        as [k' [a' [b' [op' [Hk1 [Hk2 [_ [E Hcase]]]]]]]].
      assert (In a' (generated k' without) /\ In b' (generated (c - 1 - k') without))
        as [Ha' Hb'].
      { destruct Hcase as [[Heq [i [j [_ [Hi Hj]]]]] | [_ [Ha' Hb']]]; [|auto].
        rewrite <- Heq. eauto using nth_error_In. }
      apply combination_inj in E as [E1 [E2 _]]; auto;
        try (eapply generated_postfix_program; eassumption).
      subst a' b'.
      assert (k = k') as <- by (apply (generated_length without); exact Ha').
      auto.
Qed.

(** C8: for a complexity [c] and a commutative operator [op], a combination
    [a b op] returned by [all_expressions(c)] was made at a split below the
    midpoint [ceil(c/2)]; when [a] and [b] have the same complexity, [a] does
    not come after [b] in the list of that complexity; and when [a] and [b]
    are distinct the combination [b a op] is not returned. *)
Theorem commutative_non_duplication
  (c : Z) (without : option func) (l : list GraphExpression)
  (op : func) (a b : GraphExpression) :
  all_expressions c without = Expressions l ->
  In op _binary_commutative_operators ->
  postfix_program (_stack a) -> postfix_program (_stack b) ->
  In (append (extend a (_stack b)) op) l ->
  let k := Z.of_nat (length (_stack a)) in
  1 <= k < ceil_half c /\
  (length (_stack a) = length (_stack b) ->
   exists i j, (i <= j)%nat /\
               nth_error (generated k without) i = Some a /\
               nth_error (generated k without) j = Some b) /\
  (a <> b -> ~ In (append (extend b (_stack a)) op) l).
Proof.
  intros Hl Hop Ha Hb Hab k. apply all_expressions_elements in Hl. subst l.
  pose proof (generated_length without c _ Hab) as Hlen.
  unfold append, extend in Hlen. simpl in Hlen. rewrite !length_app in Hlen.
  simpl in Hlen.
  destruct (in_generated_commutative without c a b op Hop Ha Hb Hab)
    as [Hk1 [Hk2 Hcase]]. fold k in Hk1, Hk2, Hcase.
  split; [split; [exact Hk1 | apply ceil_half_lt; exact Hk2]|]. split.
  - intros Heq. destruct Hcase as [[_ Hij] | [Hne _]]; [exact Hij|]. unfold k in Hne. lia.
  - intros Hdiff Hba.
    destruct (in_generated_commutative without c b a op Hop Hb Ha Hba)
      as [_ [Hk2' Hcase']].
    destruct Hcase as [[_ [i [j [Hij [Hi Hj]]]]] | [Hne _]]; [|unfold k in *; lia].
    destruct Hcase' as [[_ [i' [j' [Hij' [Hi' Hj']]]]] | [Hne' _]]; [|unfold k in *; lia].
    replace (Z.of_nat (length (_stack b))) with k in Hi', Hj' by (unfold k in *; lia).
    pose proof (generated_NoDup without k) as Hnd.
    assert (i = j') as ->.
    { apply (proj1 (NoDup_nth_error _) Hnd).
      - apply nth_error_Some. rewrite Hi. discriminate.
      - rewrite Hi, Hj'. reflexivity. }
    assert (j = i') as ->.
    { apply (proj1 (NoDup_nth_error _) Hnd).
      - apply nth_error_Some. rewrite Hj. discriminate.
      - rewrite Hj, Hi'. reflexivity. }
    assert (i' = j') as -> by lia.
    apply Hdiff. congruence.
Qed.

Lemma commutative_non_duplication_witness :
  In (append (extend (mkGraphExpression [INPGraph_alpha]) [INPGraph_min_degree])
             operator_add) (generated 3 None) /\
  ~ In (append (extend (mkGraphExpression [INPGraph_min_degree]) [INPGraph_alpha])
               operator_add) (generated 3 None).
Proof.
  assert (In (append (extend (mkGraphExpression [INPGraph_alpha]) [INPGraph_min_degree])
                     operator_add) (generated 3 None)) as Hin
      by (vm_compute; tauto).
  split; [exact Hin|].
  apply (commutative_non_duplication 3 None (generated 3 None) operator_add
           (mkGraphExpression [INPGraph_alpha]) (mkGraphExpression [INPGraph_min_degree])).
  - reflexivity.
  - left. reflexivity.
  - split; [repeat constructor | reflexivity].
  - split; [repeat constructor | reflexivity].
  - exact Hin.
  - discriminate.
Defined.

(** ** The selection: GraphBrain.conjecture *)

Section SelectionFacts.
Context {A : Arithmetic}.

Lemma filterM_In {X : Type} (p : X -> outcome bool) (l l' : list X) :
  filterM p l = Return l' -> forall x, In x l' -> In x l /\ p x = Return true.
Proof.
  revert l'. induction l as [|a l IH]; intros l'; simpl.
  - intros H; inversion H. intros x [].
  - destruct (p a) as [b|] eqn:Ea; simpl; [|discriminate].
    destruct (filterM p l) as [kept|]; simpl; [|discriminate].
    intros H; inversion H; subst l'. intros x Hx.
    destruct b.
    + destruct Hx as [<- | Hx]; [auto|].
      destruct (IH kept eq_refl x Hx). auto.
    + destruct (IH kept eq_refl x Hx). auto.
Qed.

Lemma filterM_all_false {X : Type} (p : X -> outcome bool) (l : list X) :
  (forall x, In x l -> p x = Return false) -> filterM p l = Return [].
Proof.
  induction l as [|a l IH]; intros H; simpl.
  - reflexivity.
  - rewrite (H a (or_introl eq_refl)), IH; [reflexivity|].
    intros x Hx. apply H. right. exact Hx.
Qed.

Lemma mapM_In {X Y : Type} (f : X -> outcome Y) (l : list X) (l' : list Y) :
  mapM f l = Return l' -> forall y, In y l' -> exists x, In x l /\ f x = Return y.
Proof.
  revert l'. induction l as [|a l IH]; intros l'; simpl.
  - intros H; inversion H. intros y [].
  - destruct (f a) as [b|] eqn:Ea; simpl; [|discriminate].
    destruct (mapM f l) as [ys|]; simpl; [|discriminate].
    intros H; inversion H; subst l'. intros y [<- | Hy].
    + exists a. auto.
    + destruct (IH ys eq_refl y Hy) as [x [Hx E]]. exists x. auto.
Qed.

Lemma evaluated_In (g : graph) (l : list GraphStatement)
      (evaluated : list (num * GraphStatement)) :
  mapM (fun s => v <- evaluate (lhs s) g ;; Return (v, s)) l = Return evaluated ->
  forall p, In p evaluated -> In (snd p) l.
Proof.
  intros H p Hp. destruct (mapM_In _ _ _ H p Hp) as [s [Hs E]].
  destruct (evaluate (lhs s) g); simpl in E; inversion E. exact Hs.
Qed.

Lemma comparator_directions (cmp : Comparator) :
  is_lt_or_le cmp = true -> is_gt_or_ge cmp = false.
Proof. destruct cmp; simpl; congruence. Qed.

(** What one graph contributes: objects built on statements of the pool
    that are true on the graph; tuples exactly in the [>], [>=] branch. *)
Lemma select_for_graph_In (cmp : Comparator) (statements : list GraphStatement)
      (g : graph) (selected : list pyobject) :
  select_for_graph cmp statements g = Return selected ->
  forall x, In x selected ->
    In (statement_of x) statements /\
    statement_evaluate (statement_of x) g = Return true /\
    is_tuple x = is_gt_or_ge cmp.
Proof.
  unfold select_for_graph.
  destruct (filterM (fun s => statement_evaluate s g) statements)
    as [true_statements|] eqn:Ef; simpl; [|discriminate].
  pose proof (filterM_In _ _ _ Ef) as Htrue.
  destruct (is_lt_or_le cmp) eqn:Elt.
  - rewrite (comparator_directions cmp Elt).
    destruct (mapM _ true_statements) as [evaluated|] eqn:Em; simpl; [|discriminate].
    destruct (py_max evaluated); simpl; [|discriminate].
    intros H; inversion H; subst selected. intros x Hx.
    apply in_map_iff in Hx as [p [<- Hp]]. apply filter_In in Hp as [Hp _].
    apply (evaluated_In g _ _ Em) in Hp. simpl.
    destruct (Htrue _ Hp). auto.
  - destruct (is_gt_or_ge cmp) eqn:Egt.
    + destruct (mapM _ true_statements) as [evaluated|] eqn:Em; simpl; [|discriminate].
      destruct (py_min evaluated); simpl; [|discriminate].
      intros H; inversion H; subst selected. intros x Hx.
      apply in_map_iff in Hx as [p [<- Hp]]. apply filter_In in Hp as [Hp _].
      apply (evaluated_In g _ _ Em) in Hp. simpl.
      destruct (Htrue _ Hp). auto.
    + intros H; inversion H; subst selected. intros x Hx.
      apply in_map_iff in Hx as [s [<- Hs]]. simpl.
      destruct (Htrue _ Hs). auto.
Qed.

Lemma select_loop_In (cmp : Comparator) (statements : list GraphStatement)
      (graphs : list graph) :
  forall (conjectures result : list pyobject),
    select_loop cmp statements graphs conjectures = Return result ->
    forall x, In x result ->
      In x conjectures \/
      (In (statement_of x) statements /\ is_tuple x = is_gt_or_ge cmp /\
       exists g, In g graphs /\ statement_evaluate (statement_of x) g = Return true).
Proof.
  induction graphs as [|g graphs IH]; intros conjectures result; simpl.
  - intros H; inversion H. auto.
  - destruct (select_for_graph cmp statements g) as [selected|] eqn:Es; simpl;
      [|discriminate].
    intros H x Hx. destruct (IH _ _ H x Hx) as [Hin | [H1 [H2 [g' [Hg' H3]]]]].
    + apply in_app_or in Hin as [Hin | Hin]; [left; exact Hin | right].
      destruct (select_for_graph_In _ _ _ _ Es x Hin) as [H1 [H2 H3]].
      repeat split; auto. exists g. auto.
    + right. repeat split; auto. exists g'. auto.
Qed.

(** [list(set(l))] keeps elements of [l], and no two equal ones. *)
Lemma py_set_step_invariant (l : list pyobject) :
  forall seen : list pyobject,
    (forall i j x y, (i < j)%nat -> nth_error seen i = Some x ->
                     nth_error seen j = Some y -> pyobject_eqb y x = false) ->
    let result :=
      fold_left (fun seen x => if existsb (pyobject_eqb x) seen then seen else seen ++ [x])
                l seen in
    (forall x, In x result -> In x seen \/ In x l) /\
    (forall i j x y, (i < j)%nat -> nth_error result i = Some x ->
                     nth_error result j = Some y -> pyobject_eqb y x = false).
Proof.
  induction l as [|a l IH]; intros seen Hseen; simpl.
  - split; [auto | exact Hseen].
  - destruct (existsb (pyobject_eqb a) seen) eqn:E.
    + destruct (IH seen Hseen) as [H1 H2]. split; [|exact H2].
      intros x Hx. destruct (H1 x Hx); auto.
    + assert (forall i j x y, (i < j)%nat -> nth_error (seen ++ [a]) i = Some x ->
                              nth_error (seen ++ [a]) j = Some y ->
                              pyobject_eqb y x = false) as Hseen'.
      { intros i j x y Hij Hi Hj.
        assert (j < length (seen ++ [a]))%nat as Hlen
            by (apply nth_error_Some; rewrite Hj; discriminate).
        rewrite length_app in Hlen. simpl in Hlen.
        rewrite nth_error_app1 in Hi by lia.
        destruct (Nat.eq_dec j (length seen)) as [-> | Hne].
        - rewrite nth_error_app2 in Hj by lia. rewrite Nat.sub_diag in Hj.
          inversion Hj; subst y.
          destruct (pyobject_eqb a x) eqn:Eax; [|reflexivity].
          assert (existsb (pyobject_eqb a) seen = true) as Hex.
          { apply existsb_exists. exists x. split; [|exact Eax].
            apply (nth_error_In _ _ Hi). }
          congruence.
        - rewrite nth_error_app1 in Hj by lia. apply (Hseen i j); assumption. }
      destruct (IH (seen ++ [a]) Hseen') as [H1 H2]. split; [|exact H2].
      intros x Hx. destruct (H1 x Hx) as [Hin | Hin]; [|auto].
      apply in_app_or in Hin as [Hin | [<- | []]]; auto.
Qed.

Lemma py_set_In (l : list pyobject) (x : pyobject) : In x (py_set l) -> In x l.
Proof.
  intros H. destruct (py_set_step_invariant l []) as [H1 _].
  - intros i j x' y' _ Hi. destruct i; discriminate.
  - destruct (H1 x H) as [[] | Hin]. exact Hin.
Qed.


(** The candidate pool is always built: every complexity asked for is at
    least 1. *)
Lemma gather_expressions_pool (invariant : func) (complexities : list Z) :
  forall expressions,
    (forall c, In c complexities -> 1 <= c) ->
    gather_expressions complexities invariant expressions =
    Return (expressions ++ flat_map (fun c => generated c (Some invariant)) complexities).
Proof.
  induction complexities as [|c cs IH]; intros expressions Hcs; simpl.
  - rewrite app_nil_r. reflexivity.
  - rewrite all_expressions_is_list by (apply Hcs; left; reflexivity). simpl.
    rewrite IH by (intros c' Hc'; apply Hcs; right; exact Hc').
    rewrite app_assoc. reflexivity.
Qed.

Lemma conjecture_unfold (limit : Z) (corpus : list graph) (cmp : Comparator)
      (invariant : func) :
  conjecture limit corpus cmp invariant =
  (conjectures <- select_loop cmp
                    (make_statements cmp (mkGraphExpression [invariant])
                                     (candidate_pool limit invariant))
                    corpus [] ;;
   Return (py_set conjectures)).
Proof.
  unfold conjecture. rewrite gather_expressions_pool.
  - reflexivity.
  - intros c Hc. apply in_py_range in Hc. lia.
Qed.


Lemma in_make_statements (cmp : Comparator) (rhs0 : GraphExpression)
      (expressions : list GraphExpression) (s : GraphStatement) :
  In s (make_statements cmp rhs0 expressions) <->
  exists i e, nth_error expressions i = Some e /\ s = mkGraphStatement i e cmp rhs0.
Proof.
  unfold make_statements. rewrite in_map_iff. split.
  - intros [[i e] [<- H]]. apply in_enumerate in H. exists i, e. auto.
  - intros [i [e [H ->]]]. exists (i, e). split; [reflexivity|].
    apply in_enumerate. exact H.
Qed.


(** In the pool of statements an object is known by its identity. *)
Lemma make_statements_oid (cmp : Comparator) (rhs0 : GraphExpression)
      (expressions : list GraphExpression) (s t : GraphStatement) :
  In s (make_statements cmp rhs0 expressions) ->
  In t (make_statements cmp rhs0 expressions) ->
  oid s = oid t -> s = t.
Proof.
  intros Hs Ht E.
  apply in_make_statements in Hs as [i [e [Hi ->]]].
  apply in_make_statements in Ht as [j [e' [Hj ->]]].
  simpl in E. subst j. congruence.
Qed.
End SelectionFacts.

Section SelectionRuns.
Context {A : Arithmetic}.

Lemma select_for_graph_no_true_statement (cmp : Comparator)
      (statements : list GraphStatement) (g : graph) :
  is_lt_or_le cmp || is_gt_or_ge cmp = true ->
  (forall s, In s statements -> statement_evaluate s g = Return false) ->
  select_for_graph cmp statements g = Raise (Err ValueError).
Proof.
  intros Hcmp Hfalse. unfold select_for_graph.
  rewrite (filterM_all_false _ _ Hfalse). simpl.
  destruct (is_lt_or_le cmp); [reflexivity|].
  simpl in Hcmp. rewrite Hcmp. reflexivity.
Qed.

Lemma select_loop_raises (cmp : Comparator) (statements : list GraphStatement)
      (g : graph) (e0 : exn) (graphs : list graph) :
  select_for_graph cmp statements g = Raise e0 ->
  In g graphs ->
  forall conjectures, exists e, select_loop cmp statements graphs conjectures = Raise e.
Proof.
  intros Hg. induction graphs as [|g' graphs IH]; intros Hin conjectures; simpl.
  - destruct Hin.
  - destruct (select_for_graph cmp statements g') as [selected|e'] eqn:E; simpl.
    + destruct Hin as [-> | Hin]; [congruence|]. apply IH. exact Hin.
    + exists e'. reflexivity.
Qed.

Lemma select_loop_empty_pool (cmp : Comparator) (graphs : list graph) :
  is_lt_or_le cmp = false -> is_gt_or_ge cmp = false ->
  select_loop cmp [] graphs [] = Return [].
Proof.
  intros Hlt Hgt. induction graphs as [|g graphs IH]; simpl.
  - reflexivity.
  - unfold select_for_graph. simpl. rewrite Hlt, Hgt. simpl. exact IH.
Qed.

Lemma candidate_pool_empty (limit : Z) (invariant : func) :
  limit < 1 -> candidate_pool limit invariant = [].
Proof.
  intros H. unfold candidate_pool, py_range.
  replace (Z.to_nat (limit + 1 - 1)) with 0%nat by lia. reflexivity.
Qed.
End SelectionRuns.

(** C2 fails on the code: under [<], [<=], [>] or [>=], when no candidate
    statement is true on some graph of the corpus, [max] (or [min]) is called
    on an empty list and the run stops on an exception. *)
Theorem conjecture_raises_when_no_statement_is_true
  {A : Arithmetic} (limit : Z) (corpus : list graph) (g : graph)
  (cmp : Comparator) (invariant : func) :
  is_lt_or_le cmp || is_gt_or_ge cmp = true ->
  In g corpus ->
  (forall s,
      In s (make_statements cmp (mkGraphExpression [invariant])
                            (candidate_pool limit invariant)) ->
      statement_evaluate s g = Return false) ->
  select_for_graph cmp
    (make_statements cmp (mkGraphExpression [invariant]) (candidate_pool limit invariant))
    g = Raise (Err ValueError) /\
  exists e, conjecture limit corpus cmp invariant = Raise e.
Proof.
  intros Hcmp Hg Hfalse.
  pose proof (select_for_graph_no_true_statement cmp _ g Hcmp Hfalse) as Hsel.
  split; [exact Hsel|].
  rewrite conjecture_unfold.
  destruct (select_loop_raises cmp _ g _ corpus Hsel Hg []) as [e He].
  exists e. rewrite He. reflexivity.
Qed.

Lemma conjecture_raises_on_the_triangle :
  conjecture 1 default_graph_db operator_lt INPGraph_alpha = Raise (Err ValueError) /\
  exists e, conjecture 1 default_graph_db operator_lt INPGraph_alpha = Raise e.
Proof.
  split; [reflexivity|].
  apply (conjecture_raises_when_no_statement_is_true (A := ZArith_model)
           1 default_graph_db CompleteGraph3 operator_lt INPGraph_alpha).
  - reflexivity.
  - left. reflexivity.
  - intros s [<- | []]. reflexivity.
Defined.

(** C3 fails on the code: under [>] or [>=] every element of the list that
    [conjecture] returns is a (value, statement) tuple, not a statement: the
    branch adds the filtered pairs themselves. *)
Theorem conjecture_gt_returns_tuples
  {A : Arithmetic} (limit : Z) (corpus : list graph) (cmp : Comparator)
  (invariant : func) (result : list pyobject) :
  is_gt_or_ge cmp = true ->
  conjecture limit corpus cmp invariant = Return result ->
  forall x, In x result -> exists v s, x = Tuple_object v s.
Proof.
  intros Hcmp H x Hx. rewrite conjecture_unfold in H.
  destruct (select_loop cmp _ corpus []) as [conjectures|] eqn:E; simpl in H;
    [|discriminate].
  inversion H; subst result. apply py_set_In in Hx.
  destruct (select_loop_In _ _ _ _ _ E x Hx) as [[] | [_ [Ht _]]].
  rewrite Hcmp in Ht. destruct x as [s | v s]; [discriminate | eauto].
Qed.

Lemma conjecture_gt_returns_tuples_witness :
  conjecture 1 [CompleteGraph3] operator_gt INPGraph_alpha =
  Return [Tuple_object 2
            (mkGraphStatement 0 (mkGraphExpression [INPGraph_min_degree]) operator_gt
                              (mkGraphExpression [INPGraph_alpha]))] /\
  exists v s,
    Tuple_object 2
      (mkGraphStatement 0 (mkGraphExpression [INPGraph_min_degree]) operator_gt
                        (mkGraphExpression [INPGraph_alpha]))
    = Tuple_object v s.
Proof.
  split; [reflexivity|].
  apply (conjecture_gt_returns_tuples (A := ZArith_model)
           1 [CompleteGraph3] operator_gt INPGraph_alpha _ eq_refl eq_refl).
  left. reflexivity.
Defined.




(** C9 (as the code has it): [conjecture] checks nothing.  With an empty
    corpus it returns the empty list, for every limit and comparator; with a
    limit below 1 the candidate pool is empty and, for a comparator other
    than [<], [<=], [>], [>=], it returns the empty list; a comparator
    outside the six of the [operator] module takes the last branch, which
    keeps every statement that is true on the graph. *)
Theorem conjecture_checks_nothing {A : Arithmetic} :
  (forall limit cmp invariant, conjecture limit [] cmp invariant = Return []) /\
  (forall limit corpus cmp invariant,
      limit < 1 -> is_lt_or_le cmp = false -> is_gt_or_ge cmp = false ->
      conjecture limit corpus cmp invariant = Return []) /\
  (forall f statements g,
      select_for_graph (other_comparator f) statements g =
      (true_statements <- filterM (fun s => statement_evaluate s g) statements ;;
       Return (map Statement_object true_statements))).
Proof.
  repeat split.
  - intros limit cmp invariant. rewrite conjecture_unfold. reflexivity.
  - intros limit corpus cmp invariant Hl Hlt Hgt. rewrite conjecture_unfold.
    rewrite candidate_pool_empty by exact Hl.
    unfold make_statements. simpl.
    rewrite (select_loop_empty_pool cmp corpus Hlt Hgt). reflexivity.
Qed.

Lemma conjecture_checks_nothing_witness :
  conjecture 0 default_graph_db operator_eq INPGraph_alpha = Return [].
Proof.
  apply (proj1 (proj2 (conjecture_checks_nothing (A := ZArith_model)))); auto.
  lia.
Defined.

(** C9, as stated, fails: an empty corpus, a limit of 0 and a comparator
    that is none of the six relations each go through without an error. *)
Lemma invalid_configurations_are_accepted :
  conjecture 1 [] operator_le INPGraph_alpha = Return [] /\
  conjecture 0 [PetersenGraph] operator_eq INPGraph_alpha = Return [] /\
  conjecture 1 [PetersenGraph] (other_comparator (fun _ _ => true)) INPGraph_alpha =
  Return [Statement_object
            (mkGraphStatement 0 (mkGraphExpression [INPGraph_min_degree])
                              (other_comparator (fun _ _ => true))
                              (mkGraphExpression [INPGraph_alpha]))].
Proof.
  repeat split.
Qed.

Lemma statement_evaluate_try_except_witness :
  statement_evaluate
    (mkGraphStatement 0
       (mkGraphExpression
          [INPGraph_alpha; INPGraph_alpha; operator_sub; INPGraph_alpha; operator_truediv])
       operator_le (mkGraphExpression [INPGraph_min_degree]))
    PetersenGraph = Return false.
Proof.
  apply (proj1 (proj2 (statement_evaluate_try_except (A := ZArith_model) _ PetersenGraph))
           ZeroDivisionError).
  - right. reflexivity.
  - left. reflexivity.
Defined.

(** * Further properties of the enumerator *)

Lemma generated_complexity_positive (without : option func) (c : Z) (e : GraphExpression) :
  In e (generated c without) -> 1 <= c.
Proof.
  intros H. destruct (Z_lt_le_dec c 1) as [Hc | Hc]; [|exact Hc].
  rewrite generated_below_1 in H by exact Hc. destruct H.
Qed.

Lemma stack_eqb_eq (a b : list func) : stack_eqb a b = true <-> a = b.
Proof.
  revert b. induction a as [|x a IH]; intros [|y b]; simpl; split; intros H;
    try reflexivity; try discriminate.
  - apply andb_true_iff in H as [H1 H2]. apply IH in H2. subst b.
    unfold func_eqb in H1. destruct (func_eq_dec x y); [subst; reflexivity | discriminate].
  - inversion H; subst. apply andb_true_iff. split; [|apply IH; reflexivity].
    unfold func_eqb. destruct (func_eq_dec y y); congruence.
Qed.

(** X1: [all_expressions] returns no expression twice. *)
Theorem all_expressions_no_duplicates
  (c : Z) (without : option func) (l : list GraphExpression) :
  all_expressions c without = Expressions l -> NoDup l.
Proof.
  intros H. apply all_expressions_elements in H. subst l. apply generated_NoDup.
Qed.

Lemma all_expressions_no_duplicates_witness : NoDup (generated 4 None).
Proof.
  apply (all_expressions_no_duplicates 4 None). reflexivity.
Defined.

(** X2: the expressions of complexity [c] with a unary operator at the root
    are exactly the unary operators applied to the expressions of complexity
    [c - 1]. *)
Theorem unary_extension_iff
  (c : Z) (without : option func) (s : GraphExpression) (op : func) :
  In op _unary_operators ->
  (In (append s op) (generated c without) <-> In s (generated (c - 1) without)).
Proof.
  intros Hop. split.
  - intros H. apply generated_cases in H
      as [[_ [f [Hf [_ E]]]]
         | [[_ [s' [op' [Hs' [_ E]]]]]
           | [_ [i [a [b [op' [_ [_ [_ [Hop' E]]]]]]]]]]].
    + exfalso. unfold append in E. inversion E as [E'].
      destruct (_stack s) as [|x [|y st]]; simpl in E'; try discriminate.
      inversion E'; subst f.
      destruct Hop as [<- | [<- | []]]; destruct Hf as [E1 | [E1 | []]]; discriminate.
    + apply append_inj in E as [-> _]. exact Hs'.
    + exfalso. apply append_inj in E as [_ ->].
      destruct Hop' as [Hop' | Hop'].
      * apply (proj1 (proj2 (registries_disjoint op')) Hop Hop').
      * apply (proj1 (registries_disjoint op') Hop Hop').
  - intros H. pose proof (generated_complexity_positive _ _ _ H) as Hc.
    rewrite generated_unfold by lia. unfold combine_expressions.
    apply in_or_app. left. apply in_unary_extensions. eauto.
Qed.

Lemma unary_extension_iff_witness :
  In (append (mkGraphExpression [INPGraph_alpha; increment]) math_sqrt) (generated 3 None)
  <-> In (mkGraphExpression [INPGraph_alpha; increment]) (generated (3 - 1) None).
Proof.
  apply (unary_extension_iff 3 None). left. reflexivity.
Defined.

(** X3: for two generated expressions [a] and [b] and a noncommutative
    operator, the combination [a b op] is generated, at the complexity that is
    the sum of theirs plus one, unless [a] and [b] have the same stack and
    the operator is the subtraction or the division; then it is not. *)
Theorem noncommutative_combination_iff
  (without : option func) (i j : Z) (a b : GraphExpression) (op : func) :
  In a (generated i without) -> In b (generated j without) ->
  In op _binary_noncommutative_operators ->
  (In (append (extend a (_stack b)) op) (generated (i + j + 1) without) <->
   ~ (_stack a = _stack b /\ (op = operator_sub \/ op = operator_truediv))).
Proof.
  intros Ha Hb Hop.
  pose proof (generated_complexity_positive _ _ _ Ha) as Hi.
  pose proof (generated_complexity_positive _ _ _ Hb) as Hj.
  assert (stack_eqb (_stack a) (_stack b) && py_in op [operator_sub; operator_truediv] = true
          <-> _stack a = _stack b /\ (op = operator_sub \/ op = operator_truediv)) as Hskip.
  { rewrite andb_true_iff, stack_eqb_eq. split; intros [H1 H2]; split; auto.
    - destruct Hop as [<- | [<- | [<- | []]]]; simpl in H2; auto; discriminate.
    - destruct H2 as [-> | ->]; reflexivity. }
  rewrite generated_unfold by lia. unfold combine_expressions. split.
  - intros H Hsame. apply Hskip in Hsame.
    apply in_app_or in H as [H | H]; [|apply in_app_or in H as [H | H]].
    + apply in_unary_extensions in H as [s [op' [_ [Hop' E]]]].
      apply append_inj in E as [_ ->].
      apply (proj1 (registries_disjoint op') Hop' Hop).
    + apply in_noncommutative_combinations in H
        as [i' [a' [b' [op' [_ [Ha' [Hb' [_ [Hskip' E]]]]]]]]].
      apply combination_inj in E as [-> [-> ->]];
        try (eapply generated_postfix_program; eassumption).
      congruence.
    + apply in_commutative_combinations in H
        as [k [a' [b' [op' [_ [_ [Hop' [E _]]]]]]]].
      apply append_inj in E as [_ ->].
      apply (proj2 (proj2 (registries_disjoint op')) Hop Hop').
  - intros Hdiff. apply in_or_app. right. apply in_or_app. left.
    apply in_noncommutative_combinations. exists i, a, b, op.
    replace (i + j + 1 - 1 - i) with j by lia.
    repeat split; auto; try lia.
    destruct (stack_eqb (_stack a) (_stack b) && py_in op [operator_sub; operator_truediv])
      eqn:E; [|reflexivity].
    exfalso. apply Hdiff. apply Hskip. reflexivity.
Qed.

Lemma noncommutative_combination_iff_witness :
  In (append (extend (mkGraphExpression [INPGraph_alpha]) [INPGraph_alpha]) operator_sub)
     (generated (1 + 1 + 1) None)
  <-> ~ ([INPGraph_alpha] = [INPGraph_alpha] /\
         (operator_sub = operator_sub \/ operator_sub = operator_truediv)).
Proof.
  apply (noncommutative_combination_iff None 1 1
           (mkGraphExpression [INPGraph_alpha]) (mkGraphExpression [INPGraph_alpha])
           operator_sub).
  - left. reflexivity.
  - left. reflexivity.
  - left. reflexivity.
Defined.

(** X4: for two generated expressions and a commutative operator, the
    combination is generated in at least one of the two orders. *)
Theorem commutative_combination_generated
  (without : option func) (i j : Z) (a b : GraphExpression) (op : func) :
  In a (generated i without) -> In b (generated j without) ->
  In op _binary_commutative_operators ->
  In (append (extend a (_stack b)) op) (generated (i + j + 1) without) \/
  In (append (extend b (_stack a)) op) (generated (i + j + 1) without).
Proof.
  intros Ha Hb Hop.
  pose proof (generated_complexity_positive _ _ _ Ha) as Hi.
  pose proof (generated_complexity_positive _ _ _ Hb) as Hj.
  rewrite generated_unfold by lia. unfold combine_expressions.
  destruct (Z.lt_trichotomy i j) as [Hlt | [Heq | Hgt]].
  - left. apply in_or_app. right. apply in_or_app. right.
    apply in_commutative_combinations. exists i, a, b, op.
    repeat split; auto; try lia. right.
    replace (i + j + 1 - 1 - i) with j by lia. repeat split; auto. lia.
  - subst j.
    destruct (In_nth_error _ _ Ha) as [p Hp]. destruct (In_nth_error _ _ Hb) as [q Hq].
    destruct (Nat.le_ge_cases p q) as [Hpq | Hqp].
    + left. apply in_or_app. right. apply in_or_app. right.
      apply in_commutative_combinations. exists i, a, b, op.
      repeat split; auto; try lia. left. split; [lia|]. exists p, q. auto.
    + right. apply in_or_app. right. apply in_or_app. right.
      apply in_commutative_combinations. exists i, b, a, op.
      repeat split; auto; try lia. left. split; [lia|]. exists q, p. auto.
  - right. apply in_or_app. right. apply in_or_app. right.
    apply in_commutative_combinations. exists j, b, a, op.
    repeat split; auto; try lia. right.
    replace (i + j + 1 - 1 - j) with i by lia. repeat split; auto. lia.
Qed.

Lemma commutative_combination_generated_witness :
  In (append (extend (mkGraphExpression [INPGraph_min_degree; increment]) [INPGraph_alpha])
             operator_mul) (generated (2 + 1 + 1) None) \/
  In (append (extend (mkGraphExpression [INPGraph_alpha]) [INPGraph_min_degree; increment])
             operator_mul) (generated (2 + 1 + 1) None).
Proof.
  apply (commutative_combination_generated None 2 1
           (mkGraphExpression [INPGraph_min_degree; increment])
           (mkGraphExpression [INPGraph_alpha]) operator_mul).
  - vm_compute. tauto.
  - left. reflexivity.
  - right. left. reflexivity.
Defined.

(** * Further properties of the evaluation *)

Section UnregisteredFunctions.
Context {A : Arithmetic}.

Lemma evaluate_step_unregistered (g : graph) (stack : list num) (op : func) :
  is_registered op = false -> evaluate_step g stack op = Return stack.
Proof.
  destruct op; intros H; try discriminate H. reflexivity.
Qed.

Lemma evaluate_loop_filter_registered (g : graph) (ops : list func) :
  forall stack,
    evaluate_loop g ops stack = evaluate_loop g (filter is_registered ops) stack.
Proof.
  induction ops as [|op ops IH]; intros stack; simpl.
  - reflexivity.
  - destruct (is_registered op) eqn:E; simpl.
    + destruct (evaluate_step g stack op); simpl; auto.
    + rewrite (evaluate_step_unregistered g stack op E). simpl. apply IH.
Qed.

Lemma filter_none_registered (ops : list func) :
  (forall op, In op ops -> is_registered op = false) -> filter is_registered ops = [].
Proof.
  induction ops as [|op ops IH]; intros H; simpl.
  - reflexivity.
  - rewrite (H op (or_introl eq_refl)). apply IH. intros op' Hop'. apply H. right. exact Hop'.
Qed.

Lemma evaluate_unregistered_leaf (g : graph) (f : func) :
  is_registered f = false -> evaluate (mkGraphExpression [f]) g = Raise IndexError.
Proof.
  intros H. unfold evaluate. simpl.
  rewrite (evaluate_step_unregistered g [] f H). reflexivity.
Qed.
End UnregisteredFunctions.

(** X5: [evaluate] passes over every function that is in none of the four
    registries (such as [decrement] or [reciprocal]): the result is that of
    the stack without them.  An expression made of such functions only leaves
    the evaluation stack empty, and the final pop raises [IndexError]. *)
Theorem evaluate_ignores_unregistered_functions
  {A : Arithmetic} (e : GraphExpression) (g : graph) :
  evaluate e g = evaluate (mkGraphExpression (filter is_registered (_stack e))) g /\
  ((forall op, In op (_stack e) -> is_registered op = false) ->
   evaluate e g = Raise IndexError).
Proof.
  split.
  - unfold evaluate. simpl. rewrite evaluate_loop_filter_registered. reflexivity.
  - intros H. unfold evaluate.
    rewrite evaluate_loop_filter_registered, (filter_none_registered _ H). reflexivity.
Qed.

Lemma evaluate_ignores_unregistered_functions_witness :
  evaluate (mkGraphExpression [decrement; reciprocal])
           PetersenGraph = Raise IndexError.
Proof.
  apply (proj2 (evaluate_ignores_unregistered_functions (A := ZArith_model)
                  (mkGraphExpression [decrement; reciprocal]) PetersenGraph)).
  intros op [<- | [<- | []]]; reflexivity.
Defined.

Section StatementsOnGeneratedSides.
Context {A : Arithmetic}.

Lemma statement_evaluate_well_formed (s : GraphStatement) (g : graph) :
  well_formed (_stack (lhs s)) -> well_formed (_stack (rhs s)) ->
  (exists b, statement_evaluate s g = Return b) \/
  statement_evaluate s g = Raise (Err OverflowError).
Proof.
  intros Hl Hr. unfold statement_evaluate.
  destruct (evaluate_well_formed g (lhs s) Hl) as [[x [_ Ex]] | [ne Ex]]; rewrite Ex; simpl.
  - destruct (evaluate_well_formed g (rhs s) Hr) as [[y [_ Ey]] | [ne Ey]]; rewrite Ey; simpl.
    + left. eauto.
    + destruct ne; simpl; eauto.
  - destruct ne; simpl; eauto.
Qed.
End StatementsOnGeneratedSides.

Lemma statement_evaluate_empty_lhs
  {A : Arithmetic} (s : GraphStatement) (g : graph) :
  lhs s = mkGraphExpression [] -> statement_evaluate s g = Raise IndexError.
Proof. intros H. unfold statement_evaluate. rewrite H. reflexivity. Qed.

Lemma statement_evaluate_empty_rhs
  {A : Arithmetic} (s : GraphStatement) (g : graph) (v : num) :
  rhs s = mkGraphExpression [] -> evaluate (lhs s) g = Return v ->
  statement_evaluate s g = Raise IndexError.
Proof. intros H Hv. unfold statement_evaluate. rewrite Hv, H. reflexivity. Qed.

(** X6: a statement between two expressions that [all_expressions] returned
    in its lists (complexities from 1 on) evaluates, on every graph, to a
    boolean; the only way out is an exception of a numeric callable that is
    neither a [ValueError] nor a [ZeroDivisionError].  In particular it never
    raises [IndexError].  With the empty expression that [all_expressions]
    returns below complexity 1 on the left, the statement raises [IndexError]
    on every graph; with it on the right, the statement raises [IndexError]
    whenever the left side has a value. *)
Theorem statement_on_generated_expressions
  {A : Arithmetic} (c c' : Z) (w w' : option func) (s : GraphStatement) (g : graph) :
  In (lhs s) (produced (all_expressions c w)) ->
  In (rhs s) (produced (all_expressions c' w')) ->
  (1 <= c -> 1 <= c' ->
   (exists b, statement_evaluate s g = Return b) \/
   statement_evaluate s g = Raise (Err OverflowError)) /\
  (c < 1 -> statement_evaluate s g = Raise IndexError) /\
  (1 <= c -> c' < 1 ->
   forall v, evaluate (lhs s) g = Return v -> statement_evaluate s g = Raise IndexError).
Proof.
  intros Hl Hr. split; [|split].
  - intros Hc Hc'. apply statement_evaluate_well_formed.
    + apply (generated_postfix_program w c). apply produced_from_1; assumption.
    + apply (generated_postfix_program w' c'). apply produced_from_1; assumption.
  - intros Hc. apply statement_evaluate_empty_lhs.
    apply (produced_below_1 c w); assumption.
  - intros _ Hc' v Hv. apply (statement_evaluate_empty_rhs s g v); [|exact Hv].
    apply (produced_below_1 c' w'); assumption.
Qed.

Lemma statement_on_generated_expressions_witness :
  ((exists b,
       statement_evaluate
         (mkGraphStatement 0
            (mkGraphExpression [INPGraph_min_degree; INPGraph_min_degree; operator_pow])
            operator_le (mkGraphExpression [INPGraph_alpha]))
         PetersenGraph = Return b) \/
   statement_evaluate
     (mkGraphStatement 0
        (mkGraphExpression [INPGraph_min_degree; INPGraph_min_degree; operator_pow])
        operator_le (mkGraphExpression [INPGraph_alpha]))
     PetersenGraph = Raise (Err OverflowError)) /\
  statement_evaluate
    (mkGraphStatement 0 (mkGraphExpression []) operator_le
                      (mkGraphExpression [INPGraph_alpha]))
    PetersenGraph = Raise IndexError.
Proof.
  split.
  - apply (statement_on_generated_expressions (A := ZArith_model)
             3 1 (Some INPGraph_alpha) None); try lia.
    + vm_compute. tauto.
    + vm_compute. tauto.
  - apply (statement_on_generated_expressions (A := ZArith_model)
             0 1 (Some INPGraph_alpha) None); try lia.
    + vm_compute. tauto.
    + vm_compute. tauto.
Defined.

(** * Further properties of the selection *)

Section SelectionCharacterisation.
Context {A : Arithmetic}.

Lemma filterM_iff {X : Type} (p : X -> outcome bool) (l l' : list X) :
  filterM p l = Return l' ->
  forall x, In x l' <-> In x l /\ p x = Return true.
Proof.
  intros H x. split; [apply (filterM_In p l l' H)|].
  revert l' H. induction l as [|a l IH]; intros l' H [Hin Hp]; simpl in *.
  - destruct Hin.
  - destruct (p a) as [b|] eqn:Ea; simpl in H; [|discriminate].
    destruct (filterM p l) as [kept|]; simpl in H; [|discriminate].
    inversion H; subst l'. destruct Hin as [-> | Hin].
    + rewrite Hp in Ea. inversion Ea; subst b. left. reflexivity.
    + specialize (IH kept eq_refl (conj Hin Hp)). destruct b; [right|]; exact IH.
Qed.

Lemma mapM_iff {X Y : Type} (f : X -> outcome Y) (l : list X) (l' : list Y) :
  mapM f l = Return l' ->
  forall y, In y l' <-> exists x, In x l /\ f x = Return y.
Proof.
  intros H y. split; [apply (mapM_In f l l' H)|].
  revert l' H. induction l as [|a l IH]; intros l' H [x [Hin Hx]]; simpl in *.
  - destruct Hin.
  - destruct (f a) as [b|] eqn:Ea; simpl in H; [|discriminate].
    destruct (mapM f l) as [ys|]; simpl in H; [|discriminate].
    inversion H; subst l'. destruct Hin as [-> | Hin].
    + rewrite Hx in Ea. inversion Ea. left. reflexivity.
    + right. apply (IH ys eq_refl). eauto.
Qed.

Lemma mapM_returns {X Y : Type} (f : X -> outcome Y) (l : list X) :
  (forall x, In x l -> exists y, f x = Return y) -> exists l', mapM f l = Return l'.
Proof.
  induction l as [|a l IH]; intros H; simpl.
  - eauto.
  - destruct (H a (or_introl eq_refl)) as [y ->]. simpl.
    destruct IH as [ys ->]; [intros x Hx; apply H; right; exact Hx|]. simpl. eauto.
Qed.

Lemma filterM_returns {X : Type} (p : X -> outcome bool) (l : list X) :
  (forall x, In x l -> exists b, p x = Return b) -> exists l', filterM p l = Return l'.
Proof.
  induction l as [|a l IH]; intros H; simpl.
  - eauto.
  - destruct (H a (or_introl eq_refl)) as [b ->]. simpl.
    destruct IH as [kept ->]; [intros x Hx; apply H; right; exact Hx|]. simpl. eauto.
Qed.

(** A statement that is true had its left side evaluated. *)
Lemma true_statement_has_value (s : GraphStatement) (g : graph) :
  statement_evaluate s g = Return true -> exists v, evaluate (lhs s) g = Return v.
Proof.
  unfold statement_evaluate. destruct (evaluate (lhs s) g) as [v|e]; [eauto|].
  simpl. destruct e as [[| |]| |]; discriminate.
Qed.

Lemma evaluated_iff (g : graph) (l : list GraphStatement)
      (evaluated : list (num * GraphStatement)) :
  mapM (fun s => v <- evaluate (lhs s) g ;; Return (v, s)) l = Return evaluated ->
  forall v s, In (v, s) evaluated <-> In s l /\ evaluate (lhs s) g = Return v.
Proof.
  intros H v s. rewrite (mapM_iff _ _ _ H). split.
  - intros [s' [Hs' E]].
    destruct (evaluate (lhs s') g) as [v'|] eqn:Ev; simpl in E; inversion E.
    subst. auto.
  - intros [Hs E]. exists s. rewrite E. auto.
Qed.

(** [max] and [min] by key, when [<] on the keys is irreflexive and
    transitive. *)
Section Extremes.
Hypothesis lt_irrefl : forall x, num_lt x x = false.
Hypothesis lt_trans :
  forall x y z, num_lt x y = true -> num_lt y z = true -> num_lt x z = true.

Lemma max_from_spec (rest : list (num * GraphStatement)) :
  forall best,
    In (max_from best rest) (best :: rest) /\
    (max_from best rest = best \/ num_lt (fst best) (fst (max_from best rest)) = true) /\
    forall item, In item (best :: rest) ->
                 num_lt (fst (max_from best rest)) (fst item) = false.
Proof.
  induction rest as [|x rest IH]; intros best; simpl.
  - repeat split; auto. intros item [<- | []]. apply lt_irrefl.
  - destruct (num_lt (fst best) (fst x)) eqn:E.
    + destruct (IH x) as [Hin [Hup Hmax]]. split; [destruct Hin; auto|]. split.
      * right. destruct Hup as [-> | Hup]; [exact E | apply (lt_trans _ _ _ E Hup)].
      * intros item [<- | Hitem]; [|apply Hmax; exact Hitem].
        destruct (num_lt (fst (max_from x rest)) (fst best)) eqn:E'; [|reflexivity].
        pose proof (lt_trans _ _ _ E' E) as Hc.
        rewrite (Hmax x (or_introl eq_refl)) in Hc. discriminate.
    + destruct (IH best) as [Hin [Hup Hmax]]. split; [destruct Hin; auto|].
      split; [exact Hup|].
      intros item [<- | [<- | Hitem]].
      * apply Hmax. left. reflexivity.
      * destruct (num_lt (fst (max_from best rest)) (fst x)) eqn:E'; [|reflexivity].
        destruct Hup as [Hb | Hup].
        -- rewrite Hb in E'. congruence.
        -- pose proof (lt_trans _ _ _ Hup E') as Hc. congruence.
      * apply Hmax. right. exact Hitem.
Qed.

Lemma min_from_spec (rest : list (num * GraphStatement)) :
  forall best,
    In (min_from best rest) (best :: rest) /\
    (min_from best rest = best \/ num_lt (fst (min_from best rest)) (fst best) = true) /\
    forall item, In item (best :: rest) ->
                 num_lt (fst item) (fst (min_from best rest)) = false.
Proof.
  induction rest as [|x rest IH]; intros best; simpl.
  - repeat split; auto. intros item [<- | []]. apply lt_irrefl.
  - destruct (num_lt (fst x) (fst best)) eqn:E.
    + destruct (IH x) as [Hin [Hup Hmin]]. split; [destruct Hin; auto|]. split.
      * right. destruct Hup as [-> | Hup]; [exact E | apply (lt_trans _ _ _ Hup E)].
      * intros item [<- | Hitem]; [|apply Hmin; exact Hitem].
        destruct (num_lt (fst best) (fst (min_from x rest))) eqn:E'; [|reflexivity].
        pose proof (lt_trans _ _ _ E E') as Hc.
        rewrite (Hmin x (or_introl eq_refl)) in Hc. discriminate.
    + destruct (IH best) as [Hin [Hup Hmin]]. split; [destruct Hin; auto|].
      split; [exact Hup|].
      intros item [<- | [<- | Hitem]].
      * apply Hmin. left. reflexivity.
      * destruct (num_lt (fst x) (fst (min_from best rest))) eqn:E'; [|reflexivity].
        destruct Hup as [Hb | Hup].
        -- rewrite Hb in E'. congruence.
        -- pose proof (lt_trans _ _ _ E' Hup) as Hc. congruence.
      * apply Hmin. right. exact Hitem.
Qed.
Lemma py_max_spec (l : list (num * GraphStatement)) (m : num * GraphStatement) :
  py_max l = Return m ->
  In m l /\ forall item, In item l -> num_lt (fst m) (fst item) = false.
Proof.
  destruct l as [|item rest]; simpl; [discriminate|].
  intros H; inversion H; subst m.
  destruct (max_from_spec rest item) as [Hin [_ Hmax]]. auto.
Qed.

Lemma py_min_spec (l : list (num * GraphStatement)) (m : num * GraphStatement) :
  py_min l = Return m ->
  In m l /\ forall item, In item l -> num_lt (fst item) (fst m) = false.
Proof.
  destruct l as [|item rest]; simpl; [discriminate|].
  intros H; inversion H; subst m.
  destruct (min_from_spec rest item) as [Hin [_ Hmin]]. auto.
Qed.
End Extremes.
End SelectionCharacterisation.

Section SelectionLoop.
Context {A : Arithmetic}.

(** The list that the loop over the corpus builds: what was there, and what
    each graph contributed. *)
Lemma select_loop_iff (cmp : Comparator) (statements : list GraphStatement)
      (graphs : list graph) :
  forall (conjectures result : list pyobject),
    select_loop cmp statements graphs conjectures = Return result ->
    forall x, In x result <->
              In x conjectures \/
              exists g selected,
                In g graphs /\ select_for_graph cmp statements g = Return selected /\
                In x selected.
Proof.
  induction graphs as [|g graphs IH]; intros conjectures result; simpl.
  - intros H; inversion H; subst. intros x. split; [auto|].
    intros [Hx | [g [sel [[] _]]]]. exact Hx.
  - destruct (select_for_graph cmp statements g) as [selected|] eqn:Es; simpl;
      [|discriminate].
    intros H x. rewrite (IH _ _ H x). rewrite in_app_iff. split.
    + intros [[Hx | Hx] | [g' [sel [Hg' [Hs Hx]]]]].
      * auto.
      * right. exists g, selected. auto.
      * right. exists g', sel. auto.
    + intros [Hx | [g' [sel [[<- | Hg'] [Hs Hx]]]]].
      * auto.
      * left. right. congruence.
      * right. exists g', sel. auto.
Qed.

Lemma py_set_fold_complete (l : list pyobject) :
  forall seen : list pyobject,
    let result :=
      fold_left (fun seen x => if existsb (pyobject_eqb x) seen then seen else seen ++ [x])
                l seen in
    (forall x, In x seen -> In x result) /\
    (forall x, In x l -> In x result \/ exists y, In y result /\ pyobject_eqb x y = true).
Proof.
  induction l as [|a l IH]; intros seen; simpl.
  - split; [auto | intros x []].
  - destruct (existsb (pyobject_eqb a) seen) eqn:E.
    + destruct (IH seen) as [H1 H2]. split; [exact H1|].
      intros x [<- | Hx]; [|apply H2; exact Hx].
      apply existsb_exists in E as [y [Hy Ey]]. right. exists y. auto.
    + destruct (IH (seen ++ [a])) as [H1 H2]. split.
      * intros x Hx. apply H1. apply in_or_app. left. exact Hx.
      * intros x [<- | Hx]; [|apply H2; exact Hx].
        left. apply H1. apply in_or_app. right. left. reflexivity.
Qed.

Lemma py_set_complete (l : list pyobject) (x : pyobject) :
  In x l -> In x (py_set l) \/ exists y, In y (py_set l) /\ pyobject_eqb x y = true.
Proof. intros H. apply (proj2 (py_set_fold_complete l [])). exact H. Qed.

Lemma select_for_graph_others (cmp : Comparator) (statements : list GraphStatement)
      (g : graph) (selected : list pyobject) :
  is_lt_or_le cmp = false -> is_gt_or_ge cmp = false ->
  select_for_graph cmp statements g = Return selected ->
  forall x, In x selected <->
            exists s, x = Statement_object s /\ In s statements /\
                      statement_evaluate s g = Return true.
Proof.
  intros Hlt Hgt. unfold select_for_graph.
  destruct (filterM (fun s => statement_evaluate s g) statements)
    as [true_statements|] eqn:Ef; simpl; [|discriminate].
  rewrite Hlt, Hgt. intros H; inversion H; subst selected. intros x.
  rewrite in_map_iff. split.
  - intros [s [<- Hs]]. apply (filterM_iff _ _ _ Ef) in Hs. exists s. tauto.
  - intros [s [-> Hs]]. exists s. split; [reflexivity|].
    apply (filterM_iff _ _ _ Ef). exact Hs.
Qed.
End SelectionLoop.

(** X7: with [=], [!=] or a comparator that is none of [<], [<=], [>], [>=],
    the list that [conjecture] returns holds exactly the candidate
    statements that are true on at least one graph of the corpus. *)
Theorem conjecture_keeps_every_true_statement
  {A : Arithmetic} (limit : Z) (corpus : list graph) (cmp : Comparator)
  (invariant : func) (result : list pyobject) :
  is_lt_or_le cmp = false -> is_gt_or_ge cmp = false ->
  conjecture limit corpus cmp invariant = Return result ->
  forall x,
    In x result <->
    exists s,
      x = Statement_object s /\
      In s (make_statements cmp (mkGraphExpression [invariant])
                            (candidate_pool limit invariant)) /\
      exists g, In g corpus /\ statement_evaluate s g = Return true.
Proof.
  intros Hlt Hgt H x. rewrite conjecture_unfold in H.
  destruct (select_loop cmp _ corpus []) as [conjectures|] eqn:E; simpl in H;
    [|discriminate].
  inversion H; subst result. clear H.
  assert (forall y, In y conjectures <->
                    exists s,
                      y = Statement_object s /\
                      In s (make_statements cmp (mkGraphExpression [invariant])
                                            (candidate_pool limit invariant)) /\
                      exists g, In g corpus /\ statement_evaluate s g = Return true)
    as Hconj.
  { intros y. rewrite (select_loop_iff _ _ _ _ _ E y). split.
    - intros [[] | [g [sel [Hg [Hs Hy]]]]].
      apply (select_for_graph_others _ _ _ _ Hlt Hgt Hs) in Hy as [s [-> [Hin Ht]]].
      exists s. eauto.
    - intros [s [-> [Hin [g [Hg Ht]]]]]. right.
      destruct (select_loop_iff _ _ _ _ _ E (Statement_object s)) as [_ Hback].
      assert (exists sel, select_for_graph cmp
                            (make_statements cmp (mkGraphExpression [invariant])
                                             (candidate_pool limit invariant)) g
                          = Return sel) as [sel Hsel].
      { clear - E Hg. revert E. generalize (@nil pyobject).
        induction corpus as [|g' corpus IH]; intros acc E; [destruct Hg|].
        simpl in E.
        destruct (select_for_graph cmp _ g') as [sel|] eqn:Es; simpl in E; [|discriminate].
        destruct Hg as [-> | Hg]; [eauto | apply (IH Hg _ E)]. }
      exists g, sel. repeat split; auto.
      apply (select_for_graph_others _ _ _ _ Hlt Hgt Hsel). eauto. }
  split.
  - intros Hx. apply py_set_In in Hx. apply Hconj. exact Hx.
  - intros Hx. pose proof (proj2 (Hconj x) Hx) as Hin.
    destruct (py_set_complete _ _ Hin) as [Hdone | [y [Hy Heq]]]; [exact Hdone|].
    destruct Hx as [s [-> [Hs _]]].
    pose proof (py_set_In _ _ Hy) as Hy'. apply Hconj in Hy' as [t [-> [Ht _]]].
    simpl in Heq. unfold statement_eqb in Heq. apply Nat.eqb_eq in Heq.
    rewrite (make_statements_oid _ _ _ s t Hs Ht Heq). exact Hy.
Qed.

Lemma conjecture_keeps_every_true_statement_witness :
  In (Statement_object
        (mkGraphStatement 0 (mkGraphExpression [INPGraph_min_degree]) operator_eq
                          (mkGraphExpression [INPGraph_alpha])))
     [Statement_object
        (mkGraphStatement 0 (mkGraphExpression [INPGraph_min_degree]) operator_eq
                          (mkGraphExpression [INPGraph_alpha]))]
  <->
  exists s,
    Statement_object
      (mkGraphStatement 0 (mkGraphExpression [INPGraph_min_degree]) operator_eq
                        (mkGraphExpression [INPGraph_alpha]))
    = Statement_object s /\
    In s (make_statements operator_eq (mkGraphExpression [INPGraph_alpha])
                          (candidate_pool 1 INPGraph_alpha)) /\
    exists g, In g default_graph_db /\ statement_evaluate s g = Return true.
Proof.
  apply (conjecture_keeps_every_true_statement (A := ZArith_model)
           1 default_graph_db operator_eq INPGraph_alpha _ eq_refl eq_refl eq_refl).
Defined.

Section Tightness.
Context {A : Arithmetic}.
Hypothesis lt_irrefl : forall x, num_lt x x = false.
Hypothesis lt_trans :
  forall x y z, num_lt x y = true -> num_lt y z = true -> num_lt x z = true.

(** The [<], [<=] branch on one graph: [best] is the value of a true
    statement, no true statement has a greater value, and the statements
    selected are the true ones whose value equals [best]. *)
Lemma select_for_graph_maximum (cmp : Comparator) (statements : list GraphStatement)
      (g : graph) (selected : list pyobject) :
  is_lt_or_le cmp = true ->
  select_for_graph cmp statements g = Return selected ->
  exists best,
    (exists t, In t statements /\ statement_evaluate t g = Return true /\
               evaluate (lhs t) g = Return best) /\
    (forall t w, In t statements -> statement_evaluate t g = Return true ->
                 evaluate (lhs t) g = Return w -> num_lt best w = false) /\
    (forall x, In x selected <->
               exists s v, x = Statement_object s /\ In s statements /\
                           statement_evaluate s g = Return true /\
                           evaluate (lhs s) g = Return v /\ num_eq v best = true).
Proof.
  intros Hcmp. unfold select_for_graph.
  destruct (filterM (fun s => statement_evaluate s g) statements)
    as [true_statements|] eqn:Ef; simpl; [|discriminate].
  rewrite Hcmp.
  destruct (mapM _ true_statements) as [evaluated|] eqn:Em; simpl; [|discriminate].
  pose proof (evaluated_iff g _ _ Em) as Hev.
  pose proof (filterM_iff _ _ _ Ef) as Htrue.
  destruct (py_max evaluated) as [m|] eqn:Emax; simpl; [|discriminate].
  intros H; inversion H; subst selected. clear H.
  destruct (py_max_spec lt_irrefl lt_trans _ _ Emax) as [Hin Hmax].
  exists (fst m). split; [|split].
  - exists (snd m). destruct m as [v t]. simpl.
    apply Hev in Hin as [Ht Hv]. apply Htrue in Ht. tauto.
  - intros t w Ht Htt Hw. apply (Hmax (w, t)). apply Hev. split; [|exact Hw].
    apply Htrue. auto.
  - intros x. rewrite in_map_iff. split.
    + intros [[v s] [<- Hp]]. apply filter_In in Hp as [Hp Heq]. simpl in *.
      apply Hev in Hp as [Hs Hv]. apply Htrue in Hs. exists s, v. tauto.
    + intros [s [v [-> [Hs [Ht [Hv Heq]]]]]]. exists (v, s). split; [reflexivity|].
      apply filter_In. split; [|exact Heq]. apply Hev. split; [|exact Hv].
      apply Htrue. auto.
Qed.

(** The [>], [>=] branch on one graph, with the least value; what is selected
    are (value, statement) tuples. *)
Lemma select_for_graph_minimum (cmp : Comparator) (statements : list GraphStatement)
      (g : graph) (selected : list pyobject) :
  is_gt_or_ge cmp = true ->
  select_for_graph cmp statements g = Return selected ->
  exists best,
    (exists t, In t statements /\ statement_evaluate t g = Return true /\
               evaluate (lhs t) g = Return best) /\
    (forall t w, In t statements -> statement_evaluate t g = Return true ->
                 evaluate (lhs t) g = Return w -> num_lt w best = false) /\
    (forall x, In x selected <->
               exists s v, x = Tuple_object v s /\ In s statements /\
                           statement_evaluate s g = Return true /\
                           evaluate (lhs s) g = Return v /\ num_eq v best = true).
Proof.
  intros Hcmp. unfold select_for_graph.
  destruct (filterM (fun s => statement_evaluate s g) statements)
    as [true_statements|] eqn:Ef; simpl; [|discriminate].
  assert (is_lt_or_le cmp = false) as -> by (destruct cmp; simpl in *; congruence).
  rewrite Hcmp.
  destruct (mapM _ true_statements) as [evaluated|] eqn:Em; simpl; [|discriminate].
  pose proof (evaluated_iff g _ _ Em) as Hev.
  pose proof (filterM_iff _ _ _ Ef) as Htrue.
  destruct (py_min evaluated) as [m|] eqn:Emin; simpl; [|discriminate].
  intros H; inversion H; subst selected. clear H.
  destruct (py_min_spec lt_irrefl lt_trans _ _ Emin) as [Hin Hmin].
  exists (fst m). split; [|split].
  - exists (snd m). destruct m as [v t]. simpl.
    apply Hev in Hin as [Ht Hv]. apply Htrue in Ht. tauto.
  - intros t w Ht Htt Hw. apply (Hmin (w, t)). apply Hev. split; [|exact Hw].
    apply Htrue. auto.
  - intros x. rewrite in_map_iff. split.
    + intros [[v s] [<- Hp]]. apply filter_In in Hp as [Hp Heq]. simpl in *.
      apply Hev in Hp as [Hs Hv]. apply Htrue in Hs. exists s, v. tauto.
    + intros [s [v [-> [Hs [Ht [Hv Heq]]]]]]. exists (v, s). split; [reflexivity|].
      apply filter_In. split; [|exact Heq]. apply Hev. split; [|exact Hv].
      apply Htrue. auto.
Qed.
End Tightness.

(** X8: under [<] or [<=], when the comparison of numbers is irreflexive and
    transitive, every element of the list that [conjecture] returns is a
    candidate statement that, on some graph of the corpus, is true and has a
    left-hand value equal to [best]: the left-hand value of a true statement
    that no true statement on that graph exceeds. *)
Theorem conjecture_lt_selects_the_greatest
  {A : Arithmetic} (limit : Z) (corpus : list graph) (cmp : Comparator)
  (invariant : func) (result : list pyobject) :
  (forall x, num_lt x x = false) ->
  (forall x y z, num_lt x y = true -> num_lt y z = true -> num_lt x z = true) ->
  is_lt_or_le cmp = true ->
  conjecture limit corpus cmp invariant = Return result ->
  forall x, In x result ->
    exists s g v best,
      x = Statement_object s /\ In g corpus /\
      In s (make_statements cmp (mkGraphExpression [invariant])
                            (candidate_pool limit invariant)) /\
      statement_evaluate s g = Return true /\
      evaluate (lhs s) g = Return v /\ num_eq v best = true /\
      (exists t,
          In t (make_statements cmp (mkGraphExpression [invariant])
                                (candidate_pool limit invariant)) /\
          statement_evaluate t g = Return true /\ evaluate (lhs t) g = Return best) /\
      (forall t w,
          In t (make_statements cmp (mkGraphExpression [invariant])
                                (candidate_pool limit invariant)) ->
          statement_evaluate t g = Return true -> evaluate (lhs t) g = Return w ->
          num_lt best w = false).
Proof.
  intros Hirr Htr Hcmp H x Hx. rewrite conjecture_unfold in H.
  destruct (select_loop cmp _ corpus []) as [conjectures|] eqn:E; simpl in H;
    [|discriminate].
  inversion H; subst result. apply py_set_In in Hx.
  apply (select_loop_iff _ _ _ _ _ E) in Hx as [[] | [g [sel [Hg [Hs Hx]]]]].
  destruct (select_for_graph_maximum Hirr Htr _ _ _ _ Hcmp Hs)
    as [best [Hbest [Hmax Hsel]]].
  destruct (proj1 (Hsel x) Hx) as [s [v [Ex [Hin [Ht [Hv Heq]]]]]].
  exists s, g, v, best. repeat split; auto.
Qed.

(** The run on the claw (alpha 3, delta 1) with [<] and complexities up to
    2: the candidates delta, sqrt(delta) and delta + 1 have the values 1, 1
    and 2 and are all true; the one with the greatest value is returned. *)
Lemma conjecture_lt_selects_the_greatest_witness :
  conjecture 2 [ClawGraph] operator_lt INPGraph_alpha =
  Return [Statement_object
            (mkGraphStatement 2 (mkGraphExpression [INPGraph_min_degree; increment])
                              operator_lt (mkGraphExpression [INPGraph_alpha]))] /\
  length (make_statements operator_lt (mkGraphExpression [INPGraph_alpha])
                          (candidate_pool 2 INPGraph_alpha)) = 3%nat /\
  exists s g v best,
    Statement_object
      (mkGraphStatement 2 (mkGraphExpression [INPGraph_min_degree; increment])
                        operator_lt (mkGraphExpression [INPGraph_alpha]))
    = Statement_object s /\ In g [ClawGraph] /\
    In s (make_statements operator_lt (mkGraphExpression [INPGraph_alpha])
                          (candidate_pool 2 INPGraph_alpha)) /\
    statement_evaluate s g = Return true /\
    evaluate (lhs s) g = Return v /\ num_eq v best = true /\
    (exists t,
        In t (make_statements operator_lt (mkGraphExpression [INPGraph_alpha])
                              (candidate_pool 2 INPGraph_alpha)) /\
        statement_evaluate t g = Return true /\ evaluate (lhs t) g = Return best) /\
    (forall t w,
        In t (make_statements operator_lt (mkGraphExpression [INPGraph_alpha])
                              (candidate_pool 2 INPGraph_alpha)) ->
        statement_evaluate t g = Return true -> evaluate (lhs t) g = Return w ->
        num_lt best w = false).
Proof.
  split; [reflexivity|]. split; [reflexivity|].
  apply (conjecture_lt_selects_the_greatest (A := ZArith_model)
           2 [ClawGraph] operator_lt INPGraph_alpha
           [Statement_object
              (mkGraphStatement 2 (mkGraphExpression [INPGraph_min_degree; increment])
                                operator_lt (mkGraphExpression [INPGraph_alpha]))]).
  - intros x. apply Z.ltb_irrefl.
  - intros x y z Hxy Hyz. simpl in *. apply Z.ltb_lt in Hxy. apply Z.ltb_lt in Hyz.
    apply Z.ltb_lt. lia.
  - reflexivity.
  - reflexivity.
  - left. reflexivity.
Defined.

(** X9: under [>] or [>=], with the same assumptions on the comparison of
    numbers, every element of the returned list is a tuple (v, s) of a
    candidate statement [s] and its left-hand value [v] on some graph of the
    corpus where [s] is true, and [v] equals [best], the left-hand value of
    a true statement below which no true statement on that graph lies. *)
Theorem conjecture_gt_selects_the_least
  {A : Arithmetic} (limit : Z) (corpus : list graph) (cmp : Comparator)
  (invariant : func) (result : list pyobject) :
  (forall x, num_lt x x = false) ->
  (forall x y z, num_lt x y = true -> num_lt y z = true -> num_lt x z = true) ->
  is_gt_or_ge cmp = true ->
  conjecture limit corpus cmp invariant = Return result ->
  forall x, In x result ->
    exists s g v best,
      x = Tuple_object v s /\ In g corpus /\
      In s (make_statements cmp (mkGraphExpression [invariant])
                            (candidate_pool limit invariant)) /\
      statement_evaluate s g = Return true /\
      evaluate (lhs s) g = Return v /\ num_eq v best = true /\
      (exists t,
          In t (make_statements cmp (mkGraphExpression [invariant])
                                (candidate_pool limit invariant)) /\
          statement_evaluate t g = Return true /\ evaluate (lhs t) g = Return best) /\
      (forall t w,
          In t (make_statements cmp (mkGraphExpression [invariant])
                                (candidate_pool limit invariant)) ->
          statement_evaluate t g = Return true -> evaluate (lhs t) g = Return w ->
          num_lt w best = false).
Proof.
  intros Hirr Htr Hcmp H x Hx. rewrite conjecture_unfold in H.
  destruct (select_loop cmp _ corpus []) as [conjectures|] eqn:E; simpl in H;
    [|discriminate].
  inversion H; subst result. apply py_set_In in Hx.
  apply (select_loop_iff _ _ _ _ _ E) in Hx as [[] | [g [sel [Hg [Hs Hx]]]]].
  destruct (select_for_graph_minimum Hirr Htr _ _ _ _ Hcmp Hs)
    as [best [Hbest [Hmin Hsel]]].
  destruct (proj1 (Hsel x) Hx) as [s [v [Ex [Hin [Ht [Hv Heq]]]]]].
  exists s, g, v, best. repeat split; auto.
Qed.

(** The run on the complete graph on five vertices (alpha 1, delta 4) with
    [>] and complexities up to 2: the candidates delta, sqrt(delta) and
    delta + 1 have the values 4, 2 and 5 and are all true; the one with the
    least value is returned, in a tuple with that value. *)
Lemma conjecture_gt_selects_the_least_witness :
  conjecture 2 [CompleteGraph5] operator_gt INPGraph_alpha =
  Return [Tuple_object 2
            (mkGraphStatement 1 (mkGraphExpression [INPGraph_min_degree; math_sqrt])
                              operator_gt (mkGraphExpression [INPGraph_alpha]))] /\
  length (make_statements operator_gt (mkGraphExpression [INPGraph_alpha])
                          (candidate_pool 2 INPGraph_alpha)) = 3%nat /\
  exists s g v best,
    Tuple_object 2
      (mkGraphStatement 1 (mkGraphExpression [INPGraph_min_degree; math_sqrt])
                        operator_gt (mkGraphExpression [INPGraph_alpha]))
    = Tuple_object v s /\ In g [CompleteGraph5] /\
    In s (make_statements operator_gt (mkGraphExpression [INPGraph_alpha])
                          (candidate_pool 2 INPGraph_alpha)) /\
    statement_evaluate s g = Return true /\
    evaluate (lhs s) g = Return v /\ num_eq v best = true /\
    (exists t,
        In t (make_statements operator_gt (mkGraphExpression [INPGraph_alpha])
                              (candidate_pool 2 INPGraph_alpha)) /\
        statement_evaluate t g = Return true /\ evaluate (lhs t) g = Return best) /\
    (forall t w,
        In t (make_statements operator_gt (mkGraphExpression [INPGraph_alpha])
                              (candidate_pool 2 INPGraph_alpha)) ->
        statement_evaluate t g = Return true -> evaluate (lhs t) g = Return w ->
        num_lt w best = false).
Proof.
  split; [reflexivity|]. split; [reflexivity|].
  eapply (conjecture_gt_selects_the_least (A := ZArith_model)
            2 [CompleteGraph5] operator_gt INPGraph_alpha).
  - intros x. apply Z.ltb_irrefl.
  - intros x y z Hxy Hyz. simpl in *. apply Z.ltb_lt in Hxy. apply Z.ltb_lt in Hyz.
    apply Z.ltb_lt. lia.
  - reflexivity.
  - reflexivity.
  - left. reflexivity.
Defined.

(** X10: under [<] or [<=] ties are kept.  On every graph of the corpus
    there is a value [best] that is the left-hand value of a true candidate
    statement and that no true candidate statement exceeds, and each
    candidate statement that is true there and whose left-hand value equals
    [best] is in the returned list. *)
Theorem conjecture_lt_keeps_ties
  {A : Arithmetic} (limit : Z) (corpus : list graph) (cmp : Comparator)
  (invariant : func) (result : list pyobject) (g : graph) :
  (forall x, num_lt x x = false) ->
  (forall x y z, num_lt x y = true -> num_lt y z = true -> num_lt x z = true) ->
  is_lt_or_le cmp = true ->
  conjecture limit corpus cmp invariant = Return result ->
  In g corpus ->
  exists best,
    (exists t,
        In t (make_statements cmp (mkGraphExpression [invariant])
                              (candidate_pool limit invariant)) /\
        statement_evaluate t g = Return true /\ evaluate (lhs t) g = Return best) /\
    (forall t w,
        In t (make_statements cmp (mkGraphExpression [invariant])
                              (candidate_pool limit invariant)) ->
        statement_evaluate t g = Return true -> evaluate (lhs t) g = Return w ->
        num_lt best w = false) /\
    (forall s v,
        In s (make_statements cmp (mkGraphExpression [invariant])
                              (candidate_pool limit invariant)) ->
        statement_evaluate s g = Return true ->
        evaluate (lhs s) g = Return v -> num_eq v best = true ->
        In (Statement_object s) result).
Proof.
  intros Hirr Htr Hcmp H Hg. rewrite conjecture_unfold in H.
  destruct (select_loop cmp _ corpus []) as [conjectures|] eqn:E; simpl in H;
    [|discriminate].
  inversion H; subst result. clear H.
  assert (exists sel, select_for_graph cmp
                        (make_statements cmp (mkGraphExpression [invariant])
                                         (candidate_pool limit invariant)) g
                      = Return sel) as [sel Hsel].
  { clear - E Hg. revert E. generalize (@nil pyobject).
    induction corpus as [|g' corpus IH]; intros acc E; [destruct Hg|].
    simpl in E.
    destruct (select_for_graph cmp _ g') as [sel|] eqn:Es; simpl in E; [|discriminate].
    destruct Hg as [-> | Hg]; [eauto | apply (IH Hg _ E)]. }
  destruct (select_for_graph_maximum Hirr Htr _ _ _ _ Hcmp Hsel)
    as [best [Hbest [Hmax Hiff]]].
  exists best. split; [exact Hbest|]. split; [exact Hmax|].
  intros s v Hs Ht Hv Heq.
  assert (In (Statement_object s) conjectures) as Hin.
  { apply (select_loop_iff _ _ _ _ _ E). right. exists g, sel. repeat split; auto.
    apply Hiff. exists s, v. auto. }
  destruct (py_set_complete _ _ Hin) as [Hdone | [y [Hy Hyeq]]]; [exact Hdone|].
  pose proof (py_set_In _ _ Hy) as Hy'.
  destruct (select_loop_In _ _ _ _ _ E y Hy') as [[] | [Hst _]].
  destruct y as [t | w t]; simpl in Hyeq; [|discriminate].
  simpl in Hst. unfold statement_eqb in Hyeq. apply Nat.eqb_eq in Hyeq.
  rewrite (make_statements_oid _ _ _ s t Hs Hst Hyeq). exact Hy.
Qed.

(** The run on the path on three vertices (alpha 2, delta 1) with [<] and
    complexities up to 2: delta and sqrt(delta) are true with the value 1,
    delta + 1 is false; both tied statements are returned. *)
Lemma conjecture_lt_keeps_ties_witness :
  conjecture 2 [PathGraph3] operator_lt INPGraph_alpha =
  Return [Statement_object
            (mkGraphStatement 0 (mkGraphExpression [INPGraph_min_degree]) operator_lt
                              (mkGraphExpression [INPGraph_alpha]));
          Statement_object
            (mkGraphStatement 1 (mkGraphExpression [INPGraph_min_degree; math_sqrt])
                              operator_lt (mkGraphExpression [INPGraph_alpha]))] /\
  exists result,
    conjecture 2 [PathGraph3] operator_lt INPGraph_alpha = Return result /\
    In (Statement_object
          (mkGraphStatement 0 (mkGraphExpression [INPGraph_min_degree]) operator_lt
                            (mkGraphExpression [INPGraph_alpha]))) result /\
    In (Statement_object
          (mkGraphStatement 1 (mkGraphExpression [INPGraph_min_degree; math_sqrt])
                            operator_lt (mkGraphExpression [INPGraph_alpha]))) result.
Proof.
  split; [reflexivity|].
  destruct (conjecture (A := ZArith_model) 2 [PathGraph3] operator_lt INPGraph_alpha)
    as [result|e] eqn:E;
    [|discriminate E].
  exists result. split; [reflexivity|].
  destruct (conjecture_lt_keeps_ties (A := ZArith_model)
              2 [PathGraph3] operator_lt INPGraph_alpha result PathGraph3)
    as [best [[t [Ht [Htrue Hbest]]] [_ Hties]]].
  - intros x. apply Z.ltb_irrefl.
  - intros x y z Hxy Hyz. simpl in *. apply Z.ltb_lt in Hxy. apply Z.ltb_lt in Hyz.
    apply Z.ltb_lt. lia.
  - reflexivity.
  - exact E.
  - left. reflexivity.
  - assert (best = 1) as ->.
    { destruct Ht as [<- | [<- | [<- | []]]].
      - inversion Hbest. reflexivity.
      - inversion Hbest. reflexivity.
      - discriminate Htrue. }
    split.
    + apply (Hties _ 1); try reflexivity. left. reflexivity.
    + apply (Hties _ 1); try reflexivity. right. left. reflexivity.
Defined.

Section SelectionReturns.
Context {A : Arithmetic}.

Lemma select_for_graph_returns (cmp : Comparator) (statements : list GraphStatement)
      (g : graph) :
  (forall s, In s statements -> exists b, statement_evaluate s g = Return b) ->
  (is_lt_or_le cmp || is_gt_or_ge cmp = true ->
   exists s, In s statements /\ statement_evaluate s g = Return true) ->
  exists selected, select_for_graph cmp statements g = Return selected.
Proof.
  intros Hall Hone. unfold select_for_graph.
  destruct (filterM_returns _ _ Hall) as [true_statements Ef]. rewrite Ef. simpl.
  pose proof (filterM_iff _ _ _ Ef) as Htrue.
  assert (exists evaluated,
             mapM (fun s => v <- evaluate (lhs s) g ;; Return (v, s)) true_statements
             = Return evaluated) as [evaluated Em].
  { apply mapM_returns. intros s Hs. apply Htrue in Hs as [_ Hs].
    destruct (true_statement_has_value s g Hs) as [v ->]. simpl. eauto. }
  assert (is_lt_or_le cmp || is_gt_or_ge cmp = true -> evaluated <> []) as Hne.
  { intros Hd ->. destruct (Hone Hd) as [s [Hs Ht]].
    destruct (true_statement_has_value s g Ht) as [v Hv].
    apply (proj2 (evaluated_iff g _ _ Em v s)). split; [apply Htrue|]; auto. }
  destruct (is_lt_or_le cmp) eqn:Elt.
  - rewrite Em. simpl. destruct evaluated as [|item rest]; [exfalso; apply Hne; reflexivity|].
    simpl. eauto.
  - destruct (is_gt_or_ge cmp) eqn:Egt.
    + rewrite Em. simpl. destruct evaluated as [|item rest]; [exfalso; apply Hne; reflexivity|].
    simpl. eauto.
    + eauto.
Qed.

Lemma select_loop_returns (cmp : Comparator) (statements : list GraphStatement)
      (graphs : list graph) :
  (forall g, In g graphs ->
             exists selected, select_for_graph cmp statements g = Return selected) ->
  forall conjectures, exists result,
      select_loop cmp statements graphs conjectures = Return result.
Proof.
  induction graphs as [|g graphs IH]; intros H conjectures; simpl.
  - eauto.
  - destruct (H g (or_introl eq_refl)) as [sel ->]. simpl.
    apply IH. intros g' Hg'. apply H. right. exact Hg'.
Qed.
End SelectionReturns.

(** X11: [conjecture] returns a list when every candidate statement
    evaluates to a boolean on every graph of the corpus and, under [<], [<=],
    [>] or [>=], at least one candidate is true on each graph. *)
Theorem conjecture_returns
  {A : Arithmetic} (limit : Z) (corpus : list graph) (cmp : Comparator)
  (invariant : func) :
  (forall s g,
      In s (make_statements cmp (mkGraphExpression [invariant])
                            (candidate_pool limit invariant)) ->
      In g corpus -> exists b, statement_evaluate s g = Return b) ->
  (is_lt_or_le cmp || is_gt_or_ge cmp = true ->
   forall g, In g corpus ->
     exists s,
       In s (make_statements cmp (mkGraphExpression [invariant])
                             (candidate_pool limit invariant)) /\
       statement_evaluate s g = Return true) ->
  exists result, conjecture limit corpus cmp invariant = Return result.
Proof.
  intros Hall Hone. rewrite conjecture_unfold.
  destruct (select_loop_returns cmp
              (make_statements cmp (mkGraphExpression [invariant])
                               (candidate_pool limit invariant)) corpus) with (conjectures := @nil pyobject)
    as [conjectures E].
  - intros g Hg. apply select_for_graph_returns.
    + intros s Hs. apply Hall; assumption.
    + intros Hd. apply Hone; assumption.
  - rewrite E. simpl. eauto.
Qed.

Lemma conjecture_returns_witness :
  exists result,
    conjecture 1 [CycleGraph5; PetersenGraph] operator_le INPGraph_alpha = Return result.
Proof.
  apply (conjecture_returns (A := ZArith_model)
           1 [CycleGraph5; PetersenGraph] operator_le INPGraph_alpha).
  - intros s g [<- | []] [<- | [<- | []]]; eexists; reflexivity.
  - intros _ g [<- | [<- | []]]; eexists; (split; [left; reflexivity | reflexivity]).
Defined.

Section TargetOutsideTheRegistry.
Context {A : Arithmetic}.

Lemma candidate_pool_first (limit : Z) (invariant : func) :
  1 <= limit ->
  exists rest,
    candidate_pool limit invariant = generated 1 (Some invariant) ++ rest.
Proof.
  intros H. unfold candidate_pool, py_range.
  destruct (Z.to_nat (limit + 1 - 1)) as [|n] eqn:E; [lia|].
  simpl. eauto.
Qed.

Lemma leaves_without_unregistered (invariant : func) :
  is_registered invariant = false ->
  generated 1 (Some invariant) =
  [mkGraphExpression [INPGraph_alpha]; mkGraphExpression [INPGraph_min_degree]].
Proof.
  intros H. destruct invariant; try discriminate H. reflexivity.
Qed.

Lemma first_statement_raises (cmp : Comparator) (invariant : func) (g : graph) (v : num) :
  is_registered invariant = false ->
  alpha_of g = Value v ->
  statement_evaluate
    (mkGraphStatement 0 (mkGraphExpression [INPGraph_alpha]) cmp
                      (mkGraphExpression [invariant])) g
  = Raise IndexError.
Proof.
  intros Hreg Hv. unfold statement_evaluate. simpl lhs. simpl rhs.
  rewrite (evaluate_unregistered_leaf g invariant Hreg).
  unfold evaluate. simpl. unfold evaluate_step. simpl. rewrite Hv. reflexivity.
Qed.
End TargetOutsideTheRegistry.

(** X12: when the target invariant is a function outside the registries, the
    right-hand side of every statement has nothing to evaluate.  With a limit
    of at least 1, [conjecture] raises [IndexError] on the first graph of the
    corpus on which the independence number is computed. *)
Theorem conjecture_with_unregistered_invariant
  {A : Arithmetic} (limit : Z) (g : graph) (corpus : list graph)
  (cmp : Comparator) (invariant : func) (v : num) :
  is_registered invariant = false ->
  1 <= limit ->
  alpha_of g = Value v ->
  conjecture limit (g :: corpus) cmp invariant = Raise IndexError.
Proof.
  intros Hreg Hlimit Hv. rewrite conjecture_unfold.
  destruct (candidate_pool_first limit invariant Hlimit) as [rest ->].
  rewrite (leaves_without_unregistered invariant Hreg).
  unfold make_statements, enumerate. simpl combine. simpl map.
  unfold new_GraphStatement at 1. simpl as_expression. simpl select_loop.
  unfold select_for_graph at 1. simpl filterM.
  rewrite (first_statement_raises cmp invariant g v Hreg Hv). reflexivity.
Qed.

Lemma conjecture_with_unregistered_invariant_witness :
  conjecture 5 default_graph_db operator_le decrement = Raise IndexError.
Proof.
  apply (conjecture_with_unregistered_invariant (A := ZArith_model)
           5 CompleteGraph3 _ operator_le decrement 1); [reflexivity | lia | reflexivity].
Defined.

Section Soundness.
Context {A : Arithmetic}.

Lemma in_candidate_pool (limit : Z) (invariant : func) (e : GraphExpression) :
  In e (candidate_pool limit invariant) <->
  exists c, 1 <= c <= limit /\ In e (generated c (Some invariant)).
Proof.
  unfold candidate_pool. rewrite in_flat_map. split.
  - intros [c [Hc He]]. apply in_py_range in Hc. exists c. split; [lia | exact He].
  - intros [c [Hc He]]. exists c. split; [apply in_py_range; lia | exact He].
Qed.
End Soundness.

(** X13: every object in the list that [conjecture] returns carries a
    statement built by this call: its comparator and right-hand side are the
    arguments, its left-hand side is an expression of some complexity from 1
    to the limit (its stack has that many elements) that does not contain
    the target invariant, and it is true on at least one graph of the
    corpus. *)
Theorem conjecture_sound
  {A : Arithmetic} (limit : Z) (corpus : list graph) (cmp : Comparator)
  (invariant : func) (result : list pyobject) :
  conjecture limit corpus cmp invariant = Return result ->
  forall x, In x result ->
    comparator (statement_of x) = cmp /\
    rhs (statement_of x) = mkGraphExpression [invariant] /\
    (exists c,
        1 <= c <= limit /\
        In (lhs (statement_of x)) (generated c (Some invariant)) /\
        Z.of_nat (length (_stack (lhs (statement_of x)))) = c) /\
    (In invariant _graph_invariants -> ~ In invariant (_stack (lhs (statement_of x)))) /\
    (exists g, In g corpus /\ statement_evaluate (statement_of x) g = Return true).
Proof.
  intros H x Hx. rewrite conjecture_unfold in H.
  destruct (select_loop cmp _ corpus []) as [conjectures|] eqn:E; simpl in H;
    [|discriminate].
  inversion H; subst result. apply py_set_In in Hx.
  destruct (select_loop_In _ _ _ _ _ E x Hx) as [[] | [Hs [_ Htrue]]].
  apply in_make_statements in Hs as [i [e [Hi Hs]]].
  rewrite Hs in *. simpl.
  apply nth_error_In, in_candidate_pool in Hi as [c [Hc He]].
  repeat split; auto.
  - exists c. repeat split; auto; try lia. apply (generated_length _ _ _ He).
  - intros Hinv. apply (generated_without invariant c e Hinv He).
Qed.

Lemma conjecture_sound_witness :
  comparator
    (statement_of
       (Statement_object
          (mkGraphStatement 0 (mkGraphExpression [INPGraph_min_degree]) operator_le
                            (mkGraphExpression [INPGraph_alpha])))) = operator_le /\
  ~ In INPGraph_alpha [INPGraph_min_degree].
Proof.
  destruct (conjecture_sound (A := ZArith_model)
              1 [CycleGraph5; PetersenGraph] operator_le INPGraph_alpha _ eq_refl
              (Statement_object
                 (mkGraphStatement 0 (mkGraphExpression [INPGraph_min_degree]) operator_le
                                   (mkGraphExpression [INPGraph_alpha]))))
    as [Hc [_ [_ [Hno _]]]].
  - left. reflexivity.
  - split; [exact Hc | apply Hno; left; reflexivity].
Defined.

(** * Properties of the text forms *)

Section TextFacts.
Variable dict : list (func * Text.lambda).
Variable opening closing : String.string.
Hypothesis dict_covers : Text.covers_registries dict.

Local Abbreviation loop sf := (Text.render_loop sf dict opening closing).
Local Abbreviation step sf := (Text.render_step sf dict opening closing).

Lemma render_loop_app (len : nat) (a b : list func) :
  forall sf i stack,
    loop sf len i (a ++ b) stack =
    Text.and_then (loop sf len i a stack) (fun stack' => loop sf len (i + length a) b stack').
Proof.
  induction a as [|op a IH]; intros sf i stack; simpl.
  - rewrite Nat.add_0_r. reflexivity.
  - destruct (step sf len i stack op) as [stack'|e]; simpl; [|reflexivity].
    rewrite IH. replace (S i + length a)%nat with (i + S (length a))%nat by lia.
    reflexivity.
Qed.

(** One instruction on a stack whose top [h0] elements are strings. *)
Lemma render_step_texts (op : func) (h0 h1 : nat) (texts0 : list String.string) :
  registered op -> height_step h0 op = Some h1 -> length texts0 = h0 ->
  exists root_texts inner_texts,
    length root_texts = h1 /\ length inner_texts = h1 /\
    (forall sf len i below,
        S i = len ->
        step sf len i (map Text.Str texts0 ++ below) op
        = Text.Ok (map Text.Str root_texts ++ below)) /\
    (forall sf len i below,
        S i <> len ->
        step sf len i (map Text.Str texts0 ++ below) op
        = Text.Ok (map Text.Str inner_texts ++ below)) /\
    (forall t rest_root,
        root_texts = t :: rest_root ->
        inner_texts =
        (if py_in op _binary_commutative_operators
            || py_in op _binary_noncommutative_operators
         then String.append opening (String.append t closing)
         else t) :: rest_root).
Proof.
  intros Hreg Hstep Hlen. destruct dict_covers as [Hone Htwo].
  unfold registered in Hreg.
  destruct op; simpl in Hreg; try discriminate Hreg.
  1, 2:
    match type of Hstep with
    | height_step _ ?f = _ =>
        destruct (Hone f) as [lam Hlam]; [simpl; tauto|]
    end;
    unfold height_step in Hstep; simpl in Hstep; inversion Hstep; subst h1;
    exists (lam Text.graph_name :: texts0), (lam Text.graph_name :: texts0);
    repeat split; simpl; try (f_equal; exact Hlen);
    try (intros sf len i below _; unfold Text.render_step; simpl; rewrite Hlam; reflexivity);
    intros t rest E; inversion E; reflexivity.
  1, 2:
    match type of Hstep with
    | height_step _ ?f = _ =>
        destruct (Hone f) as [lam Hlam]; [simpl; tauto|]
    end;
    unfold height_step in Hstep; simpl in Hstep;
    destruct h0 as [|h0]; [discriminate|]; inversion Hstep; subst h1;
    destruct texts0 as [|x texts0]; [discriminate|];
    exists (lam x :: texts0), (lam x :: texts0);
    repeat split; simpl; try exact Hlen;
    try (intros sf len i below _; unfold Text.render_step; simpl; rewrite Hlam; reflexivity);
    intros t rest E; inversion E; reflexivity.
  all:
    match type of Hstep with
    | height_step _ ?f = _ =>
        destruct (Htwo f) as [lam Hlam]; [simpl; tauto|]
    end;
    unfold height_step in Hstep; simpl in Hstep;
    destruct h0 as [|[|h0]]; try discriminate; inversion Hstep; subst h1;
    destruct texts0 as [|x [|y texts0]]; try discriminate;
    exists (lam x y :: texts0),
           (String.append opening (String.append (lam x y) closing) :: texts0);
    repeat split; simpl; try (simpl in Hlen; lia);
    try (intros sf len i below Hi; unfold Text.render_step; cbn -[Nat.eqb];
         rewrite Hlam; cbn -[Nat.eqb];
         destruct (Nat.eqb (S i) len) eqn:E;
         [apply Nat.eqb_eq in E | apply Nat.eqb_neq in E];
         try reflexivity; congruence);
    intros t rest E; inversion E; reflexivity.
Qed.

(** A run that does not reach the last index of the stack: every binary
    combination gets its parentheses, and the strings pushed depend on the
    instructions only. *)
Lemma render_loop_inner (ops : list func) :
  Forall registered ops ->
  forall h0 h texts0,
    height_after ops h0 = Some h -> length texts0 = h0 ->
    exists texts,
      length texts = h /\
      forall sf len i below,
        (i + length ops < len)%nat ->
        loop sf len i ops (map Text.Str texts0 ++ below)
        = Text.Ok (map Text.Str texts ++ below).
Proof.
  intros Hreg. induction Hreg as [|op ops Hop Hreg IH]; intros h0 h texts0 Hh Hlen.
  - simpl in Hh. inversion Hh; subst h. exists texts0. split; [exact Hlen | reflexivity].
  - simpl in Hh. destruct (height_step h0 op) as [h1|] eqn:E; [|discriminate].
    destruct (render_step_texts op h0 h1 texts0 Hop E Hlen)
      as [_ [inner [_ [Hinner [_ [Hstep _]]]]]].
    destruct (IH h1 h inner Hh Hinner) as [texts [Htexts Hrun]].
    exists texts. split; [exact Htexts|].
    intros sf len i below Hi. simpl in Hi. simpl.
    rewrite (Hstep sf len i below) by lia. simpl. apply Hrun. lia.
Qed.

(** The text of a program when it is the whole stack ([root]) and when it is
    an operand inside a larger stack. *)
Lemma render_loop_program (ops : list func) :
  postfix_program ops ->
  exists t,
    (forall sf i below,
        loop sf (i + length ops) i ops below = Text.Ok (Text.Str t :: below)) /\
    (forall sf len i below,
        (i + length ops < len)%nat ->
        loop sf len i ops below
        = Text.Ok (Text.Str (Text.as_operand opening closing (mkGraphExpression ops) t)
                     :: below)).
Proof.
  intros [Hreg Hwf].
  assert (ops <> []) as Hne by (intros ->; discriminate Hwf).
  destruct (exists_last Hne) as [front [op ->]].
  apply Forall_app in Hreg as [Hfront Hop]. inversion Hop as [|? ? Hop' _]; subst.
  unfold well_formed in Hwf. rewrite height_after_app in Hwf.
  destruct (height_after front 0) as [h'|] eqn:Ef; [|discriminate]. simpl in Hwf.
  destruct (height_step h' op) as [h1|] eqn:Es; [|discriminate].
  inversion Hwf; subst h1.
  destruct (render_loop_inner front Hfront 0 h' [] Ef eq_refl) as [texts [Htexts Hrun]].
  change (forall sf len i below,
             (i + length front < len)%nat ->
             loop sf len i front below = Text.Ok (map Text.Str texts ++ below)) in Hrun.
  destruct (render_step_texts op h' 1 texts Hop' Es Htexts)
    as [root [inner [Hroot [Hinner [Hstep_root [Hstep_inner Hrel]]]]]].
  destruct root as [|t [|? ?]]; try discriminate Hroot.
  specialize (Hrel t [] eq_refl). subst inner.
  exists t. split.
  - intros sf i below. rewrite render_loop_app, length_app. simpl length.
    rewrite (Hrun sf (i + (length front + 1))%nat i below) by lia. simpl.
    rewrite (Hstep_root sf (i + (length front + 1))%nat (i + length front)%nat below) by lia.
    reflexivity.
  - intros sf len i below Hi. rewrite length_app in Hi. simpl in Hi.
    rewrite render_loop_app. rewrite (Hrun sf len i below) by lia. simpl.
    rewrite (Hstep_inner sf len (i + length front)%nat below) by lia.
    unfold Text.as_operand. simpl _stack. rewrite rev_app_distr. reflexivity.
Qed.

Lemma render_program (e : GraphExpression) :
  postfix_program (_stack e) ->
  exists t,
    (forall sf, Text.render sf dict opening closing e = Text.Ok (Text.Str t)) /\
    (forall sf len i below,
        (i + length (_stack e) < len)%nat ->
        loop sf len i (_stack e) below
        = Text.Ok (Text.Str (Text.as_operand opening closing e t) :: below)).
Proof.
  intros H. destruct (render_loop_program _ H) as [t [Hroot Hinner]].
  exists t. split.
  - intros sf. unfold Text.render. rewrite (Hroot sf 0%nat). reflexivity.
  - destruct e as [ops]. exact Hinner.
Qed.

Lemma render_binary (sf : func -> String.string) (a b : GraphExpression) (op : func)
  (ta tb : String.string) :
  postfix_program (_stack a) -> postfix_program (_stack b) ->
  In op (_binary_commutative_operators ++ _binary_noncommutative_operators) ->
  Text.render sf dict opening closing a = Text.Ok (Text.Str ta) ->
  Text.render sf dict opening closing b = Text.Ok (Text.Str tb) ->
  exists f,
    Text.getitem dict op = Text.Ok (Text.Lambda2 f) /\
    Text.render sf dict opening closing (append (extend a (_stack b)) op)
    = Text.Ok (Text.Str (f (Text.as_operand opening closing b tb)
                           (Text.as_operand opening closing a ta))).
Proof.
  intros Ha Hb Hop Hta Htb.
  destruct (render_program a Ha) as [ta' [Hta' Hina]].
  destruct (render_program b Hb) as [tb' [Htb' Hinb]].
  rewrite (Hta' sf) in Hta. inversion Hta; subst ta'.
  rewrite (Htb' sf) in Htb. inversion Htb; subst tb'.
  destruct (proj2 dict_covers op Hop) as [f Hf]. exists f. split; [exact Hf|].
  unfold Text.render, append, extend. simpl _stack.
  rewrite !length_app. simpl length.
  rewrite !render_loop_app.
  rewrite (Hina sf _ 0%nat) by lia. simpl.
  rewrite (Hinb sf _ (length (_stack a))) by lia. simpl.
  unfold Text.render_step.
  assert (py_in op _graph_invariants = false /\ py_in op _unary_operators = false /\
          py_in op _binary_commutative_operators
          || py_in op _binary_noncommutative_operators = true) as [-> [-> ->]].
  { simpl in Hop. repeat (destruct Hop as [<- | Hop]; [repeat split|]). destruct Hop. }
  rewrite Hf. cbn -[Nat.eqb]. rewrite ?length_app.
  match goal with
  | |- context [Nat.eqb ?x ?y] =>
      replace (Nat.eqb x y) with true by (symmetry; apply Nat.eqb_eq; lia)
  end.
  reflexivity.
Qed.

Lemma render_unary (sf : func -> String.string) (s : GraphExpression) (op : func)
  (ts : String.string) :
  postfix_program (_stack s) ->
  In op _unary_operators ->
  Text.render sf dict opening closing s = Text.Ok (Text.Str ts) ->
  exists f,
    Text.getitem dict op = Text.Ok (Text.Lambda1 f) /\
    Text.render sf dict opening closing (append s op)
    = Text.Ok (Text.Str (f (Text.as_operand opening closing s ts))).
Proof.
  intros Hs Hop Hts.
  destruct (render_program s Hs) as [ts' [Hts' Hin]].
  rewrite (Hts' sf) in Hts. inversion Hts; subst ts'.
  destruct (proj1 dict_covers op) as [f Hf]; [apply in_or_app; right; exact Hop|].
  exists f. split; [exact Hf|].
  unfold Text.render, append. simpl _stack.
  rewrite !length_app. simpl length.
  rewrite !render_loop_app.
  rewrite (Hin sf _ 0%nat) by lia. simpl.
  unfold Text.render_step.
  assert (py_in op _graph_invariants = false /\ py_in op _unary_operators = true)
    as [-> ->].
  { simpl in Hop. repeat (destruct Hop as [<- | Hop]; [repeat split|]). destruct Hop. }
  rewrite Hf. reflexivity.
Qed.

(** An invariant alone: the lambda of the dictionary applied to [G]. *)
Lemma render_invariant (sf : func -> String.string) (f : func) :
  In f _graph_invariants ->
  exists lam,
    Text.getitem dict f = Text.Ok (Text.Lambda1 lam) /\
    Text.render sf dict opening closing (mkGraphExpression [f])
    = Text.Ok (Text.Str (lam Text.graph_name)).
Proof.
  intros Hf.
  destruct (proj1 dict_covers f) as [lam Hlam]; [apply in_or_app; left; exact Hf|].
  exists lam. split; [exact Hlam|].
  unfold Text.render. simpl. unfold Text.render_step.
  assert (py_in f _graph_invariants = true) as ->.
  { simpl in Hf. repeat (destruct Hf as [<- | Hf]; [reflexivity|]). destruct Hf. }
  rewrite Hlam. reflexivity.
Qed.
End TextFacts.

Lemma _repr_dict_covers : Text.covers_registries Text._repr_dict.
Proof.
  split; intros op Hop; simpl in Hop;
    repeat (destruct Hop as [<- | Hop]; [eexists; reflexivity|]); destruct Hop.
Qed.

Lemma _latex_dict_covers : Text.covers_registries Text._latex_dict.
Proof.
  split; intros op Hop; simpl in Hop;
    repeat (destruct Hop as [<- | Hop]; [eexists; reflexivity|]); destruct Hop.
Qed.

Lemma _repr_unfold (sf : func -> String.string) (self : GraphExpression) :
  Text._repr_ sf self =
  Text.and_then
    (Text.render sf Text._repr_dict Text.repr_opening Text.repr_closing self)
    (fun x => Text.Ok (Text.format_item sf x)).
Proof. reflexivity. Qed.

Lemma _latex_unfold (sf : func -> String.string) (self : GraphExpression) :
  Text._latex_ sf self =
  Text.render sf Text._latex_dict Text.latex_opening Text.latex_closing self.
Proof. reflexivity. Qed.

(** The two methods on a postfix program: both return, and the texts do not
    depend on how a function object would be printed. *)
Lemma text_of_program (e : GraphExpression) :
  postfix_program (_stack e) ->
  exists r l,
    forall sf,
      (Text.render sf Text._repr_dict Text.repr_opening Text.repr_closing e
       = Text.Ok (Text.Str r)) /\
      Text._repr_ sf e = Text.Ok r /\
      Text._latex_ sf e = Text.Ok (Text.Str l).
Proof.
  intros H.
  destruct (render_program Text._repr_dict Text.repr_opening Text.repr_closing
              _repr_dict_covers e H) as [r [Hr _]].
  destruct (render_program Text._latex_dict Text.latex_opening Text.latex_closing
              _latex_dict_covers e H) as [l [Hl _]].
  exists r, l. intros sf. split; [apply Hr|]. split.
  - rewrite _repr_unfold, (Hr sf). reflexivity.
  - rewrite _latex_unfold. apply Hl.
Qed.

Lemma _repr_render (sf : func -> String.string) (e : GraphExpression) (r : String.string) :
  postfix_program (_stack e) ->
  Text._repr_ sf e = Text.Ok r ->
  Text.render sf Text._repr_dict Text.repr_opening Text.repr_closing e
  = Text.Ok (Text.Str r).
Proof.
  intros H Hr. destruct (text_of_program e H) as [r' [l Hboth]].
  destruct (Hboth sf) as [Hrender [Hrepr _]].
  rewrite Hrepr in Hr. inversion Hr; subst r'. exact Hrender.
Qed.

(** X14: [_repr_] and [_latex_] on what [all_expressions] returns.  For
    every expression of a returned list (complexities from 1 on) both
    methods return a text: neither raises, and no function object is printed
    into the text, which is the same whatever the printed form of a function
    object is.  On the empty expression that [all_expressions] returns below
    complexity 1, both methods raise [IndexError] at the final pop. *)
Theorem generated_expressions_have_text
  (c : Z) (without : option func) (e : GraphExpression) :
  In e (produced (all_expressions c without)) ->
  (1 <= c ->
   exists r l,
     forall str_of_function,
       Text._repr_ str_of_function e = Text.Ok r /\
       Text._latex_ str_of_function e = Text.Ok (Text.Str l)) /\
  (c < 1 ->
   forall str_of_function,
     Text._repr_ str_of_function e = Text.Raised Text.Text_IndexError /\
     Text._latex_ str_of_function e = Text.Raised Text.Text_IndexError).
Proof.
  intros H. split.
  - intros Hc. apply produced_from_1 in H; [|exact Hc].
    destruct (text_of_program e (generated_postfix_program without c e H)) as [r [l Hboth]].
    exists r, l. intros sf. apply (Hboth sf).
  - intros Hc sf. rewrite (produced_below_1 c without e Hc H). split; reflexivity.
Qed.

Lemma generated_expressions_have_text_witness :
  (exists r l,
      forall str_of_function,
        Text._repr_ str_of_function
          (mkGraphExpression [INPGraph_alpha; INPGraph_min_degree; operator_sub])
        = Text.Ok r /\
        Text._latex_ str_of_function
          (mkGraphExpression [INPGraph_alpha; INPGraph_min_degree; operator_sub])
        = Text.Ok (Text.Str l)) /\
  Text._repr_ (fun _ => Text.graph_name) (mkGraphExpression [])
  = Text.Raised Text.Text_IndexError.
Proof.
  split.
  - apply (generated_expressions_have_text 3 None); [vm_compute; tauto | lia].
  - apply (generated_expressions_have_text 0 None); [vm_compute; tauto | lia].
Defined.

(** X15: the text of a binary combination.  For postfix programs [a] and [b]
    with texts [ra], [rb] ([la], [lb] in LaTeX) and a binary operator [op],
    the expression with stack [a ++ b ++ [op]] is printed by the operator's
    lambda applied to the text of [b] first and the text of [a] second, each
    in parentheses when its own last operator is binary.  The printed order
    of the operands is the order in which [evaluate] passes them. *)
Theorem text_of_binary_combination
  (str_of_function : func -> String.string) (a b : GraphExpression) (op : func)
  (ra rb la lb : String.string) :
  postfix_program (_stack a) -> postfix_program (_stack b) ->
  In op (_binary_commutative_operators ++ _binary_noncommutative_operators) ->
  Text._repr_ str_of_function a = Text.Ok ra ->
  Text._repr_ str_of_function b = Text.Ok rb ->
  Text._latex_ str_of_function a = Text.Ok (Text.Str la) ->
  Text._latex_ str_of_function b = Text.Ok (Text.Str lb) ->
  exists f g,
    Text.getitem Text._repr_dict op = Text.Ok (Text.Lambda2 f) /\
    Text.getitem Text._latex_dict op = Text.Ok (Text.Lambda2 g) /\
    Text._repr_ str_of_function (append (extend a (_stack b)) op)
    = Text.Ok (f (Text.repr_operand b rb) (Text.repr_operand a ra)) /\
    Text._latex_ str_of_function (append (extend a (_stack b)) op)
    = Text.Ok (Text.Str (g (Text.latex_operand b lb) (Text.latex_operand a la))).
Proof.
  intros Ha Hb Hop Hra Hrb Hla Hlb.
  destruct (render_binary Text._latex_dict Text.latex_opening Text.latex_closing
              _latex_dict_covers str_of_function a b op la lb Ha Hb Hop Hla Hlb)
    as [g [Hg Hlatex]].
  destruct (render_binary Text._repr_dict Text.repr_opening Text.repr_closing
              _repr_dict_covers str_of_function a b op ra rb Ha Hb Hop
              (_repr_render _ a ra Ha Hra) (_repr_render _ b rb Hb Hrb))
    as [f [Hf Hrepr]].
  exists f, g. repeat split; auto.
  rewrite _repr_unfold, Hrepr. reflexivity.
Qed.

Lemma text_of_binary_combination_witness :
  exists ra rb la lb f g,
    Text._repr_ (fun _ => Text.graph_name) (mkGraphExpression [INPGraph_alpha])
    = Text.Ok ra /\
    Text._repr_ (fun _ => Text.graph_name)
      (mkGraphExpression [INPGraph_min_degree; increment]) = Text.Ok rb /\
    Text.getitem Text._repr_dict operator_sub = Text.Ok (Text.Lambda2 f) /\
    Text.getitem Text._latex_dict operator_sub = Text.Ok (Text.Lambda2 g) /\
    Text._repr_ (fun _ => Text.graph_name)
      (mkGraphExpression [INPGraph_alpha; INPGraph_min_degree; increment; operator_sub])
    = Text.Ok (f rb ra) /\
    Text._latex_ (fun _ => Text.graph_name)
      (mkGraphExpression [INPGraph_alpha; INPGraph_min_degree; increment; operator_sub])
    = Text.Ok (Text.Str (g lb la)).
Proof.
  assert (postfix_program [INPGraph_alpha]) as Ha
    by (split; [repeat constructor | reflexivity]).
  assert (postfix_program [INPGraph_min_degree; increment]) as Hb
    by (split; [repeat constructor | reflexivity]).
  assert (In operator_sub
            (_binary_commutative_operators ++ _binary_noncommutative_operators)) as Hop
    by (simpl; tauto).
  destruct (text_of_binary_combination (fun _ => Text.graph_name)
              (mkGraphExpression [INPGraph_alpha])
              (mkGraphExpression [INPGraph_min_degree; increment])
              operator_sub _ _ _ _ Ha Hb Hop eq_refl eq_refl eq_refl eq_refl)
    as [f [g [Hf [Hg [Hr Hl]]]]].
  do 4 eexists. exists f, g.
  split; [reflexivity|]. split; [reflexivity|].
  split; [exact Hf|]. split; [exact Hg|]. split; [exact Hr | exact Hl].
Defined.

(** X16: the text of a unary extension.  For a postfix program [s] with
    texts [rs] and [ls] and a unary operator [op], the expression with stack
    [s ++ [op]] is printed by the operator's lambda applied to the text of
    [s], in parentheses when the last operator of [s] is binary. *)
Theorem text_of_unary_extension
  (str_of_function : func -> String.string) (s : GraphExpression) (op : func)
  (rs ls : String.string) :
  postfix_program (_stack s) ->
  In op _unary_operators ->
  Text._repr_ str_of_function s = Text.Ok rs ->
  Text._latex_ str_of_function s = Text.Ok (Text.Str ls) ->
  exists f g,
    Text.getitem Text._repr_dict op = Text.Ok (Text.Lambda1 f) /\
    Text.getitem Text._latex_dict op = Text.Ok (Text.Lambda1 g) /\
    Text._repr_ str_of_function (append s op) = Text.Ok (f (Text.repr_operand s rs)) /\
    Text._latex_ str_of_function (append s op)
    = Text.Ok (Text.Str (g (Text.latex_operand s ls))).
Proof.
  intros Hs Hop Hrs Hls.
  destruct (render_unary Text._latex_dict Text.latex_opening Text.latex_closing
              _latex_dict_covers str_of_function s op ls Hs Hop Hls)
    as [g [Hg Hlatex]].
  destruct (render_unary Text._repr_dict Text.repr_opening Text.repr_closing
              _repr_dict_covers str_of_function s op rs Hs Hop
              (_repr_render _ s rs Hs Hrs))
    as [f [Hf Hrepr]].
  exists f, g. repeat split; auto.
  rewrite _repr_unfold, Hrepr. reflexivity.
Qed.

Lemma text_of_unary_extension_witness :
  exists rs ls f g,
    Text._repr_ (fun _ => Text.graph_name)
      (mkGraphExpression [INPGraph_alpha; INPGraph_min_degree; operator_add])
    = Text.Ok rs /\
    Text.getitem Text._repr_dict math_sqrt = Text.Ok (Text.Lambda1 f) /\
    Text.getitem Text._latex_dict math_sqrt = Text.Ok (Text.Lambda1 g) /\
    Text._repr_ (fun _ => Text.graph_name)
      (mkGraphExpression [INPGraph_alpha; INPGraph_min_degree; operator_add; math_sqrt])
    = Text.Ok
        (f (Text.repr_operand
              (mkGraphExpression [INPGraph_alpha; INPGraph_min_degree; operator_add]) rs)) /\
    Text._latex_ (fun _ => Text.graph_name)
      (mkGraphExpression [INPGraph_alpha; INPGraph_min_degree; operator_add; math_sqrt])
    = Text.Ok
        (Text.Str
           (g (Text.latex_operand
                 (mkGraphExpression [INPGraph_alpha; INPGraph_min_degree; operator_add])
                 ls))).
Proof.
  assert (postfix_program [INPGraph_alpha; INPGraph_min_degree; operator_add]) as Hs
    by (split; [repeat constructor | reflexivity]).
  assert (In math_sqrt _unary_operators) as Hop by (simpl; tauto).
  destruct (text_of_unary_extension (fun _ => Text.graph_name)
              (mkGraphExpression [INPGraph_alpha; INPGraph_min_degree; operator_add])
              math_sqrt _ _ Hs Hop eq_refl eq_refl)
    as [f [g [Hf [Hg [Hr Hl]]]]].
  do 2 eexists. exists f, g.
  split; [reflexivity|].
  split; [exact Hf|]. split; [exact Hg|]. split; [exact Hr | exact Hl].
Defined.

Section PrintingStatements.
Context {A : Arithmetic}.
Variable str_of_function : func -> String.string.

(** The parts of a statement in the list that [conjecture] returns. *)
Lemma conjecture_result_statement
  (limit : Z) (corpus : list graph) (cmp : Comparator) (invariant : func)
  (result : list pyobject) (x : pyobject) :
  conjecture limit corpus cmp invariant = Return result ->
  In x result ->
  comparator (statement_of x) = cmp /\
  rhs (statement_of x) = mkGraphExpression [invariant] /\
  exists c, In (lhs (statement_of x)) (generated c (Some invariant)).
Proof.
  intros H Hx. rewrite conjecture_unfold in H.
  destruct (select_loop cmp _ corpus []) as [conjectures|] eqn:E; simpl in H;
    [|discriminate].
  inversion H; subst result. apply py_set_In in Hx.
  destruct (select_loop_In _ _ _ _ _ E x Hx) as [[] | [Hs _]].
  apply in_make_statements in Hs as [i [e [Hi Hs]]].
  rewrite Hs. simpl.
  apply nth_error_In, in_candidate_pool in Hi as [c [Hc He]].
  repeat split; auto. exists c. exact He.
Qed.

Lemma statement_repr_of_programs (s : GraphStatement) :
  postfix_program (_stack (lhs s)) -> postfix_program (_stack (rhs s)) ->
  exists l r,
    Text._repr_ str_of_function (lhs s) = Text.Ok l /\
    Text._repr_ str_of_function (rhs s) = Text.Ok r /\
    Text.statement_repr str_of_function s =
    Text.and_then (Text.statement_repr_dict (comparator s)) (fun symbol =>
    Text.Ok (Text.statement_text l symbol r)).
Proof.
  intros Hl Hr.
  destruct (text_of_program _ Hl) as [l [l' Hl']].
  destruct (text_of_program _ Hr) as [r [r' Hr']].
  destruct (Hl' str_of_function) as [_ [El _]].
  destruct (Hr' str_of_function) as [_ [Er _]].
  exists l, r. split; [exact El|]. split; [exact Er|].
  unfold Text.statement_repr. rewrite El, Er.
  destruct (Text.statement_repr_dict (comparator s)); reflexivity.
Qed.
End PrintingStatements.

(** X17: printing what [conjecture] returns.  When the comparator is one of
    the six functions of the [operator] module and the target is a
    registered invariant, [_repr_] of every returned statement returns
    [Graph statement: L symbol R] with the texts of the two sides and the
    symbol of the comparator in [_repr_dict].  When the comparator is any
    other callable, which [conjecture] accepts, [_repr_] of every returned
    statement raises [KeyError]. *)
Theorem printing_conjectured_statements
  {A : Arithmetic} (str_of_function : func -> String.string)
  (limit : Z) (corpus : list graph) (cmp : Comparator) (invariant : func)
  (result : list pyobject) (x : pyobject) :
  conjecture limit corpus cmp invariant = Return result ->
  In x result ->
  (forall f, cmp = other_comparator f ->
     Text.statement_repr str_of_function (statement_of x) = Text.Raised Text.KeyError) /\
  (In invariant _graph_invariants ->
   (forall f, cmp <> other_comparator f) ->
   exists l r symbol,
     Text._repr_ str_of_function (lhs (statement_of x)) = Text.Ok l /\
     Text._repr_ str_of_function (mkGraphExpression [invariant]) = Text.Ok r /\
     Text.statement_repr_dict cmp = Text.Ok symbol /\
     Text.statement_repr str_of_function (statement_of x)
     = Text.Ok (Text.statement_text l symbol r)).
Proof.
  intros H Hx.
  destruct (conjecture_result_statement _ _ _ _ _ _ H Hx) as [Hc [Hr [c Hl]]].
  split.
  - intros f ->. unfold Text.statement_repr. rewrite Hc. reflexivity.
  - intros Hinv Hsix.
    assert (postfix_program (_stack (rhs (statement_of x)))) as Hrhs.
    { rewrite Hr. simpl. split.
      - constructor; [|constructor]. unfold registered.
        simpl in Hinv. repeat (destruct Hinv as [<- | Hinv]; [reflexivity|]).
        destruct Hinv.
      - unfold well_formed. simpl. unfold height_step.
        simpl in Hinv. repeat (destruct Hinv as [<- | Hinv]; [reflexivity|]).
        destruct Hinv. }
    destruct (statement_repr_of_programs str_of_function (statement_of x)
                (generated_postfix_program _ _ _ Hl) Hrhs) as [l [r [El [Er E]]]].
    rewrite Hr in Er. rewrite Hc in E.
    destruct cmp as [| | | | | |f]; try (exfalso; apply (Hsix f); reflexivity);
      exists l, r; eexists; (split; [exact El|]); (split; [exact Er|]);
      (split; [reflexivity | exact E]).
Qed.

Lemma printing_conjectured_statements_witness :
  (exists l r symbol,
      Text.statement_repr_dict (A := ZArith_model) operator_le = Text.Ok symbol /\
      Text.statement_repr (A := ZArith_model) (fun _ => Text.graph_name)
        (mkGraphStatement 0 (mkGraphExpression [INPGraph_min_degree]) operator_le
                          (mkGraphExpression [INPGraph_alpha]))
      = Text.Ok (Text.statement_text l symbol r)) /\
  Text.statement_repr (A := ZArith_model) (fun _ => Text.graph_name)
    (mkGraphStatement 0 (mkGraphExpression [INPGraph_min_degree])
                      (other_comparator (fun _ _ => true))
                      (mkGraphExpression [INPGraph_alpha]))
  = Text.Raised Text.KeyError.
Proof.
  split.
  - destruct (printing_conjectured_statements (A := ZArith_model)
                (fun _ => Text.graph_name)
                1 [CycleGraph5; PetersenGraph] operator_le INPGraph_alpha _
                (Statement_object
                   (mkGraphStatement 0 (mkGraphExpression [INPGraph_min_degree])
                                     operator_le (mkGraphExpression [INPGraph_alpha])))
                eq_refl (or_introl eq_refl)) as [_ H].
    destruct H as [l [r [symbol [_ [_ [Hs H]]]]]].
    + simpl. tauto.
    + intros f. discriminate.
    + exists l, r, symbol. split; [exact Hs | exact H].
  - destruct (printing_conjectured_statements (A := ZArith_model)
                (fun _ => Text.graph_name)
                1 [CycleGraph5] (other_comparator (fun _ _ => true)) INPGraph_alpha _
                (Statement_object
                   (mkGraphStatement 0 (mkGraphExpression [INPGraph_min_degree])
                                     (other_comparator (fun _ _ => true))
                                     (mkGraphExpression [INPGraph_alpha])))
                eq_refl (or_introl eq_refl)) as [H _].
    apply (H (fun _ _ => true)). reflexivity.
Defined.

(** * Nothing is subtracted from or divided by itself, at any depth *)

(** The combination of an expression with itself under [sub] or [truediv] is
    generated at no complexity. *)
Lemma self_combination_not_generated
  (without : option func) (c : Z) (a : GraphExpression) (op : func) :
  postfix_program (_stack a) ->
  op = operator_sub \/ op = operator_truediv ->
  In (append (extend a (_stack a)) op) (generated c without) -> False.
Proof.
  intros Ha Hop H.
  assert (In op _binary_noncommutative_operators) as Hnc
    by (destruct Hop as [-> | ->]; simpl; tauto).
  assert (1 < c) as Hc.
  { pose proof (generated_length _ _ _ H) as Hlen.
    unfold append, extend in Hlen. simpl in Hlen. rewrite !length_app in Hlen.
    simpl in Hlen.
    pose proof (postfix_program_nonempty _ Ha) as Hne.
    destruct (_stack a); [contradiction | simpl in Hlen; lia]. }
  rewrite generated_unfold in H by exact Hc. unfold combine_expressions in H.
  apply in_app_or in H as [H | H]; [|apply in_app_or in H as [H | H]].
  - apply in_unary_extensions in H as [s [op' [_ [Hop' E]]]].
    apply append_inj in E as [_ ->].
    apply (proj1 (registries_disjoint op') Hop' Hnc).
  - apply in_noncommutative_combinations in H
      as [i' [a' [b' [op' [_ [Ha' [Hb' [_ [Hskip E]]]]]]]]].
    apply combination_inj in E as [<- [<- <-]]; auto;
      try (eapply generated_postfix_program; eassumption).
    assert (stack_eqb (_stack a) (_stack a) = true) as Heq
      by (apply stack_eqb_eq; reflexivity).
    rewrite Heq in Hskip. destruct Hop as [-> | ->]; discriminate Hskip.
  - apply in_commutative_combinations in H
      as [k [a' [b' [op' [_ [_ [Hop' [E _]]]]]]]].
    apply append_inj in E as [_ ->].
    apply (proj2 (proj2 (registries_disjoint op')) Hnc Hop').
Qed.

(** A list that ends in [o], cut around a block that ends in [op]. *)
Lemma block_at_the_end_or_before {X : Type} (front pre block post : list X) (o op : X) :
  front ++ [o] = pre ++ (block ++ [op]) ++ post ->
  (post = [] /\ o = op /\ front = pre ++ block) \/
  (exists post', post = post' ++ [o] /\ front = pre ++ (block ++ [op]) ++ post').
Proof.
  intros H. induction post as [|o' post' _] using rev_ind.
  - left. rewrite app_nil_r in H.
    replace (pre ++ block ++ [op]) with ((pre ++ block) ++ [op]) in H
      by (rewrite <- app_assoc; reflexivity).
    apply app_inj_tail in H as [H ->]. auto.
  - right. exists post'.
    replace (pre ++ (block ++ [op]) ++ post' ++ [o'])
      with ((pre ++ (block ++ [op]) ++ post') ++ [o']) in H
      by (rewrite <- !app_assoc; reflexivity).
    apply app_inj_tail in H as [H ->]. auto.
Qed.

Lemma height_after_prefix (p q : list func) (h h' : nat) :
  height_after (p ++ q) h = Some h' -> exists hp, height_after p h = Some hp.
Proof.
  rewrite height_after_app. destruct (height_after p h) as [hp|]; [eauto | discriminate].
Qed.

(** A list of registered functions that leaves the stack empty is empty. *)
Lemma height_zero_nil (ops : list func) :
  Forall registered ops -> height_after ops 0 = Some 0%nat -> ops = [].
Proof.
  intros Hreg H. destruct ops as [|op ops]; [reflexivity | exfalso].
  assert (1 <= 0)%nat; [|lia].
  apply (height_after_positive (op :: ops)); [exact Hreg | discriminate | exact H].
Qed.

(** A program inside the concatenation of two programs lies inside one of
    them. *)
Lemma block_within_an_operand (a b block pre post : list func) :
  postfix_program a -> postfix_program b -> postfix_program block ->
  a ++ b = pre ++ block ++ post ->
  (exists m, a = pre ++ block ++ m) \/ (exists l, b = l ++ block ++ post).
Proof.
  intros [Hra Hwa] [Hrb Hwb] [Hrk Hwk] H.
  destruct (app_eq_app_split a pre b (block ++ post) H) as [l [[E1 E2] | [E1 E2]]].
  - symmetry in E2.
    destruct (app_eq_app_split l block b post E2) as [m [[E3 E4] | [E3 E4]]].
    + left. exists m. rewrite E1, E3. reflexivity.
    + (* the block starts in [a] and ends in [b] *)
      destruct m as [|x m].
      * left. exists []. rewrite E1, E3, !app_nil_r. reflexivity.
      * destruct l as [|y l].
        { right. exists []. simpl in E3. rewrite E4, <- E3. reflexivity. }
        exfalso.
        assert (x :: m = []) as Hm; [|discriminate Hm].
        subst a block b.
        apply Forall_app in Hra as [Hrpre Hrl].
        apply Forall_app in Hrk as [_ Hrm].
        unfold well_formed in Hwa, Hwk.
        destruct (height_after_prefix _ _ _ _ Hwk) as [hl Hl].
        assert (1 <= hl)%nat as Hpos
            by (apply (height_after_positive (y :: l)); [exact Hrl | discriminate | exact Hl]).
        rewrite height_after_app in Hwa.
        destruct (height_after pre 0) as [hp|] eqn:Ep; [|discriminate].
        pose proof (height_after_shift _ 0 hl hp Hl) as Hshift.
        rewrite Nat.add_0_l in Hshift.
        rewrite Hshift in Hwa. inversion Hwa as [Hsum].
        assert (hl = 1%nat) by lia. subst hl.
        apply (no_program_extension (y :: l) (x :: m) post); auto.
  - right. exists l. exact E2.
Qed.

Lemma self_block_program (x : list func) (op : func) :
  postfix_program x -> op = operator_sub \/ op = operator_truediv ->
  postfix_program ((x ++ x) ++ [op]).
Proof.
  intros [Hr Hw] Hop. split.
  - apply Forall_app. split; [apply Forall_app; split; assumption|].
    constructor; [|constructor]. destruct Hop as [-> | ->]; reflexivity.
  - unfold well_formed in *. rewrite !height_after_app, Hw.
    pose proof (height_after_shift _ 0 1 1 Hw) as Hshift. simpl in Hshift.
    rewrite Hshift. destruct Hop as [-> | ->]; reflexivity.
Qed.

Lemma no_self_block (without : option func) :
  forall c e,
    In e (generated c without) ->
    In e (generated c without) ->
    forall pre post x op,
      op = operator_sub \/ op = operator_truediv ->
      postfix_program x ->
      _stack e = pre ++ ((x ++ x) ++ [op]) ++ post -> False.
Proof.
  apply (generated_ind without
           (fun c e =>
              In e (generated c without) ->
              forall pre post x op,
                op = operator_sub \/ op = operator_truediv ->
                postfix_program x ->
                _stack e = pre ++ ((x ++ x) ++ [op]) ++ post -> False)).
  - intros f _ _ _ pre post x op _ Hx E. simpl in E.
    apply postfix_program_nonempty in Hx.
    apply (f_equal (@length func)) in E. rewrite !length_app in E. simpl in E.
    destruct x; [contradiction | simpl in E; lia].
  - intros c s u _ Hs IH Hu _ pre post x op Hop Hx E.
    unfold append in E. simpl in E.
    apply block_at_the_end_or_before in E as [[_ [-> _]] | [post' [_ E]]].
    + destruct Hop as [-> | ->]; simpl in Hu;
        repeat (destruct Hu as [Hu | Hu]; [discriminate Hu|]); destruct Hu.
    + apply (IH Hs pre post' x op Hop Hx E).
  - intros c i a b o _ Ha IHa Hb IHb Ho He pre post x op Hop Hx E.
    pose proof (generated_postfix_program _ _ _ Ha) as Pa.
    pose proof (generated_postfix_program _ _ _ Hb) as Pb.
    unfold append, extend in E. simpl in E.
    apply block_at_the_end_or_before in E as [[_ [-> E]] | [post' [_ E]]].
    + assert (pre = []) as ->.
      { destruct Pa as [Hra Hwa]. destruct Pb as [Hrb Hwb]. destruct Hx as [Hrx Hwx].
        assert (height_after (_stack a ++ _stack b) 0 = Some 2%nat) as H2.
        { rewrite height_after_app. unfold well_formed in Hwa. rewrite Hwa.
          apply (height_after_shift _ 0 1 1 Hwb). }
        rewrite E in H2.
        assert (Forall registered pre) as Hrpre.
        { assert (Forall registered (_stack a ++ _stack b)) as Hall
              by (apply Forall_app; split; assumption).
          rewrite E in Hall. apply Forall_app in Hall as [Hall _]. exact Hall. }
        apply height_zero_nil; [exact Hrpre|].
        rewrite height_after_app in H2.
        destruct (height_after pre 0) as [hp|] eqn:Ep; [|discriminate].
        rewrite height_after_app in H2.
        pose proof (height_after_shift _ 0 1 hp Hwx) as S1. simpl in S1.
        rewrite S1 in H2.
        pose proof (height_after_shift _ 0 1 (S hp) Hwx) as S2. simpl in S2.
        rewrite S2 in H2. inversion H2. reflexivity. }
      simpl in E.
      destruct (unique_parse _ _ _ _ Pa Pb Hx Hx E) as [E1 E2].
      assert (b = a) as -> by (apply expression_eq; congruence).
      apply (self_combination_not_generated without c a op Pa Hop He).
    + destruct (block_within_an_operand _ _ _ _ _ Pa Pb (self_block_program x op Hx Hop) E)
        as [[m Em] | [l El]].
      * apply (IHa Ha pre m x op Hop Hx Em).
      * apply (IHb Hb l post' x op Hop Hx El).
Qed.

(** X18: no expression that [all_expressions] returns subtracts an
    expression from itself or divides it by itself, at any depth: its stack
    contains no block [x ++ x ++ [op]] with [x] a postfix program and [op]
    the subtraction or the division. *)
Theorem no_self_subtraction_at_any_depth
  (c : Z) (without : option func) (e : GraphExpression)
  (pre post x : list func) (op : func) :
  In e (generated c without) ->
  op = operator_sub \/ op = operator_truediv ->
  postfix_program x ->
  _stack e <> pre ++ x ++ x ++ [op] ++ post.
Proof.
  intros He Hop Hx E.
  apply (no_self_block without c e He He pre post x op Hop Hx).
  rewrite E, <- !app_assoc. reflexivity.
Qed.

Lemma no_self_subtraction_at_any_depth_witness :
  In (mkGraphExpression
        [INPGraph_alpha; INPGraph_min_degree; operator_sub; math_sqrt; increment])
     (generated 5 None) /\
  [INPGraph_alpha; INPGraph_min_degree; operator_sub; math_sqrt; increment]
  <> [] ++ [INPGraph_alpha] ++ [INPGraph_alpha] ++ [operator_sub] ++ [math_sqrt; increment].
Proof.
  assert (In (mkGraphExpression
                [INPGraph_alpha; INPGraph_min_degree; operator_sub; math_sqrt; increment])
             (generated 5 None)) as H by (vm_compute; tauto).
  split; [exact H|].
  apply (no_self_subtraction_at_any_depth 5 None _ [] [math_sqrt; increment]
           [INPGraph_alpha] operator_sub H).
  - left. reflexivity.
  - split; [repeat constructor | reflexivity].
Defined.
